(** * bb-storage: BLAKE3ZCC digests, manifests and blob decomposition

    A shallow embedding of the digest, manifest, buffer and decomposing
    blob access code of bb-storage, together with the properties the
    specification states about them.

    Conventions of the embedding:
    - Go's fixed width integers are [Z] with the wrap-around written out
      ([u8], [u32], [u64], [i64]);
    - [[]byte] is [list byte], a Go [string] is [list ascii];
    - fixed size arrays are lists of the right length;
    - a run time panic (index out of range, division by zero, an explicit
      [panic]) is [None];
    - loops whose trip count is not structural take fuel, and the lemmas
      named [*_total] show that the fuel handed out is enough. *)

From Stdlib Require Import ZArith Lia List Ascii String.
From Stdlib Require Import Strings.Byte.
From stdpp Require Import base option list gmap strings.

Local Open Scope Z_scope.

(** ** Machine integers *)

Definition u8 (x : Z) : Z := x mod 2 ^ 8.
Definition u32 (x : Z) : Z := x mod 2 ^ 32.
Definition u64 (x : Z) : Z := x mod 2 ^ 64.
(** Conversion to int64: two's complement reinterpretation. *)
Definition i64 (x : Z) : Z := (x + 2 ^ 63) mod 2 ^ 64 - 2 ^ 63.

Definition is_u32 (x : Z) : Prop := 0 <= x < 2 ^ 32.
Definition is_i64 (x : Z) : Prop := - 2 ^ 63 <= x < 2 ^ 63.

Definition byte_to_Z (b : byte) : Z := Z.of_N (Byte.to_N b).
Definition byte_of_Z (x : Z) : byte :=
  match Byte.of_N (Z.to_N (u8 x)) with
  | Some b => b
  | None => x00
  end.

(** [copy(dst[off:], src)]: overwrites [dst] from [off] on with as much of
    [src] as fits; returns the new [dst] and the number of elements copied. *)
Definition copy {A} (dst : list A) (off : nat) (src : list A) : list A * nat :=
  let n := Nat.min (length dst - off) (length src) in
  (take off dst ++ take n src ++ drop (off + n) dst, n).

(** ** encoding/binary.LittleEndian *)

Module LittleEndian.

(** [Uint32(b)] reads the first four bytes; shorter input panics. *)
Definition Uint32 (b : list byte) : option Z :=
  match b with
  | b0 :: b1 :: b2 :: b3 :: _ =>
      Some (Z.lor (byte_to_Z b0)
           (Z.lor (Z.shiftl (byte_to_Z b1) 8)
           (Z.lor (Z.shiftl (byte_to_Z b2) 16)
                  (Z.shiftl (byte_to_Z b3) 24))))
  | _ => None
  end.

(** The four bytes [PutUint32(b, v)] stores. *)
Definition PutUint32 (v : Z) : list byte :=
  [byte_of_Z v; byte_of_Z (Z.shiftr v 8);
   byte_of_Z (Z.shiftr v 16); byte_of_Z (Z.shiftr v 24)].

End LittleEndian.

(** ** Package blake3zcc *)

Module blake3zcc.

Definition maximumBlockSize : Z := 64.
Definition maximumBlocksPerChunk : Z := 1024 / 64.

Definition flagChunkStart : Z := Z.shiftl 1 0.
Definition flagChunkEnd : Z := Z.shiftl 1 1.
Definition flagParent : Z := Z.shiftl 1 2.
Definition flagRoot : Z := Z.shiftl 1 3.

Definition iv : list Z :=
  [0x6a09e667; 0xbb67ae85; 0x3c6ef372; 0xa54ff53a;
   0x510e527f; 0x9b05688c; 0x1f83d9ab; 0x5be0cd19].

(** [bits.RotateLeft32(x, k)]; a negative [k] rotates to the right. *)
Definition RotateLeft32 (x k : Z) : Z :=
  let s := Z.land k 31 in
  Z.lor (u32 (Z.shiftl x s)) (Z.shiftr x (32 - s)).

(** Element [i] of a fixed size array of words. *)
Definition at_ (v : list Z) (i : nat) : Z := nth i v 0.

(** The G function on the cells [ia], [ib], [ic], [id] of the state. *)
Definition g (v : list Z) (ia ib ic id : nat) (m0 m1 : Z) : list Z :=
  let a := at_ v ia in
  let b := at_ v ib in
  let c := at_ v ic in
  let d := at_ v id in
  let a := u32 (a + u32 (b + m0)) in
  let d := RotateLeft32 (Z.lxor d a) (-16) in
  let c := u32 (c + d) in
  let b := RotateLeft32 (Z.lxor b c) (-12) in
  let a := u32 (a + u32 (b + m1)) in
  let d := RotateLeft32 (Z.lxor d a) (-8) in
  let c := u32 (c + d) in
  let b := RotateLeft32 (Z.lxor b c) (-7) in
  <[id:=d]> (<[ic:=c]> (<[ib:=b]> (<[ia:=a]> v))).

(** The 56 applications of G of the seven rounds, in source order:
    the four state cells and the two message word indices. *)
Definition schedule : list (nat * nat * nat * nat * nat * nat) :=
  [ (* Round 1. *)
    (0, 4, 8, 12, 0, 1); (1, 5, 9, 13, 2, 3); (2, 6, 10, 14, 4, 5); (3, 7, 11, 15, 6, 7);
    (0, 5, 10, 15, 8, 9); (1, 6, 11, 12, 10, 11); (2, 7, 8, 13, 12, 13); (3, 4, 9, 14, 14, 15);
    (* Round 2. *)
    (0, 4, 8, 12, 2, 6); (1, 5, 9, 13, 3, 10); (2, 6, 10, 14, 7, 0); (3, 7, 11, 15, 4, 13);
    (0, 5, 10, 15, 1, 11); (1, 6, 11, 12, 12, 5); (2, 7, 8, 13, 9, 14); (3, 4, 9, 14, 15, 8);
    (* Round 3. *)
    (0, 4, 8, 12, 3, 4); (1, 5, 9, 13, 10, 12); (2, 6, 10, 14, 13, 2); (3, 7, 11, 15, 7, 14);
    (0, 5, 10, 15, 6, 5); (1, 6, 11, 12, 9, 0); (2, 7, 8, 13, 11, 15); (3, 4, 9, 14, 8, 1);
    (* Round 4. *)
    (0, 4, 8, 12, 10, 7); (1, 5, 9, 13, 12, 9); (2, 6, 10, 14, 14, 3); (3, 7, 11, 15, 13, 15);
    (0, 5, 10, 15, 4, 0); (1, 6, 11, 12, 11, 2); (2, 7, 8, 13, 5, 8); (3, 4, 9, 14, 1, 6);
    (* Round 5. *)
    (0, 4, 8, 12, 12, 13); (1, 5, 9, 13, 9, 11); (2, 6, 10, 14, 15, 10); (3, 7, 11, 15, 14, 8);
    (0, 5, 10, 15, 7, 2); (1, 6, 11, 12, 5, 3); (2, 7, 8, 13, 0, 1); (3, 4, 9, 14, 6, 4);
    (* Round 6. *)
    (0, 4, 8, 12, 9, 14); (1, 5, 9, 13, 11, 5); (2, 6, 10, 14, 8, 12); (3, 7, 11, 15, 15, 1);
    (0, 5, 10, 15, 13, 3); (1, 6, 11, 12, 0, 10); (2, 7, 8, 13, 2, 6); (3, 4, 9, 14, 4, 7);
    (* Round 7. *)
    (0, 4, 8, 12, 11, 15); (1, 5, 9, 13, 5, 0); (2, 6, 10, 14, 1, 9); (3, 7, 11, 15, 8, 6);
    (0, 5, 10, 15, 14, 10); (1, 6, 11, 12, 2, 12); (2, 7, 8, 13, 3, 4); (3, 4, 9, 14, 7, 13) ]%nat.

(** The compression function. [t] is a uint64, [b] and [d] are uint32. *)
Definition compress (h m : list Z) (t b d : Z) : list Z :=
  let v :=
    [at_ h 0; at_ h 1; at_ h 2; at_ h 3;
     at_ h 4; at_ h 5; at_ h 6; at_ h 7;
     at_ iv 0; at_ iv 1; at_ iv 2; at_ iv 3;
     u32 t; u32 (Z.shiftr t 32); b; d] in
  let v :=
    fold_left
      (fun v '(ia, ib, ic, id, i0, i1) => g v ia ib ic id (at_ m i0) (at_ m i1))
      schedule v in
  [Z.lxor (at_ v 0) (at_ v 8); Z.lxor (at_ v 1) (at_ v 9);
   Z.lxor (at_ v 2) (at_ v 10); Z.lxor (at_ v 3) (at_ v 11);
   Z.lxor (at_ v 4) (at_ v 12); Z.lxor (at_ v 5) (at_ v 13);
   Z.lxor (at_ v 6) (at_ v 14); Z.lxor (at_ v 7) (at_ v 15);
   Z.lxor (at_ v 8) (at_ h 0); Z.lxor (at_ v 9) (at_ h 1);
   Z.lxor (at_ v 10) (at_ h 2); Z.lxor (at_ v 11) (at_ h 3);
   Z.lxor (at_ v 12) (at_ h 4); Z.lxor (at_ v 13) (at_ h 5);
   Z.lxor (at_ v 14) (at_ h 6); Z.lxor (at_ v 15) (at_ h 7)].

(** Truncate the output of the compression function to a chaining value. *)
Definition truncate (i : list Z) : list Z := take 8 i.

(** Concatenate two chaining values to obtain a parent node message. *)
Definition concatenate (a b : list Z) : list Z := take 8 a ++ take 8 b.

(** *** Node in the BLAKE3 Merkle tree *)

Record Node := mkNode {
  chainingValue : list Z;   (* [8]uint32 *)
  m : list Z;               (* [16]uint32 *)
  blockSize : Z;            (* uint32 *)
  flags : Z                 (* uint32 *)
}.

Definition NewChunkNode (chainingValue m : list Z) (blockSize : Z) (chunkStart : bool) : Node :=
  let flags := flagChunkEnd in
  let flags := if chunkStart then Z.lor flags flagChunkStart else flags in
  mkNode chainingValue m blockSize flags.

Definition NewParentNode (m : list Z) : Node :=
  mkNode iv m maximumBlockSize flagParent.

(** Panics unless the node is a chunk (end) node. *)
Definition GetChunkData (n : Node) : option (list Z * list Z * Z * bool) :=
  if Z.land (flags n) flagChunkEnd =? 0 then None
  else Some (chainingValue n, m n, blockSize n,
             negb (Z.land (flags n) flagChunkStart =? 0)).

(** Panics unless the node is a parent node. *)
Definition GetParentData (n : Node) : option (list Z) :=
  if flags n =? flagParent then Some (m n) else None.

(** Inner loop of [GetHashValue]: store the words of one compression
    output into [out], of which [remaining] bytes are left.  [None] in
    the second component is the early [return]. *)
Fixpoint GetHashValue_words (h : list Z) (remaining : nat) : list byte * option nat :=
  match h with
  | [] => ([], Some remaining)
  | v :: h' =>
      if (remaining <? 4)%nat then (take remaining (LittleEndian.PutUint32 v), None)
      else
        let '(bs, r) := GetHashValue_words h' (remaining - 4) in
        (LittleEndian.PutUint32 v ++ bs, r)
  end.

(** Outer loop of [GetHashValue]: one compression per 64 bytes of output. *)
Fixpoint GetHashValue_loop (fuel : nat) (n : Node) (counter : Z) (remaining : nat) : list byte :=
  match fuel with
  | O => []
  | S fuel' =>
      if (0 <? remaining)%nat then
        let h := compress (chainingValue n) (m n) counter (blockSize n)
                          (Z.lor (flags n) flagRoot) in
        match GetHashValue_words h remaining with
        | (bs, None) => bs
        | (bs, Some r) => bs ++ GetHashValue_loop fuel' n (u64 (counter + 1)) r
        end
      else []
  end.

(** [n.GetHashValue(outputSizeBytes, b)]; [make] panics on a negative size. *)
Definition GetHashValue (n : Node) (outputSizeBytes : Z) (b : list byte) : option (list byte) :=
  if outputSizeBytes <? 0 then None
  else
    let out := Z.to_nat outputSizeBytes in
    Some (b ++ GetHashValue_loop (S (out / 64)) n 0 out).

(** *** ChainingValueStack

    The slice [stack] is kept with its last element (the top of the
    stack) at the head of the list. *)

Record ChainingValueStack := mkStack {
  stack : list (list Z);
  totalNodes : Z            (* uint64 *)
}.

Definition NewChainingValueStack : ChainingValueStack := mkStack [] 0.

(** The loop of [AppendNode]: while the lowest bit of [totalNodes] is
    set, pop the top of the stack and merge it.  Popping from an empty
    stack is an index out of range. *)
Fixpoint AppendNode_loop (stack : list (list Z)) (totalNodes : Z) (chainingValue : list Z)
  : option (list (list Z) * list Z) :=
  if Z.land totalNodes 1 =? 0 then Some (stack, chainingValue)
  else
    match stack with
    | [] => None
    | top :: rest =>
        let m := concatenate top chainingValue in
        AppendNode_loop rest (Z.shiftr totalNodes 1)
          (truncate (compress iv m 0 maximumBlockSize flagParent))
    end.

Definition AppendNode (s : ChainingValueStack) (n : Node) : option ChainingValueStack :=
  let chainingValue :=
    truncate (compress (chainingValue n) (m n) 0 (blockSize n) (flags n)) in
  match AppendNode_loop (stack s) (totalNodes s) chainingValue with
  | None => None
  | Some (stack', chainingValue) =>
      Some (mkStack (chainingValue :: stack') (u64 (totalNodes s + 1)))
  end.

(** The loop of [GetRootNode], from the top of the stack downwards. *)
Fixpoint GetRootNode_loop (stack : list (list Z)) (n : Node) : Node :=
  match stack with
  | [] => n
  | si :: rest =>
      let v := truncate (compress (chainingValue n) (m n) 0 (blockSize n) (flags n)) in
      GetRootNode_loop rest (NewParentNode (concatenate si v))
  end.

Definition GetRootNode (s : ChainingValueStack) (lastNode : Node) : Node :=
  GetRootNode_loop (stack s) lastNode.

(** *** ChunkParser *)

Record ChunkParser := mkParser {
  block : list byte;              (* [maximumBlockSize]byte *)
  p_blockSize : Z;                (* uint32 *)
  blocksRemaining : Z;
  chunkChainingValue : list Z;
  chunkStart : bool;
  chainingValueStack : ChainingValueStack
}.

Definition NewChunkParser : ChunkParser :=
  mkParser (replicate 64 x00) 0 maximumBlocksPerChunk iv true NewChainingValueStack.

(** Sixteen little endian words out of the 64 byte block. *)
Definition getBlock (p : ChunkParser) : option (list Z) :=
  mapM (fun i : nat => LittleEndian.Uint32 (drop (i * 4) (block p))) (seq 0 16).

Fixpoint Write_loop (fuel : nat) (p : ChunkParser) (b : list byte) : option ChunkParser :=
  match fuel with
  | O => None
  | S fuel' =>
      (* Store more data within the current 64 byte block. *)
      let '(blk, n) := copy (block p) (Z.to_nat (p_blockSize p)) b in
      let b := drop n b in
      let p := mkParser blk (u32 (p_blockSize p + u32 (Z.of_nat n))) (blocksRemaining p)
                        (chunkChainingValue p) (chunkStart p) (chainingValueStack p) in
      match b with
      | [] => Some p
      | _ =>
          (* Current 64 byte block is complete. *)
          match getBlock p with
          | None => None
          | Some m =>
              if blocksRemaining p =? 1 then
                let n := NewChunkNode (chunkChainingValue p) m maximumBlockSize false in
                match AppendNode (chainingValueStack p) n with
                | None => None
                | Some s =>
                    Write_loop fuel'
                      (mkParser blk 0 maximumBlocksPerChunk iv true s) b
                end
              else
                let chunkFlags := 0 in
                let chunkFlags :=
                  if chunkStart p then Z.lor chunkFlags flagChunkStart else chunkFlags in
                Write_loop fuel'
                  (mkParser blk 0 (blocksRemaining p - 1)
                     (truncate (compress (chunkChainingValue p) m 0 maximumBlockSize chunkFlags))
                     false (chainingValueStack p)) b
          end
      end
  end.

(** [p.Write(b)]. The loop runs at most once per byte of [b], plus once. *)
Definition Write (p : ChunkParser) (b : list byte) : option ChunkParser :=
  Write_loop (S (length b)) p b.

(** [p.GetRootNode()]; pads the final block with zeroes first. *)
Definition ChunkParser_GetRootNode (p : ChunkParser) : option (ChunkParser * Node) :=
  let bs := Z.to_nat (p_blockSize p) in
  let blk := take bs (block p) ++ replicate (Z.to_nat maximumBlockSize - bs) x00 in
  let p := mkParser blk (p_blockSize p) (blocksRemaining p)
                    (chunkChainingValue p) (chunkStart p) (chainingValueStack p) in
  match getBlock p with
  | None => None
  | Some m =>
      let n := NewChunkNode (chunkChainingValue p) m (p_blockSize p) (chunkStart p) in
      Some (p, GetRootNode (chainingValueStack p) n)
  end.

End blake3zcc.

(** ** encoding/hex *)

Module hex.

Definition hextable : list ascii := list_ascii_of_string "0123456789abcdef".

Definition digit (x : Z) : ascii := nth (Z.to_nat x) hextable "0"%char.

Definition EncodeToString (src : list byte) : list ascii :=
  flat_map (fun b => [digit (Z.shiftr (byte_to_Z b) 4);
                      digit (Z.land (byte_to_Z b) 0x0f)]) src.

(** [reverseHexTable]: the value of a hexadecimal digit of either
    case, [None] for every other byte. *)
Definition fromHexChar (c : ascii) : option Z :=
  let n := Z.of_nat (nat_of_ascii c) in
  if (48 <=? n) && (n <=? 57) then Some (n - 48)
  else if (97 <=? n) && (n <=? 102) then Some (n - 97 + 10)
  else if (65 <=? n) && (n <=? 70) then Some (n - 65 + 10)
  else None.

(** [DecodeString(s)], with [None] for an error ([InvalidByteError]
    or [ErrLength]). *)
Fixpoint DecodeString (s : list ascii) : option (list byte) :=
  match s with
  | [] => Some []
  | [_] => None
  | p :: q :: s' =>
      match fromHexChar p, fromHexChar q with
      | Some a, Some b =>
          match DecodeString s' with
          | Some bs => Some (byte_of_Z (Z.lor (Z.shiftl a 4) b) :: bs)
          | None => None
          end
      | _, _ => None
      end
  end.

End hex.

(** ** Errors: gRPC status codes and [io.EOF]

    A message is kept as its format string and arguments, unrendered. *)

Inductive Code := InvalidArgument | NotFound | Internal | ResourceExhausted | Unauthenticated.

Inductive Arg :=
| ArgInt (x : Z)
| ArgStr (s : list ascii)
| ArgRuneAt (s : list ascii) (byteOffset : nat).

Inductive Message :=
| Errorf (format : string) (args : list Arg)
| Wrapf (format : string) (args : list Arg) (inner : Message).

Inductive error :=
| EOF
| Status (code : Code) (msg : Message).

(** [status.Code(err)]; anything that is not a status is [Unknown],
    here [None]. *)
Definition status_Code (e : error) : option Code :=
  match e with
  | EOF => None
  | Status c _ => Some c
  end.

(** [util.StatusWrapf]: keeps the code and prefixes the message. *)
Definition StatusWrapf (e : error) (format : string) (args : list Arg) : error :=
  match e with
  | EOF => EOF
  | Status c msg => Status c (Wrapf format args msg)
  end.

(** ** strings and fmt *)

Definition s2l : string -> list ascii := list_ascii_of_string.

Definition ascii_eqb (a b : ascii) : bool := Ascii.eqb a b.

Fixpoint HasPrefix (s prefix : list ascii) : bool :=
  match prefix, s with
  | [], _ => true
  | p :: prefix', c :: s' => ascii_eqb p c && HasPrefix s' prefix'
  | _ :: _, [] => false
  end.

Definition digit_char (x : Z) : ascii := ascii_of_nat (48 + Z.to_nat x).

(** Decimal digits of a non-negative number, most significant first. *)
Fixpoint FormatUint_loop (fuel : nat) (x : Z) (acc : list ascii) : list ascii :=
  match fuel with
  | O => acc
  | S fuel' =>
      let acc := digit_char (x mod 10) :: acc in
      if x <? 10 then acc else FormatUint_loop fuel' (x / 10) acc
  end.

(** The verb [%d] applied to an int64 (at most 19 digits). *)
Definition FormatInt (x : Z) : list ascii :=
  if x <? 0 then "-"%char :: FormatUint_loop 20 (- x) []
  else FormatUint_loop 20 x [].

(** [fmt.Sprintf("%s-%d-%s", a, n, b)]. *)
Definition Sprintf_s_d_s (a : list ascii) (n : Z) (b : list ascii) : list ascii :=
  a ++ "-"%char :: FormatInt n ++ "-"%char :: b.

(** ** Package digest *)

Module digest.

Import blake3zcc.

(** *** Marshaling of BLAKE3ZCC Merkle tree nodes *)

Definition blake3zccChunkNodeSizeBytes : Z := 97.
Definition blake3zccParentNodeSizeBytes : Z := 64.

(** Read [n] consecutive little endian words from the front of [entry]. *)
Fixpoint unmarshal_words (n : nat) (entry : list byte) : option (list Z * list byte) :=
  match n with
  | O => Some ([], entry)
  | S n' =>
      match LittleEndian.Uint32 entry with
      | None => None
      | Some w =>
          match unmarshal_words n' (drop 4 entry) with
          | None => None
          | Some (ws, rest) => Some (w :: ws, rest)
          end
      end
  end.

Definition unmarshalBLAKE3ZCCChunkNode (entry : list byte) : option Node :=
  match unmarshal_words 8 entry with
  | None => None
  | Some (chainingValue, entry) =>
      match unmarshal_words 16 entry with
      | None => None
      | Some (m, entry) =>
          match entry with
          | [] => None
          | e0 :: _ =>
              let blockSizeBytes := Z.land (byte_to_Z e0) (Z.lnot 0x80 mod 2 ^ 8) in
              let chunkStart := negb (Z.land (byte_to_Z e0) 0x80 =? 0) in
              Some (NewChunkNode chainingValue m blockSizeBytes chunkStart)
          end
      end
  end.

(** Store [bytes] over the front of [entry]; too short an [entry] is
    an index out of range. *)
Definition store (bytes entry : list byte) : option (list byte) :=
  if (length entry <? length bytes)%nat then None
  else Some (bytes ++ drop (length bytes) entry).

Definition marshalBLAKE3ZCCChunkNode (n : Node) (entry : list byte) : option (list byte) :=
  match GetChunkData n with
  | None => None
  | Some (chainingValue, m, blockSize, chunkStart) =>
      let e0 := u8 (Z.land blockSize (Z.lnot 0x80 mod 2 ^ 32)) in
      let e0 := if chunkStart then Z.lor e0 0x80 else e0 in
      store (flat_map LittleEndian.PutUint32 chainingValue
             ++ flat_map LittleEndian.PutUint32 m
             ++ [byte_of_Z e0]) entry
  end.

Definition unmarshalBLAKE3ZCCParentNode (entry : list byte) : option Node :=
  match unmarshal_words 16 entry with
  | None => None
  | Some (m, _) => Some (NewParentNode m)
  end.

Definition marshalBLAKE3ZCCParentNode (n : Node) (entry : list byte) : option (list byte) :=
  match GetParentData n with
  | None => None
  | Some m => store (flat_map LittleEndian.PutUint32 m) entry
  end.

(** *** Digest *)

Record Digest := mkDigest { value : list ascii }.

Definition BadDigest : Digest := mkDigest [].

(** First index at or after [i] that holds a ['-'], scanning [s] which
    starts at index [i]; running off the end is an index out of range. *)
Fixpoint unpack_hash (s : list ascii) (i : nat) : option nat :=
  match s with
  | [] => None
  | c :: s' => if ascii_eqb c "-" then Some i else unpack_hash s' (S i)
  end.

Fixpoint unpack_size (s : list ascii) (sizeBytes : Z) (i : nat) : option (Z * nat) :=
  match s with
  | [] => None
  | c :: s' =>
      if ascii_eqb c "-" then Some (sizeBytes, i)
      else unpack_size s'
             (i64 (sizeBytes * 10 + u8 (Z.of_nat (nat_of_ascii c) - 48))) (S i)
  end.

(** [d.unpack()]: the end of the hash, the size, and the end of the size. *)
Definition unpack (d : Digest) : option (nat * Z * nat) :=
  match unpack_hash (drop 32 (value d)) 32 with
  | None => None
  | Some hashEnd =>
      match unpack_size (drop (hashEnd + 1) (value d)) 0 (hashEnd + 1) with
      | None => None
      | Some (sizeBytes, sizeBytesEnd) => Some (hashEnd, sizeBytes, sizeBytesEnd)
      end
  end.

Definition newDigestUnchecked (instance hash : list ascii) (sizeBytes : Z) : Digest :=
  mkDigest (Sprintf_s_d_s hash sizeBytes instance).

Definition newDigestBLAKE3ZCC (instance hash : list ascii) (sizeBytes : Z) : Digest + error :=
  if sizeBytes <? 0 then
    inr (Status InvalidArgument (Errorf "Invalid digest size: %d bytes" [ArgInt sizeBytes]))
  else
    (* TODO: Validate hash! *)
    inl (mkDigest (s2l "B3Z:" ++ Sprintf_s_d_s hash sizeBytes instance)).

Definition newDigestBLAKE3ZCCManifest (instance hash : list ascii) (sizeBytes : Z) : Digest + error :=
  if sizeBytes <? 0 then
    inr (Status InvalidArgument (Errorf "Invalid digest size: %d bytes" [ArgInt sizeBytes]))
  else
    (* TODO: Validate hash! *)
    inl (mkDigest (s2l "B3ZM:" ++ Sprintf_s_d_s hash sizeBytes instance)).

(** Sizes of the standard library hashes, in bytes. *)
Definition md5_Size : nat := 16.
Definition sha1_Size : nat := 20.
Definition sha256_Size : nat := 32.
Definition sha512_Size384 : nat := 48.
Definition sha512_Size : nat := 64.

Definition is_lower_hex (c : ascii) : bool :=
  let n := nat_of_ascii c in
  negb (((n <? 48) || (57 <? n)) && ((n <? 97) || (102 <? n)))%nat.

(** Byte offset of the first character that is not lower case
    hexadecimal.  (A multi-byte rune is rejected at its first byte.) *)
Fixpoint find_non_hex (s : list ascii) (i : nat) : option nat :=
  match s with
  | [] => None
  | c :: s' => if is_lower_hex c then find_non_hex s' (S i) else Some i
  end.

Definition newDigestOther (instance hash : list ascii) (sizeBytes : Z) : Digest + error :=
  if sizeBytes <? 0 then
    inr (Status InvalidArgument (Errorf "Invalid digest size: %d bytes" [ArgInt sizeBytes]))
  else
    let l := length hash in
    if negb (l =? md5_Size * 2)%nat && negb (l =? sha1_Size * 2)%nat
       && negb (l =? sha256_Size * 2)%nat && negb (l =? sha512_Size384 * 2)%nat
       && negb (l =? sha512_Size * 2)%nat then
      inr (Status InvalidArgument
             (Errorf "Unknown digest hash length: %d characters" [ArgInt (Z.of_nat l)]))
    else
      match find_non_hex hash 0 with
      | Some i =>
          inr (Status InvalidArgument
                 (Errorf "Non-hexadecimal character in digest hash: %#U" [ArgRuneAt hash i]))
      | None => inl (newDigestUnchecked instance hash sizeBytes)
      end.

Definition NewDigest (instance hash : list ascii) (sizeBytes : Z) : Digest + error :=
  if HasPrefix hash (s2l "B3Z:") then
    newDigestBLAKE3ZCC instance (drop 4 hash) sizeBytes
  else if HasPrefix hash (s2l "B3ZM:") then
    newDigestBLAKE3ZCCManifest instance (drop 5 hash) sizeBytes
  else newDigestOther instance hash sizeBytes.

(** [MustNewDigest] panics where [NewDigest] fails. *)
Definition MustNewDigest (instance hash : list ascii) (sizeBytes : Z) : option Digest :=
  match NewDigest instance hash sizeBytes with
  | inl d => Some d
  | inr _ => None
  end.

Definition GetInstance (d : Digest) : option (list ascii) :=
  match unpack d with
  | None => None
  | Some (_, _, sizeBytesEnd) => Some (drop (sizeBytesEnd + 1) (value d))
  end.

Definition GetHashString (d : Digest) : option (list ascii) :=
  match unpack d with
  | None => None
  | Some (hashEnd, _, _) => Some (take hashEnd (value d))
  end.

Definition GetSizeBytes (d : Digest) : option Z :=
  match unpack d with
  | None => None
  | Some (_, sizeBytes, _) => Some sizeBytes
  end.

Inductive KeyFormat := KeyWithoutInstance | KeyWithInstance.

Definition GetKey (d : Digest) (format : KeyFormat) : option (list ascii) :=
  match format with
  | KeyWithoutInstance =>
      match unpack d with
      | None => None
      | Some (_, _, sizeBytesEnd) => Some (take sizeBytesEnd (value d))
      end
  | KeyWithInstance => Some (value d)
  end.

Definition Digest_String (d : Digest) : option (list ascii) := GetKey d KeyWithInstance.

(** *** Digests of the Remote Execution protocol *)

(** [remoteexecution.Digest]: the hash is in one of three fields. *)
Record PartialDigest := mkPartialDigest {
  HashBlake3Zcc : list byte;
  HashBlake3ZccManifest : list byte;
  HashOther : list ascii;
  SizeBytes : Z
}.

(** [None] is the nil pointer. *)
Definition NewDigestFromPartialDigest (instance : list ascii)
    (partialDigest : option PartialDigest) : Digest + error :=
  match partialDigest with
  | None => inr (Status InvalidArgument (Errorf "No digest provided" []))
  | Some partialDigest =>
      if (0 <? length (HashBlake3Zcc partialDigest))%nat then
        newDigestBLAKE3ZCC instance (hex.EncodeToString (HashBlake3Zcc partialDigest))
                           (SizeBytes partialDigest)
      else if (0 <? length (HashBlake3ZccManifest partialDigest))%nat then
        newDigestBLAKE3ZCCManifest instance
          (hex.EncodeToString (HashBlake3ZccManifest partialDigest))
          (SizeBytes partialDigest)
      else newDigestOther instance (HashOther partialDigest) (SizeBytes partialDigest)
  end.

(** [None] is a panic of [GetInstance]. *)
Definition NewDerivedDigest (d : Digest) (partialDigest : option PartialDigest)
  : option (Digest + error) :=
  (* TODO(edsch): Check whether the resulting digest uses the same
     hashing algorithm? *)
  match GetInstance d with
  | None => None
  | Some instance => Some (NewDigestFromPartialDigest instance partialDigest)
  end.

Definition GetPartialDigest (d : Digest) : option PartialDigest :=
  match unpack d with
  | None => None
  | Some (hashEnd, sizeBytes, _) =>
      let hash := take hashEnd (value d) in
      if HasPrefix hash (s2l "B3Z:") then
        match hex.DecodeString (drop 4 hash) with
        | None => None (* panic("Failed to decode malformed BLAKE3ZCC hash") *)
        | Some hashBytes => Some (mkPartialDigest hashBytes [] [] sizeBytes)
        end
      else if HasPrefix hash (s2l "B3ZM:") then
        match hex.DecodeString (drop 5 hash) with
        | None => None
        | Some hashBytes => Some (mkPartialDigest [] hashBytes [] sizeBytes)
        end
      else Some (mkPartialDigest [] [] hash sizeBytes)
  end.

Definition GetHashBytes (d : Digest) : option (list byte) :=
  match GetHashString d with
  | None => None
  | Some hashString =>
      let hashString :=
        if HasPrefix hashString (s2l "B3Z:") then drop 4 hashString else hashString in
      let hashString :=
        if HasPrefix hashString (s2l "B3ZM:") then drop 5 hashString else hashString in
      hex.DecodeString hashString
  end.

(** Unsigned 64 bit arithmetic; a zero divisor panics. *)
Definition convertSizeToBlockCount (blobSizeBytes blockSizeBytes : Z) : option Z :=
  if u64 blockSizeBytes =? 0 then None
  else Some (i64 (u64 (u64 (u64 blobSizeBytes + u64 blockSizeBytes) - 1)
                  / u64 blockSizeBytes)).

(** *** Manifest parser *)

Record blake3zccManifestParser := mkParser {
  instance : list ascii;
  blobSizeBytes : Z;
  blockSizeBytes : Z;
  hashSizeBytes : Z
}.

Definition newBLAKE3ZCCManifestParser (instance : list ascii)
    (blobSizeBytes blockSizeBytes hashSizeBytes : Z) : blake3zccManifestParser :=
  mkParser instance blobSizeBytes blockSizeBytes hashSizeBytes.

Definition convertNodeToDigest (mp : blake3zccManifestParser) (n : Node) (blockSizeBytes : Z)
  : option Digest :=
  match GetHashValue n (hashSizeBytes mp) [] with
  | None => None
  | Some h =>
      Some (mkDigest (s2l "B3Z:" ++
                      Sprintf_s_d_s (hex.EncodeToString h) blockSizeBytes (instance mp)))
  end.

Definition GetBlockDigest (mp : blake3zccManifestParser) (manifest : list byte) (off : Z)
  : option (Digest * Z) :=
  (* Determine block number of and size of the block. *)
  if blockSizeBytes mp =? 0 then None
  else
    let block := i64 (Z.quot off (blockSizeBytes mp)) in
    match convertSizeToBlockCount (blobSizeBytes mp) (blockSizeBytes mp) with
    | None => None
    | Some count =>
        let blockSize :=
          if block =? i64 (count - 1)
          then Z.rem (blobSizeBytes mp) (blockSizeBytes mp)
          else blockSizeBytes mp in
        (* Extract the Merkle tree node from the manifest. *)
        let low := i64 (block * blake3zccParentNodeSizeBytes) in
        if (low <? 0) || (Z.of_nat (length manifest) <? low) then None
        else
          let entry := drop (Z.to_nat low) manifest in
          let n :=
            if blockSize <=? 1024 then unmarshalBLAKE3ZCCChunkNode entry
            else unmarshalBLAKE3ZCCParentNode entry in
          match n with
          | None => None
          | Some n =>
              match convertNodeToDigest mp n blockSize with
              | None => None
              | Some d => Some (d, i64 (block * blockSizeBytes mp))
              end
          end
    end.

(** Returns the extended manifest and the digest of the block. *)
Definition AppendBlockDigest (mp : blake3zccManifestParser) (manifest block : list byte)
  : option (list byte * Digest) :=
  (* Compute the Merkle tree node for the block. *)
  match Write NewChunkParser block with
  | None => None
  | Some c =>
      match ChunkParser_GetRootNode c with
      | None => None
      | Some (_, n) =>
          (* Append the Merkle tree node to the manifest in binary form. *)
          let entry :=
            if (length block <=? 1024)%nat then
              marshalBLAKE3ZCCChunkNode n
                (replicate (Z.to_nat blake3zccChunkNodeSizeBytes) x00)
            else
              marshalBLAKE3ZCCParentNode n
                (replicate (Z.to_nat blake3zccParentNodeSizeBytes) x00) in
          match entry with
          | None => None
          | Some entry =>
              match convertNodeToDigest mp n (Z.of_nat (length block)) with
              | None => None
              | Some d => Some (manifest ++ entry, d)
              end
          end
      end
  end.

(** [d.ToManifest(blockSizeBytes)]: [None] is a panic, [Some None] is
    [ok = false]. *)
Definition ToManifest (d : Digest) (blockSizeBytes : Z)
  : option (option (Digest * blake3zccManifestParser)) :=
  if negb (HasPrefix (value d) (s2l "B3Z:")) then Some None
  else
    (* TODO: Check that blockSizeBytes is valid! *)
    match unpack d with
    | None => None
    | Some (hashEnd, sizeBytes, sizeBytesEnd) =>
        if sizeBytes <=? blockSizeBytes then Some None
        else
          match convertSizeToBlockCount sizeBytes blockSizeBytes with
          | None => None
          | Some count =>
              let manifestSizeBytes := i64 (count * blake3zccParentNodeSizeBytes) in
              let lastBlockSizeBytes := Z.rem sizeBytes blockSizeBytes in
              let manifestSizeBytes :=
                if (0 <? lastBlockSizeBytes) && (lastBlockSizeBytes <=? 1024) then
                  i64 (manifestSizeBytes
                       + (blake3zccChunkNodeSizeBytes - blake3zccParentNodeSizeBytes))
                else manifestSizeBytes in
              let hash := drop 4 (take hashEnd (value d)) in
              let instance := drop (sizeBytesEnd + 1) (value d) in
              Some (Some
                (mkDigest (s2l "B3ZM:" ++ Sprintf_s_d_s hash manifestSizeBytes instance),
                 newBLAKE3ZCCManifestParser instance sizeBytes blockSizeBytes
                   (Z.of_nat (length hash) / 2)))
          end
    end.

(** *** BLAKE3ZCC blob hasher *)

Record blake3zccBlobHasher := mkBlobHasher {
  bh_p : ChunkParser;
  bh_outputSizeBytes : Z
}.

Definition newBLAKE3ZCCBlobHasher (outputSizeBytes : Z) : blake3zccBlobHasher :=
  mkBlobHasher NewChunkParser outputSizeBytes.

Definition blake3zccBlobHasher_Write (h : blake3zccBlobHasher) (p : list byte)
  : option blake3zccBlobHasher :=
  match Write (bh_p h) p with
  | None => None
  | Some c => Some (mkBlobHasher c (bh_outputSizeBytes h))
  end.

Definition blake3zccBlobHasher_Sum (h : blake3zccBlobHasher) (b : list byte)
  : option (list byte) :=
  match ChunkParser_GetRootNode (bh_p h) with
  | None => None
  | Some (_, n) => GetHashValue n (bh_outputSizeBytes h) b
  end.

(** *** BLAKE3ZCC manifest hasher *)

Record blake3zccManifestHasher := mkManifestHasher {
  entry : list byte;                 (* [blake3zccChunkNodeSizeBytes]byte *)
  entrySize : Z;
  mh_chainingValueStack : ChainingValueStack;
  mh_outputSizeBytes : Z
}.

Definition newBLAKE3ZCCManifestHasher (outputSizeBytes : Z) : blake3zccManifestHasher :=
  mkManifestHasher (replicate (Z.to_nat blake3zccChunkNodeSizeBytes) x00) 0
                   NewChainingValueStack outputSizeBytes.

Fixpoint blake3zccManifestHasher_Write_loop (fuel : nat) (h : blake3zccManifestHasher)
    (p : list byte) : option blake3zccManifestHasher :=
  match fuel with
  | O => None
  | S fuel' =>
      (* Copy more data from the input into an internal buffer. *)
      let '(e, n) := copy (entry h) (Z.to_nat (entrySize h)) p in
      let p := drop n p in
      let h := mkManifestHasher e (entrySize h + Z.of_nat n)
                                (mh_chainingValueStack h) (mh_outputSizeBytes h) in
      match p with
      | [] => Some h
      | _ =>
          (* The input must at this location contain a parent node. Ingest it. *)
          match unmarshalBLAKE3ZCCParentNode (entry h) with
          | None => None
          | Some node =>
              match AppendNode (mh_chainingValueStack h) node with
              | None => None
              | Some s =>
                  (* Remove the ingested parent node from the input buffer. *)
                  let '(e, _) :=
                    copy (entry h) 0
                         (drop (Z.to_nat blake3zccParentNodeSizeBytes) (entry h)) in
                  blake3zccManifestHasher_Write_loop fuel'
                    (mkManifestHasher e
                       (blake3zccChunkNodeSizeBytes - blake3zccParentNodeSizeBytes)
                       s (mh_outputSizeBytes h))
                    p
              end
          end
      end
  end.

Definition blake3zccManifestHasher_Write (h : blake3zccManifestHasher) (p : list byte)
  : option blake3zccManifestHasher :=
  blake3zccManifestHasher_Write_loop (S (length p)) h p.

Definition blake3zccManifestHasher_Sum (h : blake3zccManifestHasher) (b : list byte)
  : option (list byte) :=
  let lastNode :=
    if entrySize h =? blake3zccChunkNodeSizeBytes then
      (* Input ends with a chunk node. *)
      unmarshalBLAKE3ZCCChunkNode (entry h)
    else if entrySize h =? blake3zccParentNodeSizeBytes then
      (* Input ends with a parent node. *)
      unmarshalBLAKE3ZCCParentNode (entry h)
    else
      (* panic("Manifest has invalid size") *)
      None in
  match lastNode with
  | None => None
  | Some lastNode =>
      let rootNode := GetRootNode (mh_chainingValueStack h) lastNode in
      GetHashValue rootNode (mh_outputSizeBytes h) b
  end.

(** *** hash.Hash, NewHasher and Generator

    The hashes of the Go standard library are taken as a parameter
    [std_sum]: the checksum of everything written so far. *)

Inductive StdAlgorithm := MD5 | SHA1 | SHA256 | SHA384 | SHA512.

Inductive Hash :=
| BlobHasher (h : blake3zccBlobHasher)
| ManifestHasher (h : blake3zccManifestHasher)
| StdHasher (a : StdAlgorithm) (written : list byte).

Record Generator := mkGenerator {
  g_instance : list ascii;
  partialHash : Hash;
  g_sizeBytes : Z
}.

Section Hashing.

Variable std_sum : StdAlgorithm -> list byte -> list byte.

Definition Hash_Write (h : Hash) (p : list byte) : option Hash :=
  match h with
  | BlobHasher h => option_map BlobHasher (blake3zccBlobHasher_Write h p)
  | ManifestHasher h => option_map ManifestHasher (blake3zccManifestHasher_Write h p)
  | StdHasher a written => Some (StdHasher a (written ++ p))
  end.

Definition Hash_Sum (h : Hash) (b : list byte) : option (list byte) :=
  match h with
  | BlobHasher h => blake3zccBlobHasher_Sum h b
  | ManifestHasher h => blake3zccManifestHasher_Sum h b
  | StdHasher a written => Some (b ++ std_sum a written)
  end.

Definition NewHasher (d : Digest) : option Hash :=
  match GetHashString d with
  | None => None
  | Some hash =>
      if HasPrefix hash (s2l "B3Z:") then
        Some (BlobHasher
                (newBLAKE3ZCCBlobHasher (Z.of_nat (length (drop 4 hash)) / 2)))
      else if HasPrefix hash (s2l "B3ZM:") then
        Some (ManifestHasher
                (newBLAKE3ZCCManifestHasher (Z.of_nat (length (drop 5 hash)) / 2)))
      else
        let l := length hash in
        if (l =? md5_Size * 2)%nat then Some (StdHasher MD5 [])
        else if (l =? sha1_Size * 2)%nat then Some (StdHasher SHA1 [])
        else if (l =? sha256_Size * 2)%nat then Some (StdHasher SHA256 [])
        else if (l =? sha512_Size384 * 2)%nat then Some (StdHasher SHA384 [])
        else if (l =? sha512_Size * 2)%nat then Some (StdHasher SHA512 [])
        else None (* panic("Digest hash is of unknown type") *)
  end.

Definition NewGenerator (d : Digest) : option Generator :=
  match GetInstance d with
  | None => None
  | Some instance =>
      match NewHasher d with
      | None => None
      | Some h => Some (mkGenerator instance h 0)
      end
  end.

Definition Generator_Write (dg : Generator) (p : list byte) : option Generator :=
  match Hash_Write (partialHash dg) p with
  | None => None
  | Some h =>
      Some (mkGenerator (g_instance dg) h (i64 (g_sizeBytes dg + Z.of_nat (length p))))
  end.

Definition Generator_Sum (dg : Generator) : option Digest :=
  match Hash_Sum (partialHash dg) [] with
  | None => None
  | Some sum =>
      Some (newDigestUnchecked (g_instance dg) (hex.EncodeToString sum) (g_sizeBytes dg))
  end.

End Hashing.

End digest.

Global Instance Digest_eq_dec : EqDecision digest.Digest.
Proof. solve_decision. Defined.

Global Instance Digest_countable : Countable digest.Digest :=
  inj_countable' digest.value digest.mkDigest (fun d => match d with digest.mkDigest _ => eq_refl end).

(** ** Computations over the state of the backing store

    [W] is the state of the world the backing store lives in.  [None] is
    a call that does not return: a panic, or a loop that ran out of fuel. *)

Definition M (W A : Type) : Type := W -> option (A * W).

Definition ret {W A} (a : A) : M W A := fun w => Some (a, w).

Definition bind {W A B} (m : M W A) (k : A -> M W B) : M W B :=
  fun w => match m w with
           | None => None
           | Some (a, w') => k a w'
           end.

Definition lift {W A} (o : option A) : M W A :=
  fun w => match o with
           | None => None
           | Some a => Some (a, w)
           end.

Notation "x <- m ;; k" := (bind m (fun x => k))
  (at level 20, m at level 99, k at level 200, only parsing).
Notation "' pat <- m ;; k" := (bind m (fun x => match x with pat => k end))
  (at level 20, pat pattern, m at level 99, k at level 200, only parsing).

(** ** Package buffer *)

Module buffer.

Import digest.

(** *** ChunkPolicy *)

Record ChunkPolicy := mkChunkPolicy {
  minimumSizeBytes : Z;
  defaultSizeBytes : Z;
  maximumSizeBytes : Z
}.

Definition chunkSizeDontCare : ChunkPolicy :=
  mkChunkPolicy 1 (64 * 1024) (Z.shiftr (2 ^ 64 - 1) 1).

Definition ChunkSizeExactly (sizeBytes : Z) : ChunkPolicy :=
  mkChunkPolicy sizeBytes sizeBytes sizeBytes.

Definition ChunkSizeAtMost (sizeBytes : Z) : ChunkPolicy :=
  mkChunkPolicy 1 sizeBytes sizeBytes.

(** *** Buffers handed out by a backing store

    Modelled from the spec: the byte slice backed buffer
    ([NewValidatedBufferFromByteSlice]) and the error buffer
    ([NewBufferFromError]) are not part of the sources at hand.  A byte
    slice buffer holds its data and is not checksum validated; an error
    buffer fails every operation with its error. *)

Inductive Buffer :=
| validatedByteSliceBuffer (data : list byte)
| errorBuffer (err : error).

Definition NewValidatedBufferFromByteSlice (data : list byte) : Buffer :=
  validatedByteSliceBuffer data.

Definition NewBufferFromError (err : error) : Buffer := errorBuffer err.

(** Modelled from the spec: [validateReaderOffset], rejecting offsets
    outside of the buffer with [InvalidArgument]. *)
Definition validateReaderOffset (length offset : Z) : option error :=
  if offset <? 0 then
    Some (Status InvalidArgument (Errorf "Negative read offset: %d" [ArgInt offset]))
  else if length <? offset then
    Some (Status InvalidArgument
            (Errorf "Buffer is %d bytes in size, while a read at offset %d was requested"
                    [ArgInt length; ArgInt offset]))
  else None.

(** Modelled from the spec: [ReadAt] of the two buffers above, with
    the contract of [io.ReaderAt]; [p] is the length of the slice read
    into, the result holds the bytes copied. *)
Definition Buffer_ReadAt (b : Buffer) (p : nat) (off : Z) : list byte * option error :=
  match b with
  | validatedByteSliceBuffer data =>
      match validateReaderOffset (Z.of_nat (length data)) off with
      | Some err => ([], Some err)
      | None =>
          let bs := take p (drop (Z.to_nat off) data) in
          (bs, if (length bs <? p)%nat then Some EOF else None)
      end
  | errorBuffer err => ([], Some err)
  end.

(** Modelled from the spec: [ToByteSlice(maximumSizeBytes)]. *)
Definition Buffer_ToByteSlice (b : Buffer) (maximumSizeBytes : Z) : list byte + error :=
  match b with
  | validatedByteSliceBuffer data =>
      if maximumSizeBytes <? Z.of_nat (length data) then
        inr (Status InvalidArgument
               (Errorf "Buffer is %d bytes in size, while a maximum of %d bytes is permitted"
                       [ArgInt (Z.of_nat (length data)); ArgInt maximumSizeBytes]))
      else inl data
  | errorBuffer err => inr err
  end.

(** *** Chunk readers *)

(** Modelled from the spec: the reader under the normalizing decorator,
    which hands out what is left of a byte slice as one chunk, and the
    reader that fails with a fixed error. *)
Inductive ChunkReader :=
| byteSliceChunkReader (data : list byte)
| errorChunkReader (err : error).

Definition ChunkReader_Read (r : ChunkReader) : (list byte * option error) * ChunkReader :=
  match r with
  | byteSliceChunkReader [] => (([], Some EOF), r)
  | byteSliceChunkReader data => ((data, None), byteSliceChunkReader [])
  | errorChunkReader err => (([], Some err), r)
  end.

Record normalizingChunkReader := mkNormalizingChunkReader {
  r : ChunkReader;
  minimumChunkSizeBytes : Z;
  maximumChunkSizeBytes : Z;
  lastChunk : list byte;
  lastErr : option error
}.

Definition newNormalizingChunkReader (r : ChunkReader) (chunkPolicy : ChunkPolicy)
  : normalizingChunkReader :=
  mkNormalizingChunkReader r (minimumSizeBytes chunkPolicy) (maximumSizeBytes chunkPolicy)
                           [] None.

Definition readNextChunk (r : normalizingChunkReader)
  : (list byte * option error) * normalizingChunkReader :=
  match lastChunk r with
  | _ :: _ =>
      (* Leftover data from a previous call. *)
      ((lastChunk r, None),
       mkNormalizingChunkReader (buffer.r r) (minimumChunkSizeBytes r)
                                (maximumChunkSizeBytes r) [] (lastErr r))
  | [] =>
      match lastErr r with
      | Some err =>
          (* Stream is already in an error state. *)
          (([], Some err), r)
      | None =>
          let '((chunk, err), r') := ChunkReader_Read (buffer.r r) in
          ((chunk, err),
           mkNormalizingChunkReader r' (minimumChunkSizeBytes r)
                                    (maximumChunkSizeBytes r) (lastChunk r) err)
      end
  end.

(** The slow case of [readChunkWithMinimumSize]. *)
Fixpoint readChunkWithMinimumSize_loop (fuel : nat) (r : normalizingChunkReader)
    (fullChunk : list byte)
  : option ((list byte * option error) * normalizingChunkReader) :=
  match fuel with
  | O => None
  | S fuel' =>
      let '((chunk, err), r) := readNextChunk r in
      match err with
      | Some EOF =>
          match fullChunk with
          | _ :: _ =>
              (* Final chunk may be smaller than the minimum size limit. *)
              Some ((fullChunk, None), r)
          | [] => Some (([], Some EOF), r)
          end
      | Some err => Some (([], Some err), r)
      | None =>
          let fullChunk := fullChunk ++ chunk in
          if minimumChunkSizeBytes r <=? Z.of_nat (length fullChunk)
          then Some ((fullChunk, None), r)
          else readChunkWithMinimumSize_loop fuel' r fullChunk
      end
  end.

Definition readChunkWithMinimumSize (fuel : nat) (r : normalizingChunkReader)
  : option ((list byte * option error) * normalizingChunkReader) :=
  (* Fast case: stream returns a chunk that complies to our minimum
     size requirements. *)
  let '((chunk, err), r) := readNextChunk r in
  match err with
  | Some err => Some (([], Some err), r)
  | None =>
      if minimumChunkSizeBytes r <=? Z.of_nat (length chunk) then Some ((chunk, None), r)
      else
        (* Slow case: read multiple chunks and concatenate them into a
           single larger chunk. *)
        readChunkWithMinimumSize_loop fuel r chunk
  end.

Definition normalizingChunkReader_Read (fuel : nat) (r : normalizingChunkReader)
  : option ((list byte * option error) * normalizingChunkReader) :=
  match readChunkWithMinimumSize fuel r with
  | None => None
  | Some ((chunk, Some err), r) => Some (([], Some err), r)
  | Some ((chunk, None), r) =>
      if maximumChunkSizeBytes r <? Z.of_nat (length chunk) then
        (* Store excessive data for the next call. *)
        if maximumChunkSizeBytes r <? 0 then None
        else
          let n := Z.to_nat (maximumChunkSizeBytes r) in
          Some ((take n chunk, None),
                mkNormalizingChunkReader (buffer.r r) (minimumChunkSizeBytes r)
                                         (maximumChunkSizeBytes r) (drop n chunk) (lastErr r))
      else Some ((chunk, None), r)
  end.

(** Modelled from the spec: [ToChunkReader] of the buffers above. *)
Definition Buffer_ToChunkReader (b : Buffer) (off : Z) (chunkPolicy : ChunkPolicy)
  : normalizingChunkReader :=
  match b with
  | validatedByteSliceBuffer data =>
      match validateReaderOffset (Z.of_nat (length data)) off with
      | Some err => newNormalizingChunkReader (errorChunkReader err) chunkPolicy
      | None =>
          newNormalizingChunkReader (byteSliceChunkReader (drop (Z.to_nat off) data))
                                    chunkPolicy
      end
  | errorBuffer err => newNormalizingChunkReader (errorChunkReader err) chunkPolicy
  end.

(** *** The concatenating buffer *)

Section Concatenating.

Context {W SB : Type}.

(** [ReadAt] of the buffers the fetcher returns. *)
Variable SB_ReadAt : SB -> nat -> Z -> M W (list byte * option error).

Record casConcatenatingBuffer := mkCASConcatenatingBuffer {
  cb_digest : Digest;
  fetcher : Z -> M W (SB * Z)
}.

Definition NewCASConcatenatingBuffer (digest : Digest) (fetcher : Z -> M W (SB * Z))
  : casConcatenatingBuffer :=
  mkCASConcatenatingBuffer digest fetcher.

Definition casConcatenatingBuffer_GetSizeBytes (b : casConcatenatingBuffer) : option Z :=
  GetSizeBytes (cb_digest b).

(** The loop of [ReadAt]. [p] is what is left of the slice, [read]
    the bytes copied so far ([nTotal] is its length); [fuel] bounds
    the number of calls of the fetcher. *)
Fixpoint ReadAt_loop (fuel : nat) (b : casConcatenatingBuffer) (p : nat) (off : Z)
    (read : list byte) : M W (list byte * option error) :=
  size <- lift (GetSizeBytes (cb_digest b)) ;;
  if size <=? off then ret (read, Some EOF)
  else if (p =? 0)%nat then ret (read, None)
  else
    match fuel with
    | O => lift None
    | S fuel' =>
        (* Obtain a Buffer that is capable of providing more data. *)
        '(smallBuffer, smallBufferOffset) <- fetcher b off ;;
        '(bs, err) <- SB_ReadAt smallBuffer p (i64 (off - smallBufferOffset)) ;;
        let read := read ++ bs in
        match err with
        | Some (Status c msg) => ret (read, Some (Status c msg))
        | _ =>
            if (p <? length bs)%nat then lift None
            else ReadAt_loop fuel' b (p - length bs) (i64 (off + Z.of_nat (length bs))) read
        end
    end.

Definition casConcatenatingBuffer_ReadAt (fuel : nat) (b : casConcatenatingBuffer)
    (p : nat) (off : Z) : M W (list byte * option error) :=
  if off <? 0 then
    ret ([], Some (Status InvalidArgument (Errorf "Negative read offset: %d" [ArgInt off])))
  else ReadAt_loop fuel b p off [].

End Concatenating.

End buffer.

(** ** Package blobstore *)

Module blobstore.

Import digest buffer.

(** The backing store, as the interface [BlobAccess]. *)
Record BlobAccess (W : Type) := mkBlobAccess {
  Get : Digest -> M W Buffer;
  Put : Digest -> Buffer -> M W (option error);
  FindMissing : gset Digest -> M W (gset Digest + error)
}.
Arguments Get {W}.
Arguments Put {W}.
Arguments FindMissing {W}.

Record blobToCheck := mkBlobToCheck {
  blobDigest : Digest;
  manifestParser : blake3zccManifestParser
}.

(** What [decomposingBlobAccess.Get] returns: a buffer of the backing
    store, or a concatenating buffer over buffers of the backing store. *)
Inductive decomposedBuffer (W : Type) :=
| baseBuffer (b : Buffer)
| concatenatingBuffer (b : casConcatenatingBuffer (W := W) (SB := Buffer)).
Arguments baseBuffer {W}.
Arguments concatenatingBuffer {W}.

Section Decomposing.

Context {W : Type}.

Record decomposingBlobAccess := mkDecomposingBlobAccess {
  base : BlobAccess W;
  blockSizeBytes : Z;
  maximumManifestSizeBytes : Z
}.

Definition NewDecomposingBlobAccess (base : BlobAccess W)
    (blockSizeBytes maximumManifestSizeBytes : Z) : decomposingBlobAccess :=
  mkDecomposingBlobAccess base blockSizeBytes maximumManifestSizeBytes.

Variable ba : decomposingBlobAccess.

Definition decomposingBlobAccess_Get (digest : Digest) : M W (decomposedBuffer W) :=
  m <- lift (ToManifest digest (blockSizeBytes ba)) ;;
  match m with
  | Some (manifestDigest, manifestParser) =>
      (* Obtain the manifest from storage. *)
      b <- Get (base ba) manifestDigest ;;
      match Buffer_ToByteSlice b (maximumManifestSizeBytes ba) with
      | inr err =>
          ret (baseBuffer
                 (NewBufferFromError (StatusWrapf err "Failed to load manifest" [])))
      | inl manifest =>
          (* Return a Buffer that fetches individual blocks upon access. *)
          ret (concatenatingBuffer
                 (NewCASConcatenatingBuffer digest
                    (fun offset =>
                       '(blockDigest, blockOffset) <-
                         lift (GetBlockDigest manifestParser manifest offset) ;;
                       b <- Get (base ba) blockDigest ;;
                       ret (b, blockOffset))))
      end
  | None =>
      b <- Get (base ba) digest ;;
      ret (baseBuffer b)
  end.

(** The loop of [Put] over the blocks of the input. *)
Fixpoint Put_loop (fuel : nat) (manifestParser : blake3zccManifestParser)
    (r : normalizingChunkReader) (manifest : list byte) (offset : Z)
  : M W (list byte + error) :=
  match fuel with
  | O => lift None
  | S fuel' =>
      '((block, err), r) <- lift (normalizingChunkReader_Read fuel r) ;;
      match err with
      | Some EOF => ret (inl manifest)
      | Some err => ret (inr err)
      | None =>
          '(manifest, blockDigest) <-
            lift (AppendBlockDigest manifestParser manifest block) ;;
          err <- Put (base ba) blockDigest (NewValidatedBufferFromByteSlice block) ;;
          match err with
          | Some err =>
              ret (inr (StatusWrapf err
                          "Failed to store block at offset %d with digest %s"
                          [ArgInt offset; ArgStr (value blockDigest)]))
          | None =>
              Put_loop fuel' manifestParser r manifest
                       (i64 (offset + Z.of_nat (length block)))
          end
      end
  end.

Definition decomposingBlobAccess_Put (fuel : nat) (digest : Digest) (b : Buffer)
  : M W (option error) :=
  m <- lift (ToManifest digest (blockSizeBytes ba)) ;;
  match m with
  | Some (manifestDigest, manifestParser) =>
      (* Read from the input buffer one block at a time. *)
      let r := Buffer_ToChunkReader b 0 (ChunkSizeExactly (blockSizeBytes ba)) in
      manifestSizeBytes <- lift (GetSizeBytes manifestDigest) ;;
      if maximumManifestSizeBytes ba <? manifestSizeBytes then
        ret (Some (Status InvalidArgument
               (Errorf "Buffer requires a manifest that is %d bytes in size, while a maximum of %d bytes is permitted"
                       [ArgInt manifestSizeBytes; ArgInt (maximumManifestSizeBytes ba)])))
      else if manifestSizeBytes <? 0 then lift None (* make: cap out of range *)
      else
        (* Store each of the blocks in the CAS separately. *)
        res <- Put_loop fuel manifestParser r [] 0 ;;
        match res with
        | inr err => ret (Some err)
        | inl manifest =>
            (* Store the manifest that contains digests of all of the
               blocks in the CAS. *)
            err <- Put (base ba) manifestDigest (NewValidatedBufferFromByteSlice manifest) ;;
            match err with
            | Some err => ret (Some (StatusWrapf err "Failed to store manifest" []))
            | None => ret None
            end
        end
  | None => Put (base ba) digest b
  end.

(** *** FindMissing *)

Record findMissingQueue := mkFindMissingQueue {
  missingComposed : gset Digest;
  batchSize : Z;
  pending : gmap Digest (gset Digest)
}.

Definition add_pending (blockDigest blobDigest : Digest)
    (pending : gmap Digest (gset Digest)) : gmap Digest (gset Digest) :=
  <[blockDigest := {[blobDigest]} ∪ default ∅ (pending !! blockDigest)]> pending.

Definition findMissingQueue_finalize (q : findMissingQueue)
  : M W (findMissingQueue * option error) :=
  let blockDigests := dom (pending q) in
  res <- FindMissing (base ba) blockDigests ;;
  match res with
  | inr err => ret (q, Some err)
  | inl missingBlocks =>
      let missing :=
        fold_left
          (fun acc blockDigest => acc ∪ default ∅ (pending q !! blockDigest))
          (elements missingBlocks) (missingComposed q) in
      ret (mkFindMissingQueue missing (batchSize q) (pending q), None)
  end.

Definition findMissingQueue_add (q : findMissingQueue) (blockDigest blobDigest : Digest)
  : M W (findMissingQueue * option error) :=
  '(q, err) <-
    (if batchSize q <=? Z.of_nat (size (pending q)) then
       '(q, err) <- findMissingQueue_finalize q ;;
       match err with
       | Some err => ret (q, Some err)
       | None => ret (mkFindMissingQueue (missingComposed q) (batchSize q) ∅, None)
       end
     else ret (q, None)) ;;
  match err with
  | Some err => ret (q, Some err)
  | None =>
      ret (mkFindMissingQueue (missingComposed q) (batchSize q)
             (add_pending blockDigest blobDigest (pending q)), None)
  end.

(** First loop: replace all digests of composed objects with the
    ones of their manifest. *)
Fixpoint collect (items : list Digest)
    (summariesToCheck : gmap Digest (list blobToCheck)) (initialDigests : gset Digest)
  : option (gmap Digest (list blobToCheck) * gset Digest) :=
  match items with
  | [] => Some (summariesToCheck, initialDigests)
  | blobDigest :: items =>
      match ToManifest blobDigest (blockSizeBytes ba) with
      | None => None
      | Some (Some (manifestDigest, manifestParser)) =>
          collect items
            (<[manifestDigest :=
                 default [] (summariesToCheck !! manifestDigest)
                 ++ [mkBlobToCheck blobDigest manifestParser]]> summariesToCheck)
            ({[manifestDigest]} ∪ initialDigests)
      | Some None => collect items summariesToCheck ({[blobDigest]} ∪ initialDigests)
      end
  end.

(** Second loop: skip processing blobs of which the manifest is known
    to be absent. *)
Fixpoint skipMissing (items : list Digest)
    (summariesToCheck : gmap Digest (list blobToCheck)) (missingComposed : gset Digest)
  : gmap Digest (list blobToCheck) * gset Digest :=
  match items with
  | [] => (summariesToCheck, missingComposed)
  | manifestDigest :: items =>
      skipMissing items (delete manifestDigest summariesToCheck)
        (list_to_set (map blobDigest (default [] (summariesToCheck !! manifestDigest)))
         ∪ missingComposed)
  end.

(** The blocks of one blob: [for currentOffset < sizeBytes]. *)
Fixpoint checkBlocks (fuel : nat) (q : findMissingQueue) (manifest : list byte)
    (blobToCheck : blobToCheck) (sizeBytes currentOffset : Z)
  : M W (findMissingQueue * option error) :=
  if currentOffset <? sizeBytes then
    match fuel with
    | O => lift None
    | S fuel' =>
        '(blockDigest, blockOffset) <-
          lift (GetBlockDigest (manifestParser blobToCheck) manifest currentOffset) ;;
        '(q, err) <- findMissingQueue_add q blockDigest (blobDigest blobToCheck) ;;
        match err with
        | Some err => ret (q, Some err)
        | None =>
            blockSize <- lift (GetSizeBytes blockDigest) ;;
            checkBlocks fuel' q manifest blobToCheck sizeBytes
                        (i64 (blockOffset + blockSize))
        end
    end
  else ret (q, None).

Fixpoint checkBlobs (fuel : nat) (q : findMissingQueue) (manifest : list byte)
    (blobsToCheck : list blobToCheck) : M W (findMissingQueue * option error) :=
  match blobsToCheck with
  | [] => ret (q, None)
  | blobToCheck :: blobsToCheck =>
      sizeBytes <- lift (GetSizeBytes (blobDigest blobToCheck)) ;;
      '(q, err) <- checkBlocks fuel q manifest blobToCheck sizeBytes 0 ;;
      match err with
      | Some err => ret (q, Some err)
      | None => checkBlobs fuel q manifest blobsToCheck
      end
  end.

(** The body of the third loop: load one manifest that was reported
    present and queue its blocks. *)
Definition checkManifest (fuel : nat) (q : findMissingQueue) (manifestDigest : Digest)
    (blobsToCheck : list blobToCheck) : M W (findMissingQueue * option error) :=
  b <- Get (base ba) manifestDigest ;;
  match Buffer_ToByteSlice b (maximumManifestSizeBytes ba) with
  | inl manifest => checkBlobs fuel q manifest blobsToCheck
  | inr err =>
      match status_Code err with
      | Some NotFound =>
          (* Even though FindMissing() previously reported the
             manifest as present, it was somehow absent after all. *)
          ret (mkFindMissingQueue
                 (list_to_set (map blobDigest blobsToCheck) ∪ missingComposed q)
                 (batchSize q) (pending q), None)
      | _ =>
          ret (q, Some (StatusWrapf err "Failed to load manifest %s"
                                    [ArgStr (value manifestDigest)]))
      end
  end.

Fixpoint checkManifests (fuel : nat) (q : findMissingQueue)
    (summaries : list (Digest * list blobToCheck))
  : M W (findMissingQueue * option error) :=
  match summaries with
  | [] => ret (q, None)
  | (manifestDigest, blobsToCheck) :: summaries =>
      '(q, err) <- checkManifest fuel q manifestDigest blobsToCheck ;;
      match err with
      | Some err => ret (q, Some err)
      | None => checkManifests fuel q summaries
      end
  end.

(** [range_order] is the order in which [range] walks the map
    [summariesToCheck]; Go leaves it unspecified. *)
Variable range_order : gmap Digest (list blobToCheck) -> list (Digest * list blobToCheck).

Definition decomposingBlobAccess_FindMissing (fuel : nat) (digests : gset Digest)
  : M W (gset Digest + error) :=
  '(summariesToCheck, initialDigests) <- lift (collect (elements digests) ∅ ∅) ;;
  res <- FindMissing (base ba) initialDigests ;;
  match res with
  | inr err => ret (inr err)
  | inl missingInitially =>
      let '(summariesToCheck, composed) :=
        skipMissing (elements missingInitially) summariesToCheck ∅ in
      let q := mkFindMissingQueue composed 1000 ∅ in
      '(q, err) <- checkManifests fuel q (range_order summariesToCheck) ;;
      match err with
      | Some err => ret (inr err)
      | None =>
          '(q, err) <- findMissingQueue_finalize q ;;
          match err with
          | Some err => ret (inr err)
          | None =>
              (* Filter out manifest digests that were added initially. *)
              ret (inl ((missingInitially ∩ digests) ∪ missingComposed q))
          end
      end
  end.

End Decomposing.

End blobstore.

(** ** A backing store held in memory

    Modelled from the spec: the backing store is a collaborator known
    only by its contract ([Get], [Put], [FindMissing]).  This one keeps
    the objects in a finite map and hands back what was stored. *)

Module memory.

Import digest buffer blobstore.

Definition store : Type := gmap Digest (list byte).

Definition memory_Get (d : Digest) : M store Buffer :=
  fun w =>
    Some (match w !! d with
          | Some data => NewValidatedBufferFromByteSlice data
          | None => NewBufferFromError (Status NotFound (Errorf "Object not found" []))
          end, w).

Definition memory_Put (d : Digest) (b : Buffer) : M store (option error) :=
  fun w =>
    match b with
    | validatedByteSliceBuffer data => Some (None, <[d := data]> w)
    | errorBuffer err => Some (Some err, w)
    end.

Definition memory_FindMissing (digests : gset Digest) : M store (gset Digest + error) :=
  fun w => Some (inl (filter (fun d => w !! d = None) digests), w).

Definition memoryBlobAccess : BlobAccess store :=
  mkBlobAccess store memory_Get memory_Put memory_FindMissing.

End memory.

(** ** Recording the calls that reach the backing store *)

Module recording.

Import digest buffer blobstore.

Inductive Call :=
| CallGet (d : Digest)
| CallPut (d : Digest) (b : Buffer)
| CallFindMissing (digests : gset Digest).

Section Recording.

Context {W : Type}.
Variable base : BlobAccess W.

Definition record {A} (c : Call) (m : M W A) : M (W * list Call) A :=
  fun '(w, calls) =>
    match m w with
    | None => None
    | Some (a, w') => Some (a, (w', calls ++ [c]))
    end.

Definition recordingBlobAccess : BlobAccess (W * list Call) :=
  mkBlobAccess (W * list Call)
    (fun d => record (CallGet d) (Get base d))
    (fun d b => record (CallPut d b) (Put base d b))
    (fun digests => record (CallFindMissing digests) (FindMissing base digests)).

End Recording.

End recording.

(** ** Test data *)

Definition identity251 (n : nat) : list byte :=
  map (fun i => byte_of_Z (Z.of_nat i mod 251)) (seq 0 n).

(** * Vocabulary of the statements *)

(** * Vocabulary of the properties *)

Fixpoint pop_pos (p : positive) : nat :=
  match p with
  | xH => 1
  | xO p => pop_pos p
  | xI p => S (pop_pos p)
  end.

(** Number of bits set in a non-negative number. *)
Definition popcount (z : Z) : nat :=
  match z with
  | Zpos p => pop_pos p
  | _ => 0%nat
  end.

(** The chaining value stack holds at least one entry per bit set in
    the number of nodes appended. *)
Definition stack_ok (s : blake3zcc.ChainingValueStack) : Prop :=
  0 <= blake3zcc.totalNodes s < 2 ^ 64
  /\ (popcount (blake3zcc.totalNodes s) <= length (blake3zcc.stack s))%nat.

(** Size of the buffered entry of the manifest hasher after [l] more
    bytes, starting from [es] buffered bytes. *)
Definition entrySize_after (es l : Z) : Z :=
  if es + l <=? 97 then es + l else (es + l - 34) mod 64 + 34.

(** Size of the buffered entry once [t] bytes have been written in all. *)
Definition residual (t : Z) : Z := entrySize_after 0 t.

Definition hasher_ok (h : digest.blake3zccManifestHasher) : Prop :=
  length (digest.entry h) = 97%nat /\ 0 <= digest.entrySize h <= 97
  /\ stack_ok (digest.mh_chainingValueStack h).

(** A sequence of [Write] calls on the manifest hasher. *)
Fixpoint blake3zccManifestHasher_Writes (h : digest.blake3zccManifestHasher)
    (ps : list (list byte)) : option digest.blake3zccManifestHasher :=
  match ps with
  | [] => Some h
  | p :: ps =>
      match digest.blake3zccManifestHasher_Write h p with
      | None => None
      | Some h => blake3zccManifestHasher_Writes h ps
      end
  end.

(** Value of the decimal digit [c], as [unpack] computes it. *)
Definition digit_value (c : ascii) : Z := u8 (Z.of_nat (nat_of_ascii c) - 48).

(** Value of a string of decimal digits continuing the number [acc]. *)
Definition decimal_value (acc : Z) (ds : list ascii) : Z :=
  fold_left (fun a c => a * 10 + digit_value c) ds acc.

Definition is_digit (c : ascii) : Prop :=
  exists d, 0 <= d <= 9 /\ c = digit_char d.

Definition not_dash (c : ascii) : Prop := ascii_eqb c "-" = false.

(** The part of a digest in front of the size is understood by [unpack]
    when it is at least 32 characters long and holds no ['-'] from
    index 32 on. *)
Definition hash_ok (h : list ascii) : Prop :=
  (32 <= length h)%nat /\ Forall not_dash (drop 32 h).

(** A hexadecimal BLAKE3ZCC hash of at least 14 bytes. *)
Definition blake3zcc_hash_ok (h : list ascii) : Prop :=
  (28 <= length h)%nat /\ forallb digest.is_lower_hex h = true.

(** The digests the constructors hand out: those that do not carry the
    [B3Z:] prefix, and BLAKE3ZCC digests made by [NewDigest] from a
    hexadecimal hash and a size that fits an int64. *)
Definition valid_digest (d : digest.Digest) : Prop :=
  HasPrefix (digest.value d) (s2l "B3Z:") = false
  \/ exists instance hash sizeBytes,
       blake3zcc_hash_ok hash /\ sizeBytes < 2 ^ 63
       /\ digest.NewDigest instance (s2l "B3Z:" ++ hash) sizeBytes = inl d.

(** Size of the manifest of a blob of [s] bytes at block size [b]. *)
Definition manifest_size (s b : Z) : Z :=
  (s + b - 1) / b * 64 + (if (0 <? s mod b) && (s mod b <=? 1024) then 33 else 0).

Definition hex32 : list ascii := s2l "73c932bec255516b229488d6af3d29fc".

(** A chaining value: eight 32 bit words. *)
Definition cv_ok (cv : list Z) : Prop := length cv = 8%nat /\ Forall is_u32 cv.

(** A message block: sixteen 32 bit words. *)
Definition msg_ok (m : list Z) : Prop := length m = 16%nat /\ Forall is_u32 m.

(** Number of bytes of the current chunk the parser has taken in. *)
Definition chunk_fill (p : blake3zcc.ChunkParser) : Z :=
  (16 - blake3zcc.blocksRemaining p) * 64 + blake3zcc.p_blockSize p.

Definition parser_ok (p : blake3zcc.ChunkParser) : Prop :=
  length (blake3zcc.block p) = 64%nat
  /\ 0 <= blake3zcc.p_blockSize p <= 64
  /\ 1 <= blake3zcc.blocksRemaining p <= 16
  /\ cv_ok (blake3zcc.chunkChainingValue p)
  /\ stack_ok (blake3zcc.chainingValueStack p)
  /\ Forall cv_ok (blake3zcc.stack (blake3zcc.chainingValueStack p)).

(** A node made by [NewChunkNode] for at most 64 bytes of a block. *)
Definition chunk_node_ok (n : blake3zcc.Node) : Prop :=
  exists cv m bs start,
    n = blake3zcc.NewChunkNode cv m bs start /\ cv_ok cv /\ msg_ok m /\ 0 <= bs <= 64.

(** A node made by [NewParentNode]. *)
Definition parent_node_ok (n : blake3zcc.Node) : Prop :=
  exists m, n = blake3zcc.NewParentNode m /\ msg_ok m.

(** A sequence of [Write] calls on a [Generator]. *)
Fixpoint Generator_Writes (dg : digest.Generator) (ps : list (list byte))
  : option digest.Generator :=
  match ps with
  | [] => Some dg
  | p :: ps =>
      match digest.Generator_Write dg p with
      | None => None
      | Some dg => Generator_Writes dg ps
      end
  end.

(** The hasher of a generator is one of the two BLAKE3ZCC hashers and
    is in a state that [Write] keeps. *)
Definition blake3zcc_hash_state_ok (h : digest.Hash) : Prop :=
  match h with
  | digest.BlobHasher h =>
      parser_ok (digest.bh_p h) /\ 0 <= digest.bh_outputSizeBytes h
  | digest.ManifestHasher h => hasher_ok h /\ 0 <= digest.mh_outputSizeBytes h
  | digest.StdHasher _ _ => False
  end.

(** Loading a manifest from the backing store, as [FindMissing] and
    [Get] do it. *)
Definition load_manifest {W} (ba : blobstore.decomposingBlobAccess (W := W))
    (manifestDigest : digest.Digest) : M W (list byte + error) :=
  fun w =>
    match blobstore.Get (blobstore.base ba) manifestDigest w with
    | None => None
    | Some (b, w') =>
        Some (buffer.Buffer_ToByteSlice b (blobstore.maximumManifestSizeBytes ba), w')
    end.

(** Whenever it is loaded, the manifest turns out to be absent. *)
Definition load_NotFound {W} (ba : blobstore.decomposingBlobAccess (W := W))
    (manifestDigest : digest.Digest) : Prop :=
  forall w, exists msg w',
    load_manifest ba manifestDigest w = Some (inr (Status NotFound msg), w').

(** Whenever it is loaded, the manifest fails with [err], which is not
    a [NotFound] status. *)
Definition load_fails {W} (ba : blobstore.decomposingBlobAccess (W := W))
    (manifestDigest : digest.Digest) (err : error) : Prop :=
  status_Code err <> Some NotFound
  /\ forall w, exists w', load_manifest ba manifestDigest w = Some (inr err, w').

(** [FindMissing] of the backing store answers every call. *)
Definition base_FindMissing_succeeds {W} (ba : blobstore.decomposingBlobAccess (W := W))
  : Prop :=
  forall digests w, exists missing w',
    blobstore.FindMissing (blobstore.base ba) digests w = Some (inl missing, w').

(** [FindMissing] of the backing store never reports [manifestDigest]
    as missing. *)
Definition reported_present {W} (ba : blobstore.decomposingBlobAccess (W := W))
    (manifestDigest : digest.Digest) : Prop :=
  forall digests w missing w',
    blobstore.FindMissing (blobstore.base ba) digests w = Some (inl missing, w') ->
    manifestDigest ∉ missing.

(** A manifest built by successive [AppendBlockDigest] calls, with the
    digests the calls returned. *)
Fixpoint AppendBlockDigests (mp : digest.blake3zccManifestParser)
    (manifest : list byte) (blocks : list (list byte))
  : option (list byte * list digest.Digest) :=
  match blocks with
  | [] => Some (manifest, [])
  | block :: blocks =>
      match digest.AppendBlockDigest mp manifest block with
      | None => None
      | Some (manifest, d) =>
          match AppendBlockDigests mp manifest blocks with
          | None => None
          | Some (manifest, ds) => Some (manifest, d :: ds)
          end
      end
  end.

(** The BLAKE3ZCC digest of a blob, as a client builds it: the hash of
    the blob's bytes in hexadecimal after the prefix, and the blob's
    size. *)
Definition blobDigestBLAKE3ZCC (instance : list ascii) (b : list byte)
  : option digest.Digest :=
  match digest.blake3zccBlobHasher_Write (digest.newBLAKE3ZCCBlobHasher 32) b with
  | None => None
  | Some h =>
      match digest.blake3zccBlobHasher_Sum h [] with
      | None => None
      | Some sum =>
          digest.MustNewDigest instance (s2l "B3Z:" ++ hex.EncodeToString sum)
                               (Z.of_nat (length b))
      end
  end.

(** [ReadAt] on what [decomposingBlobAccess.Get] returned. *)
Definition decomposedBuffer_ReadAt {W} (fuel : nat) (b : blobstore.decomposedBuffer W)
    (p : nat) (off : Z) : M W (list byte * option error) :=
  match b with
  | blobstore.baseBuffer b => ret (buffer.Buffer_ReadAt b p off)
  | blobstore.concatenatingBuffer cb =>
      buffer.casConcatenatingBuffer_ReadAt
        (fun sb p off => ret (buffer.Buffer_ReadAt sb p off)) fuel cb p off
  end.

(** [Get] of a digest, then [ReadAt] on the buffer it returned. *)
Definition Get_then_ReadAt {W} (ba : blobstore.decomposingBlobAccess (W := W))
    (fuel : nat) (d : digest.Digest) (p : nat) (off : Z)
  : M W (list byte * option error) :=
  r <- blobstore.decomposingBlobAccess_Get ba d ;;
  decomposedBuffer_ReadAt fuel r p off.

(** [Put] of a blob under its BLAKE3ZCC digest into an empty store,
    then [Get] of the same digest and [ReadAt] of [p] bytes at [off].
    [Some (inl err)] is an error of [Put], [Some (inr r)] is what
    [ReadAt] returned, and [None] is a panic. *)
Definition Put_then_ReadAt (blockSizeBytes maximumManifestSizeBytes : Z)
    (fuelPut fuelReadAt : nat) (b : list byte) (p : nat) (off : Z)
  : option (error + list byte * option error) :=
  let ba := blobstore.NewDecomposingBlobAccess memory.memoryBlobAccess
              blockSizeBytes maximumManifestSizeBytes in
  match blobDigestBLAKE3ZCC [] b with
  | None => None
  | Some d =>
      match blobstore.decomposingBlobAccess_Put ba fuelPut d
              (buffer.NewValidatedBufferFromByteSlice b) ∅ with
      | None => None
      | Some (Some err, _) => Some (inl err)
      | Some (None, w) =>
          match Get_then_ReadAt ba fuelReadAt d p off w with
          | None => None
          | Some (r, _) => Some (inr r)
          end
      end
  end.

(** A backing store that lost its blobs after reporting them present:
    [FindMissing] reports nothing missing, [Get] finds nothing. *)
Definition vanishedBlobAccess : blobstore.BlobAccess unit :=
  blobstore.mkBlobAccess unit
    (fun _ w => Some (buffer.NewBufferFromError
                        (Status NotFound (Errorf "Blob not found" [])), w))
    (fun _ _ w => Some (None, w))
    (fun _ w => Some (inl ∅, w)).

Definition composedDigest : digest.Digest :=
  digest.mkDigest
    (s2l "B3Z:cbd15819798dcda8a686594582fb0dbe89bc2c053a4caaae9d0ace41d1bd54dc-4096-instance").

(** A node whose words are 32 bit words. *)
Definition node_in_range (n : blake3zcc.Node) : Prop :=
  Forall is_u32 (blake3zcc.chainingValue n)
  /\ is_u32 (blake3zcc.blockSize n) /\ is_u32 (blake3zcc.flags n).

(** The scenario of the tests of the concatenating buffer: "Hello" in
    the pieces "He", "l", "lo". *)
Definition helloDigest : digest.Digest :=
  digest.mkDigest (s2l "8b1a9953c4611296a827abf8c47804d7-5-foo").

Definition helloFetcher (offset : Z) : M unit (buffer.Buffer * Z) :=
  ret (if offset <? 2 then (buffer.NewValidatedBufferFromByteSlice [x48; x65], 0)
       else if offset <? 3 then (buffer.NewValidatedBufferFromByteSlice [x6c], 2)
       else (buffer.NewValidatedBufferFromByteSlice [x6c; x6f], 3)).

Definition helloBuffer : buffer.casConcatenatingBuffer :=
  buffer.NewCASConcatenatingBuffer helloDigest helloFetcher.

(** [ReadAt] of a buffer of the backing store, which leaves the state of
    the store alone. *)
Definition pure_ReadAt {W} (b : buffer.Buffer) (p : nat) (off : Z)
  : M W (list byte * option error) :=
  ret (buffer.Buffer_ReadAt b p off).

(** A hash of one of the standard algorithms: 32, 40, 64, 96 or 128
    lower case hexadecimal characters. *)
Definition standard_hash (hash : list ascii) : bool :=
  ((length hash =? 32) || (length hash =? 40) || (length hash =? 64)
   || (length hash =? 96) || (length hash =? 128))%nat
  && forallb digest.is_lower_hex hash.

(** A protocol level digest with its hash in exactly one field: a
    BLAKE3ZCC hash or manifest hash of at least 14 bytes, or the hash
    of a standard algorithm. *)
Definition partial_digest_ok (pd : digest.PartialDigest) : Prop :=
  ((14 <= length (digest.HashBlake3Zcc pd))%nat
   /\ digest.HashBlake3ZccManifest pd = [] /\ digest.HashOther pd = [])
  \/ (digest.HashBlake3Zcc pd = []
      /\ (14 <= length (digest.HashBlake3ZccManifest pd))%nat /\ digest.HashOther pd = [])
  \/ (digest.HashBlake3Zcc pd = [] /\ digest.HashBlake3ZccManifest pd = []
      /\ standard_hash (digest.HashOther pd) = true).

(** The byte of a chunk node's entry that holds the block size and the
    chunk start flag, written and read back. *)
Definition chunk_byte_check (bs : Z) (start : bool) : bool :=
  let e0 := u8 (Z.land bs (Z.lnot 0x80 mod 2 ^ 32)) in
  let e0 := if start then Z.lor e0 0x80 else e0 in
  let back := byte_to_Z (byte_of_Z e0) in
  (Z.land back (Z.lnot 0x80 mod 2 ^ 8) =? bs)
  && Bool.eqb (negb (Z.land back 0x80 =? 0)) start.

(** A sequence of [AppendNode] calls. *)
Fixpoint AppendNodes (s : blake3zcc.ChainingValueStack) (ns : list blake3zcc.Node)
  : option blake3zcc.ChainingValueStack :=
  match ns with
  | [] => Some s
  | n :: ns =>
      match blake3zcc.AppendNode s n with
      | None => None
      | Some s => AppendNodes s ns
      end
  end.

(** A sequence of [Write] calls on the blob hasher. *)
Fixpoint blake3zccBlobHasher_Writes (h : digest.blake3zccBlobHasher)
    (ps : list (list byte)) : option digest.blake3zccBlobHasher :=
  match ps with
  | [] => Some h
  | p :: ps =>
      match digest.blake3zccBlobHasher_Write h p with
      | None => None
      | Some h => blake3zccBlobHasher_Writes h ps
      end
  end.

(** The block buffer of the chunk parser and its fill. *)
Definition block_ok (p : blake3zcc.ChunkParser) : Prop :=
  length (blake3zcc.block p) = 64%nat /\ 0 <= blake3zcc.p_blockSize p <= 64.

(** The entry buffer of the manifest hasher and its fill. *)
Definition entry_ok (h : digest.blake3zccManifestHasher) : Prop :=
  length (digest.entry h) = 97%nat /\ 0 <= digest.entrySize h <= 97.

(** * Properties *)

Section Basics.

(** * Properties *)

(** ** Machine integers *)

Lemma i64_small x : is_i64 x -> i64 x = x.
Proof.
  unfold is_i64, i64. intros H.
  rewrite Z.mod_small by lia. lia.
Qed.

Lemma u64_small x : 0 <= x < 2 ^ 64 -> u64 x = x.
Proof. unfold u64. intros H. apply Z.mod_small. lia. Qed.

Lemma u32_small x : is_u32 x -> u32 x = x.
Proof. unfold u32, is_u32. intros H. apply Z.mod_small. lia. Qed.

Lemma u32_is_u32 x : is_u32 (u32 x).
Proof. unfold is_u32, u32. apply Z.mod_pos_bound. lia. Qed.

Lemma u64_range x : 0 <= u64 x < 2 ^ 64.
Proof. unfold u64. apply Z.mod_pos_bound. lia. Qed.

(** ** copy *)

Lemma copy_length {A} (dst src : list A) off :
  length (copy dst off src).1 = length dst.
Proof.
  unfold copy. simpl.
  rewrite !length_app, !length_take, length_drop. lia.
Qed.

Lemma copy_count {A} (dst src : list A) off :
  (copy dst off src).2 = Nat.min (length dst - off) (length src).
Proof. reflexivity. Qed.

(** ** The chaining value stack never pops an empty stack *)

Lemma popcount_even t :
  0 <= t -> Z.land t 1 = 0 -> popcount (t + 1) = S (popcount t).
Proof.
  intros Ht H. destruct t as [|p|p]; [reflexivity| |lia].
  destruct p; cbv in H; try discriminate. reflexivity.
Qed.

Lemma pop_pos_succ_odd p : pop_pos (Pos.succ p~1) = pop_pos (Pos.succ p).
Proof. reflexivity. Qed.

Lemma popcount_odd t :
  0 <= t -> Z.land t 1 <> 0 ->
  0 <= Z.shiftr t 1 /\
  S (popcount (Z.shiftr t 1)) = popcount t /\
  popcount (t + 1) = popcount (Z.shiftr t 1 + 1).
Proof.
  intros Ht H. destruct t as [|p|p]; [cbv in H; congruence| |lia].
  destruct p as [p|p|]; cbv in H; try congruence.
  - change (Z.shiftr (Z.pos p~1) 1) with (Z.pos p).
    repeat split; try lia.
    change (Z.pos p~1 + 1) with (Z.pos (Pos.succ p~1)).
    replace (Z.pos p + 1) with (Z.pos (Pos.succ p)) by lia.
    reflexivity.
  - change (Z.shiftr 1 1) with 0. repeat split; try lia; reflexivity.
Qed.

Lemma popcount_u64_succ t :
  0 <= t < 2 ^ 64 -> (popcount (u64 (t + 1)) <= popcount (t + 1))%nat.
Proof.
  intros H. destruct (Z.eq_dec (t + 1) (2 ^ 64)) as [E|E].
  - unfold u64. rewrite E, Z.mod_same by lia. simpl. lia.
  - rewrite u64_small by lia. lia.
Qed.

Import blake3zcc.

Lemma AppendNode_loop_total st : forall t cv,
  0 <= t -> (popcount t <= length st)%nat ->
  exists st' cv', AppendNode_loop st t cv = Some (st', cv')
                  /\ (popcount (t + 1) <= S (length st'))%nat.
Proof.
  induction st as [|top rest IH]; intros t cv Ht Hp.
  - simpl. destruct (Z.land t 1 =? 0) eqn:E.
    + apply Z.eqb_eq in E. eexists _, _. split; [reflexivity|].
      rewrite popcount_even by assumption. simpl in *. lia.
    + apply Z.eqb_neq in E. destruct (popcount_odd t Ht E) as (_ & H1 & _).
      simpl in Hp. lia.
  - simpl. destruct (Z.land t 1 =? 0) eqn:E.
    + apply Z.eqb_eq in E. eexists _, _. split; [reflexivity|].
      rewrite popcount_even by assumption. simpl in *. lia.
    + apply Z.eqb_neq in E. destruct (popcount_odd t Ht E) as (H0 & H1 & H2).
      edestruct (IH (Z.shiftr t 1)) as (st' & cv' & Heq & Hle); [assumption| |].
      { simpl in Hp. lia. }
      eexists _, _. split; [exact Heq|]. rewrite H2. exact Hle.
Qed.

Lemma AppendNode_total s n :
  stack_ok s -> exists s', AppendNode s n = Some s' /\ stack_ok s' /\ stack s' <> [].
Proof.
  intros [Ht Hp]. unfold AppendNode.
  edestruct (AppendNode_loop_total (stack s) (totalNodes s)) as (st' & cv' & Heq & Hle);
    [lia | exact Hp |].
  rewrite Heq. eexists. split; [reflexivity|]. split; [|discriminate].
  split; simpl.
  - apply u64_range.
  - pose proof (popcount_u64_succ _ Ht). lia.
Qed.

Lemma NewChainingValueStack_ok : stack_ok NewChainingValueStack.
Proof. split; simpl; lia. Qed.

(** ** Reading words out of a byte slice *)

Import digest.

Lemma Uint32_Some (b : list byte) : (4 <= length b)%nat -> is_Some (LittleEndian.Uint32 b).
Proof.
  intros H. destruct b as [|b0 [|b1 [|b2 [|b3 b]]]]; simpl in H; try lia.
  eexists. reflexivity.
Qed.

Lemma unmarshal_words_Some n : forall entry : list byte,
  (4 * n <= length entry)%nat ->
  exists ws, unmarshal_words n entry = Some (ws, drop (4 * n) entry) /\ length ws = n.
Proof.
  induction n as [|n IH]; intros entry H.
  - exists []. split; reflexivity.
  - simpl unmarshal_words.
    destruct (Uint32_Some entry) as [w Hw]; [lia|]. rewrite Hw.
    destruct (IH (drop 4 entry)) as (ws & Hws & Hl).
    { rewrite length_drop. lia. }
    rewrite Hws. exists (w :: ws). split.
    + rewrite drop_drop. do 3 f_equal. lia.
    + simpl. lia.
Qed.

Lemma unmarshalBLAKE3ZCCParentNode_Some (entry : list byte) :
  (64 <= length entry)%nat -> is_Some (unmarshalBLAKE3ZCCParentNode entry).
Proof.
  intros H. unfold unmarshalBLAKE3ZCCParentNode.
  destruct (unmarshal_words_Some 16 entry) as (ws & Hws & _); [lia|].
  rewrite Hws. eexists. reflexivity.
Qed.

Lemma unmarshalBLAKE3ZCCChunkNode_Some (entry : list byte) :
  (97 <= length entry)%nat -> is_Some (unmarshalBLAKE3ZCCChunkNode entry).
Proof.
  intros H. unfold unmarshalBLAKE3ZCCChunkNode.
  destruct (unmarshal_words_Some 8 entry) as (ws & Hws & _); [lia|].
  rewrite Hws.
  destruct (unmarshal_words_Some 16 (drop (4 * 8) entry)) as (ws' & Hws' & _).
  { rewrite length_drop. lia. }
  rewrite Hws'. rewrite drop_drop.
  destruct (drop (4 * 8 + 4 * 16) entry) eqn:E.
  - apply (f_equal length) in E. rewrite length_drop in E. simpl in E. lia.
  - eexists. reflexivity.
Qed.

Lemma GetHashValue_Some n out b : 0 <= out -> is_Some (GetHashValue n out b).
Proof.
  intros H. unfold GetHashValue.
  destruct (out <? 0) eqn:E; [apply Z.ltb_lt in E; lia|]. eexists. reflexivity.
Qed.

End Basics.

Section ManifestHasher.

Import blake3zcc digest.

(** ** The manifest hasher *)

Lemma entrySize_after_shift es l :
  0 <= es <= 97 -> 97 < es + l ->
  entrySize_after 33 (l - (97 - es)) = entrySize_after es l.
Proof.
  intros H1 H2. unfold entrySize_after.
  destruct (es + l <=? 97) eqn:E1; [apply Z.leb_le in E1; lia|].
  replace (33 + (l - (97 - es))) with (es + l - 64) by lia.
  destruct (es + l - 64 <=? 97) eqn:E2.
  - apply Z.leb_le in E2.
    replace (es + l - 34) with (es + l - 98 + 1 * 64) by lia.
    rewrite Z.mod_add by lia. rewrite Z.mod_small by lia. lia.
  - replace (es + l - 34) with (es + l - 64 - 34 + 1 * 64) by lia.
    rewrite Z.mod_add by lia. reflexivity.
Qed.

Lemma blake3zccManifestHasher_Write_loop_S fuel h p :
  blake3zccManifestHasher_Write_loop (S fuel) h p =
  let '(e, n) := copy (entry h) (Z.to_nat (entrySize h)) p in
  match drop n p with
  | [] => Some (mkManifestHasher e (entrySize h + Z.of_nat n)
                                 (mh_chainingValueStack h) (mh_outputSizeBytes h))
  | _ :: _ =>
      match unmarshalBLAKE3ZCCParentNode e with
      | None => None
      | Some node =>
          match AppendNode (mh_chainingValueStack h) node with
          | None => None
          | Some s =>
              let '(e', _) := copy e 0 (drop (Z.to_nat blake3zccParentNodeSizeBytes) e) in
              blake3zccManifestHasher_Write_loop fuel
                (mkManifestHasher e'
                   (blake3zccChunkNodeSizeBytes - blake3zccParentNodeSizeBytes)
                   s (mh_outputSizeBytes h))
                (drop n p)
          end
      end
  end.
Proof. reflexivity. Qed.

Lemma blake3zccManifestHasher_Write_loop_spec fuel : forall h p,
  hasher_ok h ->
  (length p + (if (entrySize h =? 97)%Z then 1 else 0) <= fuel)%nat -> (1 <= fuel)%nat ->
  exists h', blake3zccManifestHasher_Write_loop fuel h p = Some h'
             /\ hasher_ok h'
             /\ mh_outputSizeBytes h' = mh_outputSizeBytes h
             /\ entrySize h' = entrySize_after (entrySize h) (Z.of_nat (length p)).
Proof.
  induction fuel as [|fuel IH]; intros h p (Hlen & Hes & Hst) Hfuel Hpos; [lia|].
  rewrite blake3zccManifestHasher_Write_loop_S.
  destruct (copy (entry h) (Z.to_nat (entrySize h)) p) as [e n] eqn:Hc.
  assert (Hn : n = Nat.min (97 - Z.to_nat (entrySize h)) (length p)).
  { pose proof (copy_count (entry h) p (Z.to_nat (entrySize h))) as C.
    rewrite Hc in C. simpl in C. rewrite Hlen in C. exact C. }
  assert (He : length e = 97%nat).
  { pose proof (copy_length (entry h) p (Z.to_nat (entrySize h))) as C.
    rewrite Hc in C. simpl in C. lia. }
  destruct (drop n p) as [|b p'] eqn:Hd.
  - (* everything was buffered *)
    assert (length p <= n)%nat.
    { apply (f_equal length) in Hd. rewrite length_drop in Hd. simpl in Hd. lia. }
    eexists. split; [reflexivity|]. unfold hasher_ok.
    cbn [entry entrySize mh_chainingValueStack mh_outputSizeBytes].
    split; [split; [exact He | split; [lia | exact Hst]] | split; [reflexivity|]].
    unfold entrySize_after.
    destruct (entrySize h + Z.of_nat (length p) <=? 97) eqn:E; [lia|].
    apply Z.leb_gt in E. lia.
  - (* the buffer is full and there is more input: ingest a parent node *)
    assert (Hlp : (n < length p)%nat).
    { apply (f_equal length) in Hd. rewrite length_drop in Hd. simpl in Hd. lia. }
    assert (Hn' : n = (97 - Z.to_nat (entrySize h))%nat) by lia.
    destruct (unmarshalBLAKE3ZCCParentNode_Some e) as [node Hnode]; [lia|].
    rewrite Hnode.
    destruct (AppendNode_total (mh_chainingValueStack h) node Hst) as (s' & Hs' & Hok' & _).
    rewrite Hs'.
    destruct (copy e 0 (drop (Z.to_nat blake3zccParentNodeSizeBytes) e)) as [e' k] eqn:Hc'.
    assert (He' : length e' = 97%nat).
    { pose proof (copy_length e (drop (Z.to_nat blake3zccParentNodeSizeBytes) e) 0) as C.
      rewrite Hc' in C. simpl in C. lia. }
    edestruct (IH (mkManifestHasher e'
                     (blake3zccChunkNodeSizeBytes - blake3zccParentNodeSizeBytes) s'
                     (mh_outputSizeBytes h)) (b :: p')) as (h' & Hh' & Hok & Hout & Hsz).
    { unfold hasher_ok. cbn [entry entrySize mh_chainingValueStack mh_outputSizeBytes].
      unfold blake3zccChunkNodeSizeBytes, blake3zccParentNodeSizeBytes.
      split; [exact He' | split; [lia | exact Hok']]. }
    { cbn [entrySize].
      replace (blake3zccChunkNodeSizeBytes - blake3zccParentNodeSizeBytes =? 97)
        with false by reflexivity.
      apply (f_equal length) in Hd. rewrite length_drop in Hd.
      destruct (entrySize h =? 97) eqn:E97.
      - apply Z.eqb_eq in E97. lia.
      - apply Z.eqb_neq in E97. lia. }
    { apply (f_equal length) in Hd. rewrite length_drop in Hd. simpl in Hd.
      destruct (entrySize h =? 97) eqn:E97; lia. }
    exists h'. split; [exact Hh'|]. split; [exact Hok|]. split; [exact Hout|].
    rewrite Hsz. cbn [entrySize].
    apply (f_equal length) in Hd. rewrite length_drop in Hd. rewrite <- Hd.
    replace (blake3zccChunkNodeSizeBytes - blake3zccParentNodeSizeBytes) with 33 by reflexivity.
    replace (Z.of_nat (length p - n)) with (Z.of_nat (length p) - (97 - entrySize h)) by lia.
    apply entrySize_after_shift; lia.
Qed.

Lemma blake3zccManifestHasher_Write_total h p :
  hasher_ok h ->
  exists h', blake3zccManifestHasher_Write h p = Some h'
             /\ hasher_ok h'
             /\ mh_outputSizeBytes h' = mh_outputSizeBytes h
             /\ entrySize h' = entrySize_after (entrySize h) (Z.of_nat (length p)).
Proof.
  intros H. apply blake3zccManifestHasher_Write_loop_spec; [assumption| |lia].
  destruct (entrySize h =? 97); lia.
Qed.

Lemma entrySize_after_residual t l :
  0 <= t -> 0 <= l -> entrySize_after (residual t) l = residual (t + l).
Proof.
  intros Ht Hl. unfold residual, entrySize_after. rewrite !Z.add_0_l.
  destruct (t <=? 97) eqn:E1.
  - reflexivity.
  - apply Z.leb_gt in E1.
    destruct (t + l <=? 97) eqn:E2; [apply Z.leb_le in E2; lia|].
    pose proof (Z.mod_pos_bound (t - 34) 64 ltac:(lia)) as Hr.
    pose proof (Z.div_mod (t - 34) 64 ltac:(lia)) as Hq.
    destruct ((t - 34) mod 64 + 34 + l <=? 97) eqn:E3.
    + apply Z.leb_le in E3.
      replace (t + l - 34) with ((t - 34) mod 64 + l + (t - 34) / 64 * 64) by lia.
      rewrite Z.mod_add by lia.
      rewrite (Z.mod_small ((t - 34) mod 64 + l)) by lia. lia.
    + f_equal.
      replace (t + l - 34) with ((t - 34) mod 64 + 34 + l - 34 + (t - 34) / 64 * 64) by lia.
      rewrite Z.mod_add by lia. reflexivity.
Qed.

Lemma blake3zccManifestHasher_Writes_spec ps : forall h t,
  hasher_ok h -> 0 <= t -> entrySize h = residual t ->
  exists h', blake3zccManifestHasher_Writes h ps = Some h'
             /\ hasher_ok h'
             /\ mh_outputSizeBytes h' = mh_outputSizeBytes h
             /\ entrySize h' = residual (t + Z.of_nat (length (concat ps))).
Proof.
  induction ps as [|p ps IH]; intros h t Hok Ht Hes.
  - exists h. simpl. rewrite Z.add_0_r. auto.
  - simpl. destruct (blake3zccManifestHasher_Write_total h p Hok) as (h1 & H1 & Hok1 & Hout1 & Hes1).
    rewrite H1.
    destruct (IH h1 (t + Z.of_nat (length p)) Hok1 ltac:(lia)) as (h' & H' & Hok' & Hout' & Hes').
    { rewrite Hes1, Hes. apply entrySize_after_residual; lia. }
    exists h'. split; [exact H'|]. split; [exact Hok'|]. split; [congruence|].
    rewrite Hes'. f_equal. rewrite length_app. lia.
Qed.

Lemma residual_parent n : 1 <= n -> residual (64 * n) = 64.
Proof.
  intros H. unfold residual, entrySize_after. rewrite !Z.add_0_l.
  destruct (64 * n <=? 97) eqn:E.
  - apply Z.leb_le in E. lia.
  - replace (64 * n - 34) with (30 + (n - 1) * 64) by lia.
    rewrite Z.mod_add by lia. reflexivity.
Qed.

Lemma residual_chunk n : 0 <= n -> residual (64 * n + 97) = 97.
Proof.
  intros H. unfold residual, entrySize_after. rewrite !Z.add_0_l.
  destruct (64 * n + 97 <=? 97) eqn:E.
  - apply Z.leb_le in E. lia.
  - replace (64 * n + 97 - 34) with (63 + n * 64) by lia.
    rewrite Z.mod_add by lia. reflexivity.
Qed.

Lemma newBLAKE3ZCCManifestHasher_ok out : hasher_ok (newBLAKE3ZCCManifestHasher out).
Proof.
  split; [reflexivity | split; [simpl; lia | apply NewChainingValueStack_ok]].
Qed.

Lemma blake3zccManifestHasher_Sum_Some h b :
  hasher_ok h -> 0 <= mh_outputSizeBytes h -> entrySize h = 64 \/ entrySize h = 97 ->
  is_Some (blake3zccManifestHasher_Sum h b).
Proof.
  intros (Hlen & _ & _) Hout Hes. unfold blake3zccManifestHasher_Sum.
  destruct Hes as [-> | ->].
  - change (64 =? blake3zccChunkNodeSizeBytes) with false.
    change (64 =? blake3zccParentNodeSizeBytes) with true. cbv iota.
    destruct (unmarshalBLAKE3ZCCParentNode_Some (entry h)) as [n Hn]; [lia|].
    rewrite Hn. apply GetHashValue_Some. assumption.
  - change (97 =? blake3zccChunkNodeSizeBytes) with true. cbv iota.
    destruct (unmarshalBLAKE3ZCCChunkNode_Some (entry h)) as [n Hn]; [lia|].
    rewrite Hn. apply GetHashValue_Some. assumption.
Qed.

(** C9: a manifest of 64*n (n >= 1) or 64*n + 97 (n >= 0) bytes, written
    to the manifest hasher in any number of pieces of any sizes, leaves
    exactly 64 or exactly 97 bytes in the entry buffer when all writes
    are done (every write returns), so that [Sum] does not reach the
    "Manifest has invalid size" panic and returns a hash. *)
Theorem manifest_hasher_residue (ps : list (list byte)) (outputSizeBytes n : Z) (b : list byte) :
  0 <= outputSizeBytes ->
  (1 <= n /\ Z.of_nat (length (concat ps)) = 64 * n)
  \/ (0 <= n /\ Z.of_nat (length (concat ps)) = 64 * n + 97) ->
  exists h,
    blake3zccManifestHasher_Writes (newBLAKE3ZCCManifestHasher outputSizeBytes) ps = Some h
    /\ (entrySize h = blake3zccParentNodeSizeBytes
        \/ entrySize h = blake3zccChunkNodeSizeBytes)
    /\ is_Some (blake3zccManifestHasher_Sum h b).
Proof.
  intros Hout Hn.
  destruct (blake3zccManifestHasher_Writes_spec ps (newBLAKE3ZCCManifestHasher outputSizeBytes) 0)
    as (h & Hh & Hok & Ho & Hes).
  { apply newBLAKE3ZCCManifestHasher_ok. }
  { lia. }
  { reflexivity. }
  assert (Hr : entrySize h = 64 \/ entrySize h = 97).
  { rewrite Hes, Z.add_0_l.
    destruct Hn as [[Hn ->] | [Hn ->]].
    - left. apply residual_parent. assumption.
    - right. apply residual_chunk. assumption. }
  exists h. split; [exact Hh|]. split; [exact Hr|].
  apply blake3zccManifestHasher_Sum_Some; try assumption.
  rewrite Ho. exact Hout.
Qed.

Lemma manifest_hasher_residue_witness :
  exists h,
    blake3zccManifestHasher_Writes (newBLAKE3ZCCManifestHasher 32)
      [replicate 70 x00; []; replicate 58 x00] = Some h
    /\ (entrySize h = blake3zccParentNodeSizeBytes
        \/ entrySize h = blake3zccChunkNodeSizeBytes)
    /\ is_Some (blake3zccManifestHasher_Sum h []).
Proof.
  apply (manifest_hasher_residue [replicate 70 x00; []; replicate 58 x00] 32 2 []);
    [lia | left; split; [lia | reflexivity]].
Defined.

End ManifestHasher.

Section DigestFormat.

Import digest.

(** ** Decimal numbers in digests *)

Lemma digit_value_digit_char d : 0 <= d <= 9 -> digit_value (digit_char d) = d.
Proof.
  intros H. unfold digit_value, digit_char.
  rewrite nat_ascii_embedding by lia.
  unfold u8. rewrite Z.mod_small by lia. lia.
Qed.

Lemma is_digit_not_dash c : is_digit c -> not_dash c.
Proof.
  intros (d & Hd & ->). unfold not_dash, ascii_eqb, digit_char.
  apply Ascii.eqb_neq. intros E.
  apply (f_equal nat_of_ascii) in E. rewrite nat_ascii_embedding in E by lia.
  change (nat_of_ascii "-") with 45%nat in E. lia.
Qed.

Lemma decimal_value_snoc acc ds c :
  decimal_value acc (ds ++ [c]) = decimal_value acc ds * 10 + digit_value c.
Proof. unfold decimal_value. rewrite fold_left_app. reflexivity. Qed.

Lemma digit_value_range c : is_digit c -> 0 <= digit_value c <= 9.
Proof. intros (d & Hd & ->). rewrite digit_value_digit_char; lia. Qed.

Lemma decimal_value_mono ds : forall acc,
  Forall is_digit ds -> 0 <= acc -> acc <= decimal_value acc ds.
Proof.
  induction ds as [|c ds IH]; intros acc Hds Hacc; simpl.
  - unfold decimal_value. simpl. lia.
  - inversion Hds as [|? ? Hc Hds']; subst.
    pose proof (digit_value_range c Hc).
    change (decimal_value acc (c :: ds)) with (decimal_value (acc * 10 + digit_value c) ds).
    specialize (IH (acc * 10 + digit_value c) Hds' ltac:(lia)). lia.
Qed.

Lemma FormatUint_loop_spec fuel : forall x acc,
  (1 <= fuel)%nat -> 0 <= x < 10 ^ Z.of_nat fuel ->
  exists ds, FormatUint_loop fuel x acc = ds ++ acc
             /\ Forall is_digit ds /\ decimal_value 0 ds = x /\ ds <> [].
Proof.
  induction fuel as [|fuel IH]; intros x acc Hfuel Hx.
  - lia.
  - simpl FormatUint_loop.
    assert (Hd : 0 <= x mod 10 <= 9) by (pose proof (Z.mod_pos_bound x 10); lia).
    destruct (x <? 10) eqn:E.
    + apply Z.ltb_lt in E. exists [digit_char (x mod 10)].
      split; [reflexivity|]. split; [|split; [|discriminate]].
      * constructor; [|constructor]. exists (x mod 10). auto.
      * unfold decimal_value. simpl. rewrite digit_value_digit_char by lia.
        rewrite Z.mod_small; lia.
    + apply Z.ltb_ge in E.
      destruct (IH (x / 10) (digit_char (x mod 10) :: acc)) as (ds & Hds & Hall & Hval & _).
      { destruct fuel; [simpl in Hx; lia | lia]. }
      { split; [apply Z.div_pos; lia|].
        apply Z.div_lt_upper_bound; [lia|].
        rewrite Nat2Z.inj_succ, Z.pow_succ_r in Hx by lia. lia. }
      exists (ds ++ [digit_char (x mod 10)]).
      split; [rewrite Hds, <- app_assoc; reflexivity|].
      split; [|split].
      * apply Forall_app. split; [assumption|].
        constructor; [|constructor]. exists (x mod 10). auto.
      * rewrite decimal_value_snoc, Hval, digit_value_digit_char by lia.
        pose proof (Z.div_mod x 10 ltac:(lia)). lia.
      * destruct ds; discriminate.
Qed.

Lemma FormatInt_spec x :
  0 <= x < 2 ^ 63 ->
  Forall is_digit (FormatInt x) /\ decimal_value 0 (FormatInt x) = x.
Proof.
  intros Hx. unfold FormatInt.
  destruct (x <? 0) eqn:E; [apply Z.ltb_lt in E; lia|].
  destruct (FormatUint_loop_spec 20 x []) as (ds & Hds & Hall & Hval & _).
  { lia. }
  { split; [lia|]. eapply Z.lt_trans; [apply Hx|]. reflexivity. }
  rewrite Hds, app_nil_r. auto.
Qed.

(** ** unpack *)

Lemma unpack_hash_spec (a : list ascii) : forall rest i,
  Forall not_dash a -> unpack_hash (a ++ "-"%char :: rest) i = Some (i + length a)%nat.
Proof.
  induction a as [|c a IH]; intros rest i Ha; simpl.
  - f_equal. lia.
  - inversion Ha as [|? ? Hc Ha']; subst. unfold not_dash in Hc. rewrite Hc.
    rewrite IH by assumption. f_equal. lia.
Qed.

Lemma unpack_size_spec (ds : list ascii) : forall acc rest i,
  Forall is_digit ds -> 0 <= acc -> decimal_value acc ds < 2 ^ 63 ->
  unpack_size (ds ++ "-"%char :: rest) acc i = Some (decimal_value acc ds, (i + length ds)%nat).
Proof.
  induction ds as [|c ds IH]; intros acc rest i Hds Hacc Hlt; simpl.
  - unfold decimal_value. simpl. do 2 f_equal. lia.
  - inversion Hds as [|? ? Hc Hds']; subst.
    rewrite (is_digit_not_dash c Hc).
    pose proof (digit_value_range c Hc) as Hr.
    change (decimal_value acc (c :: ds)) with (decimal_value (acc * 10 + digit_value c) ds) in *.
    pose proof (decimal_value_mono ds (acc * 10 + digit_value c) Hds' ltac:(lia)).
    fold (digit_value c).
    rewrite i64_small by (unfold is_i64; lia).
    rewrite IH by (assumption || lia). do 2 f_equal. lia.
Qed.

Lemma unpack_spec (h instance : list ascii) (sizeBytes : Z) :
  hash_ok h -> 0 <= sizeBytes < 2 ^ 63 ->
  unpack (mkDigest (Sprintf_s_d_s h sizeBytes instance))
  = Some (length h, sizeBytes, (length h + 1 + length (FormatInt sizeBytes))%nat).
Proof.
  intros [Hlen Hnd] Hs. unfold unpack, Sprintf_s_d_s. cbn [value].
  destruct (FormatInt_spec sizeBytes Hs) as [Hdig Hval].
  rewrite drop_app_le by lia.
  rewrite unpack_hash_spec by assumption.
  rewrite length_drop.
  replace (32 + (length h - 32))%nat with (length h) by lia.
  rewrite drop_app_ge by lia.
  replace (length h + 1 - length h)%nat with 1%nat by lia.
  change (drop 1 ("-"%char :: FormatInt sizeBytes ++ "-"%char :: instance))
    with (FormatInt sizeBytes ++ "-"%char :: instance).
  rewrite unpack_size_spec by (assumption || lia).
  rewrite Hval. reflexivity.
Qed.

Lemma GetSizeBytes_spec h instance sizeBytes :
  hash_ok h -> 0 <= sizeBytes < 2 ^ 63 ->
  GetSizeBytes (mkDigest (Sprintf_s_d_s h sizeBytes instance)) = Some sizeBytes.
Proof. intros. unfold GetSizeBytes. rewrite unpack_spec by assumption. reflexivity. Qed.

Lemma GetHashString_spec h instance sizeBytes :
  hash_ok h -> 0 <= sizeBytes < 2 ^ 63 ->
  GetHashString (mkDigest (Sprintf_s_d_s h sizeBytes instance)) = Some h.
Proof.
  intros. unfold GetHashString. rewrite unpack_spec by assumption.
  unfold Sprintf_s_d_s. cbn [value]. rewrite take_app_length. reflexivity.
Qed.

Lemma GetInstance_spec h instance sizeBytes :
  hash_ok h -> 0 <= sizeBytes < 2 ^ 63 ->
  GetInstance (mkDigest (Sprintf_s_d_s h sizeBytes instance)) = Some instance.
Proof.
  intros. unfold GetInstance. rewrite unpack_spec by assumption.
  unfold Sprintf_s_d_s. cbn [value]. f_equal.
  rewrite drop_app_ge by lia.
  replace (length h + 1 + length (FormatInt sizeBytes) + 1 - length h)%nat
    with (S (length (FormatInt sizeBytes) + 1)) by lia.
  cbn [drop]. rewrite drop_app_ge by lia.
  replace (length (FormatInt sizeBytes) + 1 - length (FormatInt sizeBytes))%nat with 1%nat by lia.
  reflexivity.
Qed.

Lemma is_lower_hex_not_dash c : is_lower_hex c = true -> not_dash c.
Proof.
  unfold is_lower_hex, not_dash, ascii_eqb. intros H.
  apply Ascii.eqb_neq. intros ->. vm_compute in H. discriminate.
Qed.

Lemma forallb_hex_not_dash h : forallb is_lower_hex h = true -> Forall not_dash h.
Proof.
  intros H. apply Forall_forall. intros c Hc.
  apply is_lower_hex_not_dash.
  rewrite forallb_forall in H. apply H. apply list_elem_of_In. exact Hc.
Qed.

Lemma prefixed_hash_ok (prefix h : list ascii) :
  (32 <= length prefix + length h)%nat -> Forall not_dash prefix -> Forall not_dash h ->
  hash_ok (prefix ++ h).
Proof.
  intros Hlen Hp Hh. split.
  - rewrite length_app. lia.
  - apply Forall_drop. apply Forall_app. auto.
Qed.

Lemma B3Z_hash_ok h : blake3zcc_hash_ok h -> hash_ok (s2l "B3Z:" ++ h).
Proof.
  intros [Hlen Hhex]. apply prefixed_hash_ok.
  - simpl. lia.
  - repeat constructor.
  - apply forallb_hex_not_dash. assumption.
Qed.

Lemma B3ZM_hash_ok h : blake3zcc_hash_ok h -> hash_ok (s2l "B3ZM:" ++ h).
Proof.
  intros [Hlen Hhex]. apply prefixed_hash_ok.
  - simpl. lia.
  - repeat constructor.
  - apply forallb_hex_not_dash. assumption.
Qed.

End DigestFormat.

Section DigestConstruction.

Import digest.

(** ** NewDigest *)

Lemma Sprintf_prefix (prefix h instance : list ascii) sizeBytes :
  prefix ++ Sprintf_s_d_s h sizeBytes instance = Sprintf_s_d_s (prefix ++ h) sizeBytes instance.
Proof. unfold Sprintf_s_d_s. rewrite <- app_assoc. reflexivity. Qed.

Lemma HasPrefix_app (prefix s : list ascii) : HasPrefix (prefix ++ s) prefix = true.
Proof.
  induction prefix as [|c prefix IH]; simpl; [destruct s; reflexivity|].
  unfold ascii_eqb. rewrite Ascii.eqb_refl. exact IH.
Qed.

Lemma NewDigest_B3Z instance hash sizeBytes d :
  NewDigest instance (s2l "B3Z:" ++ hash) sizeBytes = inl d ->
  0 <= sizeBytes /\ d = mkDigest (Sprintf_s_d_s (s2l "B3Z:" ++ hash) sizeBytes instance).
Proof.
  unfold NewDigest. rewrite HasPrefix_app.
  change (drop 4 (s2l "B3Z:" ++ hash)) with hash. unfold newDigestBLAKE3ZCC.
  destruct (sizeBytes <? 0) eqn:E; [discriminate|].
  apply Z.ltb_ge in E. intros [= <-]. split; [assumption | reflexivity].
Qed.

(** Every constructor rejects a negative size, whatever the hash. *)
Lemma NewDigest_negative_size instance hash sizeBytes :
  sizeBytes < 0 ->
  exists msg, NewDigest instance hash sizeBytes = inr (Status InvalidArgument msg).
Proof.
  intros H. apply Z.ltb_lt in H.
  unfold NewDigest, newDigestBLAKE3ZCC, newDigestBLAKE3ZCCManifest, newDigestOther.
  rewrite H. destruct (HasPrefix hash (s2l "B3Z:")); [eexists; reflexivity|].
  destruct (HasPrefix hash (s2l "B3ZM:")); eexists; reflexivity.
Qed.

Lemma find_non_hex_None h : forall i, find_non_hex h i = None -> forallb is_lower_hex h = true.
Proof.
  induction h as [|c h IH]; intros i H; [reflexivity|].
  simpl in *. destruct (is_lower_hex c); [|discriminate]. simpl. eauto.
Qed.

(** Without an algorithm prefix, a hash of a length that belongs to no
    known algorithm, or with a character that is not lower case
    hexadecimal, is rejected. *)
Lemma NewDigest_other_malformed instance hash sizeBytes :
  HasPrefix hash (s2l "B3Z:") = false -> HasPrefix hash (s2l "B3ZM:") = false ->
  ~ In (length hash) [32; 40; 64; 96; 128]%nat \/ forallb is_lower_hex hash = false ->
  exists msg, NewDigest instance hash sizeBytes = inr (Status InvalidArgument msg).
Proof.
  intros H1 H2 Hbad. unfold NewDigest. rewrite H1, H2. unfold newDigestOther.
  destruct (sizeBytes <? 0); [eexists; reflexivity|].
  match goal with |- context [if ?c then _ else _] => destruct c eqn:Hlen end;
    [eexists; reflexivity|].
  destruct (find_non_hex hash 0) eqn:Hf; [eexists; reflexivity|].
  exfalso. destruct Hbad as [Hl | Hh].
  - apply Hl. simpl.
    unfold md5_Size, sha1_Size, sha256_Size, sha512_Size384, sha512_Size in Hlen.
    repeat (apply andb_false_iff in Hlen; destruct Hlen as [Hlen | Hlen]);
      apply negb_false_iff, Nat.eqb_eq in Hlen; simpl in Hlen; lia.
  - apply find_non_hex_None in Hf. congruence.
Qed.

(** C5 (evaluation at the failing input): a hash that carries the
    [B3Z:] or [B3ZM:] prefix is not validated at all; [NewDigest]
    accepts characters that are not hexadecimal and any length. *)
Theorem NewDigest_accepts_malformed_BLAKE3ZCC_hash :
  NewDigest (s2l "instance") (s2l "B3Z:zz") 5 = inl (mkDigest (s2l "B3Z:zz-5-instance"))
  /\ NewDigest (s2l "instance") (s2l "B3ZM:not hex!") 5
     = inl (mkDigest (s2l "B3ZM:not hex!-5-instance")).
Proof. split; reflexivity. Qed.

(** ** ToManifest *)

Lemma convertSizeToBlockCount_pos s b :
  0 <= s < 2 ^ 63 -> 0 < b < 2 ^ 63 ->
  convertSizeToBlockCount s b = Some ((s + b - 1) / b).
Proof.
  intros Hs Hb. unfold convertSizeToBlockCount.
  rewrite (u64_small b) by lia. rewrite (u64_small s) by lia.
  destruct (b =? 0) eqn:E; [apply Z.eqb_eq in E; lia|].
  rewrite (u64_small (s + b)) by lia. rewrite (u64_small (s + b - 1)) by lia.
  rewrite i64_small; [reflexivity|].
  unfold is_i64. split.
  - pose proof (Z.div_pos (s + b - 1) b ltac:(lia) ltac:(lia)). lia.
  - apply Z.div_lt_upper_bound; [lia|]. nia.
Qed.

Lemma convertSizeToBlockCount_nonzero s b :
  is_i64 b -> b <> 0 -> is_Some (convertSizeToBlockCount s b).
Proof.
  intros Hb Hnz. unfold convertSizeToBlockCount.
  destruct (u64 b =? 0) eqn:E; [|eexists; reflexivity].
  exfalso. apply Z.eqb_eq in E. unfold u64, is_i64 in *.
  apply Z.mod_divide in E; [|lia]. destruct E as [k Hk].
  assert (k = 0) by lia. lia.
Qed.

Lemma convertSizeToBlockCount_zero s : convertSizeToBlockCount s 0 = None.
Proof. reflexivity. Qed.

Lemma ToManifest_not_BLAKE3ZCC d b :
  HasPrefix (value d) (s2l "B3Z:") = false -> ToManifest d b = Some None.
Proof. intros H. unfold ToManifest. rewrite H. reflexivity. Qed.

(** [ToManifest] on a well formed BLAKE3ZCC digest, step by step. *)
Lemma ToManifest_B3Z instance hash sizeBytes b :
  blake3zcc_hash_ok hash -> 0 <= sizeBytes < 2 ^ 63 ->
  ToManifest (mkDigest (Sprintf_s_d_s (s2l "B3Z:" ++ hash) sizeBytes instance)) b =
  if sizeBytes <=? b then Some None
  else
    match convertSizeToBlockCount sizeBytes b with
    | None => None
    | Some count =>
        let manifestSizeBytes := i64 (count * 64) in
        let manifestSizeBytes :=
          if (0 <? Z.rem sizeBytes b) && (Z.rem sizeBytes b <=? 1024)
          then i64 (manifestSizeBytes + 33) else manifestSizeBytes in
        Some (Some (mkDigest (s2l "B3ZM:" ++ Sprintf_s_d_s hash manifestSizeBytes instance),
                    newBLAKE3ZCCManifestParser instance sizeBytes b
                      (Z.of_nat (length hash) / 2)))
    end.
Proof.
  intros Hh Hs. unfold ToManifest.
  rewrite unpack_spec by (auto using B3Z_hash_ok).
  unfold Sprintf_s_d_s at 1. cbn [value].
  rewrite <- app_assoc. rewrite HasPrefix_app. cbn [negb].
  destruct (sizeBytes <=? b); [reflexivity|].
  destruct (convertSizeToBlockCount sizeBytes b) as [count|]; [|reflexivity].
  assert (Hhash : drop 4 (take (length (s2l "B3Z:" ++ hash))
                    (Sprintf_s_d_s (s2l "B3Z:" ++ hash) sizeBytes instance)) = hash).
  { unfold Sprintf_s_d_s. rewrite take_app_length. reflexivity. }
  assert (Hinst : drop (length (s2l "B3Z:" ++ hash) + 1 + length (FormatInt sizeBytes) + 1)
                    (Sprintf_s_d_s (s2l "B3Z:" ++ hash) sizeBytes instance) = instance).
  { pose proof (GetInstance_spec (s2l "B3Z:" ++ hash) instance sizeBytes
                  (B3Z_hash_ok hash Hh) Hs) as Hi.
    unfold GetInstance in Hi. rewrite unpack_spec in Hi by (auto using B3Z_hash_ok).
    cbn [value] in Hi. congruence. }
  rewrite Hhash, Hinst. reflexivity.
Qed.

Lemma valid_digest_B3Z d :
  valid_digest d -> HasPrefix (value d) (s2l "B3Z:") = true ->
  exists instance hash sizeBytes,
    blake3zcc_hash_ok hash /\ 0 <= sizeBytes < 2 ^ 63
    /\ d = mkDigest (Sprintf_s_d_s (s2l "B3Z:" ++ hash) sizeBytes instance).
Proof.
  intros [Hn | (instance & hash & sizeBytes & Hh & Hlt & Hnew)] Hp; [congruence|].
  apply NewDigest_B3Z in Hnew. destruct Hnew as [Hs ->].
  exists instance, hash, sizeBytes. auto.
Qed.

(** C3 (amended): for every digest the constructors hand out and every
    block size other than zero, [ToManifest] returns, and it returns
    [ok = true] exactly when the digest is a BLAKE3ZCC digest whose
    size is strictly greater than the block size. *)
Theorem ToManifest_ok_iff (d : Digest) (blockSizeBytes : Z) :
  valid_digest d -> is_i64 blockSizeBytes -> blockSizeBytes <> 0 ->
  exists ok,
    ToManifest d blockSizeBytes = Some ok
    /\ (is_Some ok <->
        HasPrefix (value d) (s2l "B3Z:") = true
        /\ exists sizeBytes, GetSizeBytes d = Some sizeBytes /\ blockSizeBytes < sizeBytes).
Proof.
  intros Hv Hb Hnz.
  destruct (HasPrefix (value d) (s2l "B3Z:")) eqn:Hp.
  - destruct (valid_digest_B3Z d Hv Hp) as (instance & hash & sizeBytes & Hh & Hs & ->).
    rewrite ToManifest_B3Z by assumption.
    rewrite GetSizeBytes_spec by (auto using B3Z_hash_ok).
    destruct (sizeBytes <=? blockSizeBytes) eqn:E.
    + apply Z.leb_le in E. exists None. split; [reflexivity|]. split.
      * intros [? ?]. discriminate.
      * intros [_ (s & [= <-] & Hlt)]. lia.
    + apply Z.leb_gt in E.
      destruct (convertSizeToBlockCount_nonzero sizeBytes blockSizeBytes Hb Hnz) as [count Hc].
      rewrite Hc. eexists. split; [reflexivity|]. split.
      * intros _. split; [reflexivity|]. exists sizeBytes. auto.
      * intros _. eexists. reflexivity.
  - exists None. split; [apply ToManifest_not_BLAKE3ZCC; assumption|]. split.
    + intros [? ?]. discriminate.
    + intros [? _]. discriminate.
Qed.

Lemma hex32_ok : blake3zcc_hash_ok hex32.
Proof. split; [simpl; lia | reflexivity]. Qed.

Lemma valid_digest_intro instance hash sizeBytes :
  blake3zcc_hash_ok hash -> 0 <= sizeBytes < 2 ^ 63 ->
  valid_digest (mkDigest (Sprintf_s_d_s (s2l "B3Z:" ++ hash) sizeBytes instance)).
Proof.
  intros Hh Hs. right. exists instance, hash, sizeBytes.
  split; [assumption|]. split; [lia|].
  unfold NewDigest. rewrite HasPrefix_app.
  change (drop 4 (s2l "B3Z:" ++ hash)) with hash. unfold newDigestBLAKE3ZCC.
  destruct (sizeBytes <? 0) eqn:E; [apply Z.ltb_lt in E; lia|].
  reflexivity.
Qed.

Lemma ToManifest_ok_iff_witness :
  exists ok,
    ToManifest (mkDigest (Sprintf_s_d_s (s2l "B3Z:" ++ hex32) 8193 (s2l "instance"))) 8192
    = Some ok
    /\ (is_Some ok <->
        HasPrefix (value (mkDigest (Sprintf_s_d_s (s2l "B3Z:" ++ hex32) 8193 (s2l "instance"))))
                  (s2l "B3Z:") = true
        /\ exists sizeBytes,
             GetSizeBytes (mkDigest (Sprintf_s_d_s (s2l "B3Z:" ++ hex32) 8193 (s2l "instance")))
             = Some sizeBytes /\ 8192 < sizeBytes).
Proof.
  apply (ToManifest_ok_iff
           (mkDigest (Sprintf_s_d_s (s2l "B3Z:" ++ hex32) 8193 (s2l "instance"))) 8192).
  - apply valid_digest_intro; [apply hex32_ok | lia].
  - unfold is_i64. lia.
  - lia.
Defined.

(** C3 (counterexample): with block size zero, a BLAKE3ZCC digest of
    one byte is larger than the block size, yet [ToManifest] does not
    return [ok = true]: it divides by zero. *)
Lemma ToManifest_zero_block_size :
  let d := mkDigest (s2l "B3Z:73c932bec255516b229488d6af3d29fc-1-instance") in
  NewDigest (s2l "instance") (s2l "B3Z:73c932bec255516b229488d6af3d29fc") 1 = inl d
  /\ HasPrefix (value d) (s2l "B3Z:") = true
  /\ GetSizeBytes d = Some 1
  /\ 0 < 1
  /\ ToManifest d 0 = None.
Proof. vm_compute. repeat split; reflexivity. Qed.

(** The one byte boundary of C3. *)
Lemma ToManifest_boundary instance hash b :
  blake3zcc_hash_ok hash -> 0 < b -> b + 1 < 2 ^ 63 ->
  ToManifest (mkDigest (Sprintf_s_d_s (s2l "B3Z:" ++ hash) b instance)) b = Some None
  /\ is_Some (ToManifest (mkDigest (Sprintf_s_d_s (s2l "B3Z:" ++ hash) (b + 1) instance)) b
              ≫= id).
Proof.
  intros Hh Hb Hlt. split.
  - rewrite ToManifest_B3Z by (assumption || lia). rewrite Z.leb_refl. reflexivity.
  - rewrite ToManifest_B3Z by (assumption || lia).
    destruct (b + 1 <=? b) eqn:E; [apply Z.leb_le in E; lia|].
    rewrite convertSizeToBlockCount_pos by lia. eexists. reflexivity.
Qed.

(** C4 (amended): for a BLAKE3ZCC digest of size [S] and a positive
    block size [B] with [S > B], as long as the manifest size fits an
    int64, the manifest digest has size [ceil(S/B) * 64], plus 33
    exactly when [S mod B] lies in (0, 1024]; hash and instance are
    carried over, the contents play no part. *)
Theorem ToManifest_manifest_size (instance hash : list ascii) (S B : Z) (d : Digest) :
  blake3zcc_hash_ok hash ->
  NewDigest instance (s2l "B3Z:" ++ hash) S = inl d ->
  0 < B -> B < S -> S < 2 ^ 63 ->
  (S + B - 1) / B * 64 + 33 < 2 ^ 63 ->
  exists manifestDigest manifestParser,
    ToManifest d B = Some (Some (manifestDigest, manifestParser))
    /\ manifestDigest
       = mkDigest (Sprintf_s_d_s (s2l "B3ZM:" ++ hash) (manifest_size S B) instance)
    /\ GetSizeBytes manifestDigest = Some (manifest_size S B).
Proof.
  intros Hh Hnew HB HBS HS Hfit.
  apply NewDigest_B3Z in Hnew. destruct Hnew as [HS0 ->].
  rewrite ToManifest_B3Z by (assumption || lia).
  destruct (S <=? B) eqn:E; [apply Z.leb_le in E; lia|].
  rewrite convertSizeToBlockCount_pos by lia.
  assert (Hc : 0 <= (S + B - 1) / B) by (apply Z.div_pos; lia).
  rewrite Z.rem_mod_nonneg by lia.
  assert (Hm : 0 <= manifest_size S B < 2 ^ 63).
  { unfold manifest_size. destruct ((0 <? S mod B) && (S mod B <=? 1024)); lia. }
  assert (Hsize :
    (let manifestSizeBytes := i64 ((S + B - 1) / B * 64) in
     if (0 <? S mod B) && (S mod B <=? 1024)
     then i64 (manifestSizeBytes + 33) else manifestSizeBytes) = manifest_size S B).
  { cbv zeta. rewrite (i64_small ((S + B - 1) / B * 64)) by (unfold is_i64; lia).
    unfold manifest_size.
    destruct ((0 <? S mod B) && (S mod B <=? 1024)); [|lia].
    rewrite i64_small by (unfold is_i64; lia). reflexivity. }
  cbv zeta in Hsize |- *. rewrite Hsize.
  eexists _, _. split; [reflexivity|].
  rewrite Sprintf_prefix. split; [reflexivity|].
  apply GetSizeBytes_spec; [apply B3ZM_hash_ok; assumption | assumption].
Qed.

(** Block sizes of 65 bytes and more cannot overflow the manifest size. *)
Lemma manifest_size_fits S B :
  0 <= S < 2 ^ 63 -> 65 <= B -> (S + B - 1) / B * 64 + 33 < 2 ^ 63.
Proof.
  intros HS HB.
  assert ((S + B - 1) / B <= (2 ^ 63 + B) / B).
  { apply Z.div_le_mono; lia. }
  assert ((2 ^ 63 + B) / B = 2 ^ 63 / B + 1).
  { replace (2 ^ 63 + B) with (2 ^ 63 + 1 * B) by lia. rewrite Z.div_add by lia. reflexivity. }
  assert (2 ^ 63 / B <= 2 ^ 63 / 65).
  { apply Z.div_le_compat_l; lia. }
  assert (2 ^ 63 / 65 * 64 + 64 + 33 < 2 ^ 63) by (vm_compute; reflexivity).
  lia.
Qed.

Lemma ToManifest_manifest_size_witness :
  exists manifestDigest manifestParser,
    ToManifest (mkDigest (s2l "B3Z:73c932bec255516b229488d6af3d29fc-16385-instance")) 8192
    = Some (Some (manifestDigest, manifestParser))
    /\ manifestDigest
       = mkDigest (Sprintf_s_d_s (s2l "B3ZM:" ++ hex32) (manifest_size 16385 8192)
                                 (s2l "instance"))
    /\ GetSizeBytes manifestDigest = Some (manifest_size 16385 8192).
Proof.
  apply (ToManifest_manifest_size (s2l "instance") hex32 16385 8192);
    [apply hex32_ok | reflexivity | lia | lia | lia | vm_compute; reflexivity].
Defined.

(** C4 (counterexample): with a block size of one byte the manifest
    size of a blob of 2^58 bytes wraps around to zero, and with block
    size zero [ToManifest] does not return at all. *)
Lemma ToManifest_manifest_size_overflow :
  let d := mkDigest (s2l "B3Z:73c932bec255516b229488d6af3d29fc-288230376151711744-instance") in
  NewDigest (s2l "instance") (s2l "B3Z:73c932bec255516b229488d6af3d29fc") (2 ^ 58) = inl d
  /\ 1 < 2 ^ 58
  /\ (exists manifestDigest manifestParser,
        ToManifest d 1 = Some (Some (manifestDigest, manifestParser))
        /\ GetSizeBytes manifestDigest = Some 0)
  /\ manifest_size (2 ^ 58) 1 = 2 ^ 64
  /\ ToManifest d 0 = None.
Proof.
  cbv zeta. split; [reflexivity|]. split; [lia|]. split; [|split; reflexivity].
  exists (mkDigest (s2l "B3ZM:73c932bec255516b229488d6af3d29fc-0-instance")),
         (newBLAKE3ZCCManifestParser (s2l "instance") (2 ^ 58) 1 16).
  split; vm_compute; reflexivity.
Qed.

End DigestConstruction.

Section Compression.

Import blake3zcc.

(** ** 32 bit words *)

Lemma lt_pow2_log2 a n : 0 < n -> 0 <= a -> a < 2 ^ n <-> Z.log2 a < n.
Proof.
  intros Hn Ha. destruct (Z.eq_dec a 0) as [->|Hnz].
  - change (Z.log2 0) with 0. split; intros _; [lia | apply Z.pow_pos_nonneg; lia].
  - apply Z.log2_lt_pow2. lia.
Qed.

Lemma lor_u32 a b : is_u32 a -> is_u32 b -> is_u32 (Z.lor a b).
Proof.
  unfold is_u32. intros Ha Hb.
  assert (H0 : 0 <= Z.lor a b) by (apply Z.lor_nonneg; lia).
  split; [assumption|].
  apply lt_pow2_log2; [lia | assumption |].
  rewrite Z.log2_lor by lia.
  apply Z.max_lub_lt; apply lt_pow2_log2; lia.
Qed.

Lemma lxor_u32 a b : is_u32 a -> is_u32 b -> is_u32 (Z.lxor a b).
Proof.
  unfold is_u32. intros Ha Hb.
  assert (H0 : 0 <= Z.lxor a b) by (apply Z.lxor_nonneg; lia).
  split; [assumption|].
  apply lt_pow2_log2; [lia | assumption |].
  eapply Z.le_lt_trans; [apply Z.log2_lxor; lia|].
  apply Z.max_lub_lt; apply lt_pow2_log2; lia.
Qed.

Lemma shiftr_u32 a k : 0 <= k -> is_u32 a -> is_u32 (Z.shiftr a k).
Proof.
  unfold is_u32. intros Hk Ha. rewrite Z.shiftr_div_pow2 by assumption.
  assert (0 < 2 ^ k) by (apply Z.pow_pos_nonneg; lia).
  split; [apply Z.div_pos; lia|].
  eapply Z.le_lt_trans; [|apply Ha].
  apply Z.div_le_upper_bound; [lia|]. nia.
Qed.

Lemma RotateLeft32_u32 x k :
  In k [-16; -12; -8; -7] -> is_u32 x -> is_u32 (RotateLeft32 x k).
Proof.
  intros Hk Hx. unfold RotateLeft32.
  apply lor_u32; [apply u32_is_u32|].
  simpl in Hk. destruct Hk as [<-|[<-|[<-|[<-|[]]]]]; apply shiftr_u32; (assumption || (vm_compute; discriminate)).
Qed.

Lemma at_u32 v i : Forall is_u32 v -> is_u32 (at_ v i).
Proof.
  intros H. unfold at_. destruct (nth_in_or_default i v 0) as [Hin | ->].
  - rewrite Forall_forall in H. apply H. apply list_elem_of_In. exact Hin.
  - unfold is_u32. lia.
Qed.

Lemma g_u32 v ia ib ic id m0 m1 :
  Forall is_u32 v -> Forall is_u32 (g v ia ib ic id m0 m1).
Proof.
  intros H. unfold g.
  repeat apply Forall_insert; try assumption.
  - apply u32_is_u32.
  - apply RotateLeft32_u32; [simpl; auto|].
    apply lxor_u32; [|apply u32_is_u32].
    apply RotateLeft32_u32; [simpl; auto|].
    apply lxor_u32; [apply at_u32; assumption | apply u32_is_u32].
  - apply u32_is_u32.
  - apply RotateLeft32_u32; [simpl; auto|].
    apply lxor_u32; [|apply u32_is_u32].
    apply RotateLeft32_u32; [simpl; auto|].
    apply lxor_u32; [apply at_u32; assumption | apply u32_is_u32].
Qed.

Lemma g_length v ia ib ic id m0 m1 : length (g v ia ib ic id m0 m1) = length v.
Proof. unfold g. rewrite !length_insert. reflexivity. Qed.

Lemma rounds_u32 (sched : list (nat * nat * nat * nat * nat * nat)) m : forall v,
  Forall is_u32 v ->
  Forall is_u32
    (fold_left (fun v '(ia, ib, ic, id, i0, i1) => g v ia ib ic id (at_ m i0) (at_ m i1))
               sched v).
Proof.
  induction sched as [|[[[[[ia ib] ic] id] i0] i1] sched IH]; intros v Hv; simpl.
  - assumption.
  - apply IH. apply g_u32. assumption.
Qed.

Lemma is_u32_iv : Forall is_u32 iv.
Proof. repeat constructor; unfold is_u32; lia. Qed.

Lemma compress_length h m t b d : length (compress h m t b d) = 16%nat.
Proof. reflexivity. Qed.

Lemma compress_u32 h m t b d :
  Forall is_u32 h -> is_u32 b -> is_u32 d -> Forall is_u32 (compress h m t b d).
Proof.
  intros Hh Hb Hd. unfold compress.
  match goal with
  | |- context [fold_left ?f schedule ?v0] =>
      assert (Hv : Forall is_u32 (fold_left f schedule v0));
      [apply rounds_u32 | generalize dependent (fold_left f schedule v0)]
  end.
  - repeat (constructor; [first [apply at_u32; (assumption || apply is_u32_iv)
                               | apply u32_is_u32 | assumption]|]).
    constructor.
  - intros v Hv.
    repeat (constructor; [apply lxor_u32; apply at_u32; assumption|]).
    constructor.
Qed.

Lemma truncate_compress_ok h m t b d :
  Forall is_u32 h -> is_u32 b -> is_u32 d -> cv_ok (truncate (compress h m t b d)).
Proof.
  intros Hh Hb Hd. split.
  - unfold truncate. rewrite length_take, compress_length. reflexivity.
  - unfold truncate. apply Forall_take. apply compress_u32; assumption.
Qed.

Lemma iv_ok : cv_ok iv.
Proof. split; [reflexivity | apply is_u32_iv]. Qed.

Lemma concatenate_ok a b : cv_ok a -> cv_ok b -> msg_ok (concatenate a b).
Proof.
  intros [Hla Ha] [Hlb Hb]. unfold concatenate. split.
  - rewrite length_app, !length_take. lia.
  - apply Forall_app. split; apply Forall_take; assumption.
Qed.

(** ** The chaining value stack keeps chaining values *)

Lemma AppendNode_loop_ok st : forall t cv st' cv',
  Forall cv_ok st -> cv_ok cv ->
  AppendNode_loop st t cv = Some (st', cv') -> Forall cv_ok st' /\ cv_ok cv'.
Proof.
  induction st as [|top rest IH]; intros t cv st' cv' Hst Hcv; simpl.
  - destruct (Z.land t 1 =? 0); [|discriminate]. intros [= <- <-]. auto.
  - destruct (Z.land t 1 =? 0); [intros [= <- <-]; auto|].
    inversion Hst; subst. apply IH; [assumption|].
    apply truncate_compress_ok; [apply is_u32_iv | |]; unfold is_u32; vm_compute; split; congruence.
Qed.

Lemma AppendNode_ok s n s' :
  Forall cv_ok (stack s) -> node_in_range n -> AppendNode s n = Some s' ->
  Forall cv_ok (stack s').
Proof.
  intros Hst (Hcv & Hb & Hf). unfold AppendNode.
  destruct (AppendNode_loop _ _ _) as [[st' cv']|] eqn:E; [|discriminate].
  intros [= <-]. simpl.
  apply AppendNode_loop_ok in E; [|assumption|apply truncate_compress_ok; assumption].
  destruct E. constructor; assumption.
Qed.

End Compression.

Section ChunkParsing.

Import blake3zcc.

(** ** Words read from bytes *)

Lemma byte_to_Z_range b : 0 <= byte_to_Z b < 256.
Proof. unfold byte_to_Z. pose proof (Byte.to_N_bounded b). lia. Qed.

Lemma Uint32_u32 (b : list byte) w : LittleEndian.Uint32 b = Some w -> is_u32 w.
Proof.
  destruct b as [|b0 [|b1 [|b2 [|b3 b]]]]; simpl; try discriminate.
  intros [= <-].
  pose proof (byte_to_Z_range b0). pose proof (byte_to_Z_range b1).
  pose proof (byte_to_Z_range b2). pose proof (byte_to_Z_range b3).
  repeat apply lor_u32; unfold is_u32; rewrite ?Z.shiftl_mul_pow2 by lia; lia.
Qed.

Lemma getBlock_ok p :
  length (block p) = 64%nat -> exists m, getBlock p = Some m /\ msg_ok m.
Proof.
  intros Hlen. unfold getBlock.
  destruct (mapM (fun i : nat => LittleEndian.Uint32 (drop (i * 4) (block p))) (seq 0 16))
    as [m|] eqn:E.
  - exists m. split; [reflexivity|]. apply mapM_Some in E. split.
    + apply Forall2_length in E. rewrite <- E. reflexivity.
    + apply Forall_forall. intros w Hw.
      apply list_elem_of_lookup in Hw. destruct Hw as [i Hi].
      destruct (Forall2_lookup_r _ _ _ _ _ E Hi) as (x & _ & Hx).
      eapply Uint32_u32. exact Hx.
  - exfalso. apply mapM_None in E.
    apply Exists_exists in E. destruct E as (i & Hi & Hnone).
    apply list_elem_of_In, in_seq in Hi.
    destruct (Uint32_Some (drop (i * 4) (block p))) as [w Hw].
    { rewrite length_drop. lia. }
    congruence.
Qed.

(** ** ChunkParser.Write *)

Lemma Write_loop_S fuel p b :
  Write_loop (S fuel) p b =
  let '(blk, n) := copy (block p) (Z.to_nat (p_blockSize p)) b in
  let p' := mkParser blk (u32 (p_blockSize p + u32 (Z.of_nat n))) (blocksRemaining p)
                     (chunkChainingValue p) (chunkStart p) (chainingValueStack p) in
  match drop n b with
  | [] => Some p'
  | _ :: _ =>
      match getBlock p' with
      | None => None
      | Some m =>
          if blocksRemaining p =? 1 then
            match AppendNode (chainingValueStack p)
                             (NewChunkNode (chunkChainingValue p) m maximumBlockSize false) with
            | None => None
            | Some s =>
                Write_loop fuel (mkParser blk 0 maximumBlocksPerChunk iv true s) (drop n b)
            end
          else
            Write_loop fuel
              (mkParser blk 0 (blocksRemaining p - 1)
                 (truncate (compress (chunkChainingValue p) m 0 maximumBlockSize
                              (if chunkStart p then Z.lor 0 flagChunkStart else 0)))
                 false (chainingValueStack p)) (drop n b)
      end
  end.
Proof. reflexivity. Qed.

Lemma Write_loop_spec fuel : forall p b,
  parser_ok p ->
  (length b + (if (p_blockSize p =? 64)%Z then 1 else 0) <= fuel)%nat -> (1 <= fuel)%nat ->
  exists p', Write_loop fuel p b = Some p'
             /\ parser_ok p'
             /\ (stack (chainingValueStack p) <> [] -> stack (chainingValueStack p') <> [])
             /\ (chunk_fill p + Z.of_nat (length b) <= 1024 ->
                 chainingValueStack p' = chainingValueStack p)
             /\ (1024 < chunk_fill p + Z.of_nat (length b) ->
                 stack (chainingValueStack p') <> []).
Proof.
  induction fuel as [|fuel IH];
    intros p b (Hlen & Hbs & Hbr & Hcv & Hst & Hsw) Hfuel Hpos; [lia|].
  rewrite Write_loop_S.
  destruct (copy (block p) (Z.to_nat (p_blockSize p)) b) as [blk n] eqn:Hc.
  assert (Hn : n = Nat.min (64 - Z.to_nat (p_blockSize p)) (length b)).
  { pose proof (copy_count (block p) b (Z.to_nat (p_blockSize p))) as C.
    rewrite Hc in C. simpl in C. rewrite Hlen in C. exact C. }
  assert (Hblk : length blk = 64%nat).
  { pose proof (copy_length (block p) b (Z.to_nat (p_blockSize p))) as C.
    rewrite Hc in C. simpl in C. lia. }
  assert (Hbs' : u32 (p_blockSize p + u32 (Z.of_nat n)) = p_blockSize p + Z.of_nat n).
  { rewrite (u32_small (Z.of_nat n)) by (unfold is_u32; lia).
    apply u32_small. unfold is_u32. lia. }
  cbv zeta. rewrite Hbs'.
  destruct (drop n b) as [|x b'] eqn:Hd.
  - (* everything fits into the current block *)
    assert (length b <= n)%nat.
    { apply (f_equal length) in Hd. rewrite length_drop in Hd. simpl in Hd. lia. }
    eexists. split; [reflexivity|]. unfold parser_ok, chunk_fill.
    cbn [block p_blockSize blocksRemaining chunkChainingValue chunkStart chainingValueStack].
    split; [|split; [auto | split; [reflexivity | intros; lia]]].
    split; [assumption|]. split; [lia|]. auto.
  - (* the block is complete and there is more input *)
    apply (f_equal length) in Hd. rewrite length_drop in Hd. cbn [length] in Hd.
    assert (Hn' : Z.of_nat n = 64 - p_blockSize p) by lia.
    destruct (getBlock_ok (mkParser blk (p_blockSize p + Z.of_nat n) (blocksRemaining p)
                (chunkChainingValue p) (chunkStart p) (chainingValueStack p)) Hblk)
      as (m & Hm & Hmok).
    rewrite Hm.
    destruct (blocksRemaining p =? 1) eqn:Hbr1.
    + (* the chunk is complete *)
      apply Z.eqb_eq in Hbr1.
      destruct (AppendNode_total (chainingValueStack p)
                  (NewChunkNode (chunkChainingValue p) m maximumBlockSize false) Hst)
        as (s & Hs & Hsok & Hsne).
      rewrite Hs.
      assert (Hsw' : Forall cv_ok (stack s)).
      { eapply AppendNode_ok; [exact Hsw | | exact Hs].
        destruct Hcv as [_ Hcv]. split; [exact Hcv|].
        split; unfold is_u32; vm_compute; split; congruence. }
      edestruct (IH (mkParser blk 0 maximumBlocksPerChunk iv true s) (x :: b'))
        as (p' & Hp' & Hok' & Hne' & _ & _).
      { unfold parser_ok.
        cbn [block p_blockSize blocksRemaining chunkChainingValue chunkStart chainingValueStack].
        unfold maximumBlocksPerChunk.
        split; [assumption|]. split; [lia|].
        split; [change (1024 / 64) with 16; lia|].
        split; [apply iv_ok|]. auto. }
      { cbn [p_blockSize length]. change (0 =? 64) with false. cbv iota.
        destruct (p_blockSize p =? 64) eqn:E64;
          [apply Z.eqb_eq in E64 | apply Z.eqb_neq in E64]; cbn [length] in *;
          clear - E64 Hfuel Hd Hn' Hbs; lia. }
      { destruct (p_blockSize p =? 64) eqn:E64;
          [apply Z.eqb_eq in E64 | apply Z.eqb_neq in E64]; cbn [length] in *; lia. }
      exists p'. split; [exact Hp'|]. split; [exact Hok'|].
      split; [intros _; apply Hne'; exact Hsne|].
      split; [|intros _; apply Hne'; exact Hsne].
      unfold chunk_fill. intros Hle. exfalso. cbn [length] in *. lia.
    + (* the chunk continues with its next block *)
      apply Z.eqb_neq in Hbr1.
      set (cv' := truncate (compress (chunkChainingValue p) m 0 maximumBlockSize
                              (if chunkStart p then Z.lor 0 flagChunkStart else 0))).
      assert (Hcv' : cv_ok cv').
      { apply truncate_compress_ok; [apply Hcv | |].
        - unfold is_u32. vm_compute. split; congruence.
        - destruct (chunkStart p); unfold is_u32; vm_compute; split; congruence. }
      edestruct (IH (mkParser blk 0 (blocksRemaining p - 1) cv' false (chainingValueStack p))
                    (x :: b')) as (p' & Hp' & Hok' & Hne' & Hsame' & Hover').
      { unfold parser_ok.
        cbn [block p_blockSize blocksRemaining chunkChainingValue chunkStart chainingValueStack].
        split; [assumption|]. split; [lia|]. split; [lia|]. auto. }
      { cbn [p_blockSize length]. change (0 =? 64) with false. cbv iota.
        destruct (p_blockSize p =? 64) eqn:E64;
          [apply Z.eqb_eq in E64 | apply Z.eqb_neq in E64]; cbn [length] in *;
          clear - E64 Hfuel Hd Hn' Hbs; lia. }
      { destruct (p_blockSize p =? 64) eqn:E64;
          [apply Z.eqb_eq in E64 | apply Z.eqb_neq in E64]; cbn [length] in *; lia. }
      exists p'. split; [exact Hp'|]. split; [exact Hok'|].
      unfold chunk_fill in *.
      cbn [block p_blockSize blocksRemaining chunkChainingValue chunkStart chainingValueStack]
        in *.
      split; [exact Hne'|].
      split; [intros Hle; apply Hsame' | intros Hgt; apply Hover']; cbn [length] in *; lia.
Qed.

Lemma NewChunkParser_ok : parser_ok NewChunkParser.
Proof.
  unfold parser_ok, NewChunkParser.
  cbn [block p_blockSize blocksRemaining chunkChainingValue chunkStart chainingValueStack].
  split; [reflexivity|]. split; [lia|].
  split; [unfold maximumBlocksPerChunk; change (1024 / 64) with 16; lia|].
  split; [apply iv_ok|]. split; [apply NewChainingValueStack_ok | constructor].
Qed.

Lemma Write_total p b :
  parser_ok p ->
  exists p', Write p b = Some p'
             /\ parser_ok p'
             /\ (stack (chainingValueStack p) <> [] -> stack (chainingValueStack p') <> [])
             /\ (chunk_fill p + Z.of_nat (length b) <= 1024 ->
                 chainingValueStack p' = chainingValueStack p)
             /\ (1024 < chunk_fill p + Z.of_nat (length b) ->
                 stack (chainingValueStack p') <> []).
Proof.
  intros H. apply Write_loop_spec; [assumption| |lia].
  destruct (p_blockSize p =? 64); lia.
Qed.

(** ** ChunkParser.GetRootNode *)

Lemma GetRootNode_loop_parent st : forall n,
  st <> [] -> Forall cv_ok st -> node_in_range n -> parent_node_ok (GetRootNode_loop st n).
Proof.
  induction st as [|si rest IH]; intros n Hne Hst Hn; [congruence|].
  inversion Hst as [|? ? Hsi Hrest]; subst.
  destruct Hn as (Hcv & Hb & Hf).
  assert (Hm : msg_ok (concatenate si
             (truncate (compress (chainingValue n) (m n) 0 (blockSize n) (flags n))))).
  { apply concatenate_ok; [assumption | apply truncate_compress_ok; assumption]. }
  simpl. destruct rest as [|sj rest].
  - simpl. eexists. split; [reflexivity | exact Hm].
  - apply IH; [discriminate | assumption |].
    split; [apply is_u32_iv|]. split; unfold is_u32; vm_compute; split; congruence.
Qed.

Lemma ChunkParser_GetRootNode_spec p :
  parser_ok p ->
  exists p' n, ChunkParser_GetRootNode p = Some (p', n)
    /\ (stack (chainingValueStack p) = [] -> chunk_node_ok n)
    /\ (stack (chainingValueStack p) <> [] -> parent_node_ok n).
Proof.
  intros (Hlen & Hbs & Hbr & Hcv & Hst & Hsw). unfold ChunkParser_GetRootNode.
  match goal with
  | |- context [getBlock ?q] => destruct (getBlock_ok q) as (m & Hm & Hmok)
  end.
  { cbn [block]. rewrite length_app, length_take, length_replicate, Hlen.
    unfold maximumBlockSize. lia. }
  rewrite Hm. eexists _, _. split; [reflexivity|].
  cbn [block p_blockSize blocksRemaining chunkChainingValue chunkStart chainingValueStack].
  split.
  - intros Hnil. unfold GetRootNode. rewrite Hnil. simpl.
    exists (chunkChainingValue p), m, (p_blockSize p), (chunkStart p). auto.
  - intros Hne. unfold GetRootNode. apply GetRootNode_loop_parent; [assumption..|].
    split; [apply Hcv|]. split; [unfold NewChunkNode; cbn [blockSize]; unfold is_u32; lia|].
    unfold NewChunkNode. cbn [flags].
    destruct (chunkStart p); unfold is_u32; vm_compute; split; congruence.
Qed.

(** The root node of a block that was written in one piece: a chunk
    node up to 1024 bytes, a parent node beyond. *)
Lemma block_root_node (b : list byte) :
  exists p p' n,
    Write NewChunkParser b = Some p /\ ChunkParser_GetRootNode p = Some (p', n)
    /\ ((length b <= 1024)%nat -> chunk_node_ok n)
    /\ ((1024 < length b)%nat -> parent_node_ok n).
Proof.
  destruct (Write_total NewChunkParser b NewChunkParser_ok)
    as (p & Hw & Hok & _ & Hsame & Hover).
  destruct (ChunkParser_GetRootNode_spec p Hok) as (p' & n & Hr & Hchunk & Hparent).
  exists p, p', n. split; [exact Hw|]. split; [exact Hr|].
  change (chunk_fill NewChunkParser) with 0 in *. split.
  - intros Hle. apply Hchunk. rewrite Hsame by lia. reflexivity.
  - intros Hgt. apply Hparent. apply Hover. lia.
Qed.

End ChunkParsing.

Section DigestGenerator.

Import blake3zcc digest.

(** ** Generator *)

Lemma hex_digit_not_B x : ascii_eqb "B" (hex.digit x) = false.
Proof.
  unfold hex.digit. generalize (Z.to_nat x). intros n.
  do 16 (destruct n as [|n]; [reflexivity|]). destruct n; reflexivity.
Qed.

(** A string that does not start with the letter B carries neither
    BLAKE3ZCC prefix. *)
Lemma HasPrefix_not_B (s : list ascii) :
  (forall c s', s = c :: s' -> ascii_eqb "B" c = false) ->
  HasPrefix s (s2l "B3Z:") = false /\ HasPrefix s (s2l "B3ZM:") = false.
Proof.
  intros H. destruct s as [|c s]; [split; reflexivity|].
  specialize (H c s eq_refl).
  change (s2l "B3Z:") with ("B"%char :: s2l "3Z:").
  change (s2l "B3ZM:") with ("B"%char :: s2l "3ZM:").
  cbn [HasPrefix]. rewrite H. split; reflexivity.
Qed.

Lemma newDigestUnchecked_head instance sum sizeBytes c s' :
  value (newDigestUnchecked instance (hex.EncodeToString sum) sizeBytes) = c :: s' ->
  ascii_eqb "B" c = false.
Proof.
  unfold newDigestUnchecked, Sprintf_s_d_s. cbn [value].
  destruct sum as [|b sum]; simpl.
  - intros [= <- _]. reflexivity.
  - intros [= <- _]. apply hex_digit_not_B.
Qed.

Lemma unpack_hash_bounds (s : list ascii) : forall i j,
  unpack_hash s i = Some j -> (i <= j < i + length s)%nat.
Proof.
  induction s as [|c s IH]; intros i j; simpl; [discriminate|].
  destruct (ascii_eqb c "-").
  - intros [= <-]. lia.
  - intros H. apply IH in H. lia.
Qed.

Lemma unpack_hashEnd d hashEnd sizeBytes sizeBytesEnd :
  unpack d = Some (hashEnd, sizeBytes, sizeBytesEnd) ->
  (32 <= hashEnd < length (value d))%nat.
Proof.
  unfold unpack. destruct (unpack_hash (drop 32 (value d)) 32) as [he|] eqn:E; [|discriminate].
  destruct (unpack_size _ _ _) as [[s se]|]; [|discriminate].
  intros [= <- _ _]. apply unpack_hash_bounds in E. rewrite length_drop in E. lia.
Qed.

(** The hash string of a digest starts like the digest itself. *)
Lemma GetHashString_head d hash :
  GetHashString d = Some hash ->
  exists c s' t', value d = c :: s' /\ hash = c :: t'.
Proof.
  unfold GetHashString. destruct (unpack d) as [[[he s] se]|] eqn:E; [|discriminate].
  intros [= <-]. apply unpack_hashEnd in E.
  destruct (value d) as [|c s'] eqn:Hv; [simpl in E; lia|].
  destruct he as [|he]; [lia|]. eexists _, _, _. split; reflexivity.
Qed.

Lemma Hash_Write_ok h p :
  blake3zcc_hash_state_ok h ->
  exists h', Hash_Write h p = Some h' /\ blake3zcc_hash_state_ok h'
             /\ (forall b, h = BlobHasher b -> exists b', h' = BlobHasher b').
Proof.
  destruct h as [b | mh | a w]; simpl; [| |intros []].
  - intros [Hok Hout]. unfold blake3zccBlobHasher_Write.
    destruct (Write_total (bh_p b) p Hok) as (c & Hc & Hok' & _).
    rewrite Hc. simpl. eexists. split; [reflexivity|]. split; [split; assumption|].
    intros ? _. eexists. reflexivity.
  - intros [Hok Hout].
    destruct (blake3zccManifestHasher_Write_total mh p Hok) as (h' & Hh' & Hok' & Ho & _).
    rewrite Hh'. simpl. eexists. split; [reflexivity|]. split; [split; [assumption | lia]|].
    intros ? [=].
Qed.

Lemma Generator_Writes_ok ps : forall dg,
  blake3zcc_hash_state_ok (partialHash dg) ->
  exists dg', Generator_Writes dg ps = Some dg'
              /\ g_instance dg' = g_instance dg
              /\ blake3zcc_hash_state_ok (partialHash dg')
              /\ (forall b, partialHash dg = BlobHasher b ->
                  exists b', partialHash dg' = BlobHasher b').
Proof.
  induction ps as [|p ps IH]; intros dg Hok.
  - exists dg. simpl. split; [reflexivity|]. split; [reflexivity|]. split; [assumption|].
    intros b Hb. exists b. exact Hb.
  - simpl. unfold Generator_Write.
    destruct (Hash_Write_ok (partialHash dg) p Hok) as (h' & Hh' & Hok' & Hkind).
    rewrite Hh'.
    destruct (IH (mkGenerator (g_instance dg) h'
                    (i64 (g_sizeBytes dg + Z.of_nat (length p))))) as (dg' & Hdg' & Hi & Hok'' & Hk).
    { exact Hok'. }
    exists dg'. split; [exact Hdg'|]. split; [exact Hi|]. split; [exact Hok''|].
    intros b Hb. destruct (Hkind b Hb) as [b' Hb']. apply (Hk b'). exact Hb'.
Qed.

Lemma NewHasher_BLAKE3ZCC d hash h :
  GetHashString d = Some hash ->
  HasPrefix hash (s2l "B3Z:") = true \/ HasPrefix hash (s2l "B3ZM:") = true ->
  NewHasher d = Some h ->
  blake3zcc_hash_state_ok h
  /\ (HasPrefix hash (s2l "B3Z:") = true -> exists b, h = BlobHasher b).
Proof.
  intros Hhash Hp. unfold NewHasher. rewrite Hhash.
  destruct (HasPrefix hash (s2l "B3Z:")) eqn:E1.
  - intros [= <-]. split.
    + simpl. split; [apply NewChunkParser_ok|].
      apply Z.div_pos; lia.
    + intros _. eexists. reflexivity.
  - destruct Hp as [Hp | Hp]; [discriminate|]. rewrite Hp. intros [= <-]. split.
    + simpl. split; [apply newBLAKE3ZCCManifestHasher_ok|]. apply Z.div_pos; lia.
    + discriminate.
Qed.

(** C10: a Generator made from a digest whose hash string carries the
    [B3Z:] or the [B3ZM:] prefix takes every write, and the digest that
    [Sum] returns is made of the bare hexadecimal checksum, the number
    of bytes written and the instance: it carries neither prefix, so
    [ToManifest] answers [ok = false] for every block size, and its
    hash string, unlike the one of the digest the Generator was made
    from, does not start with an algorithm prefix.  From a [B3Z:]
    digest [Sum] always returns. *)
Theorem Generator_Sum_drops_prefix (std_sum : StdAlgorithm -> list byte -> list byte)
    (d : Digest) (hash : list ascii) (dg : Generator) (ps : list (list byte)) :
  GetHashString d = Some hash ->
  HasPrefix hash (s2l "B3Z:") = true \/ HasPrefix hash (s2l "B3ZM:") = true ->
  NewGenerator d = Some dg ->
  exists dg',
    Generator_Writes dg ps = Some dg'
    /\ (HasPrefix hash (s2l "B3Z:") = true -> is_Some (Generator_Sum std_sum dg'))
    /\ forall d', Generator_Sum std_sum dg' = Some d' ->
         (exists sum, d' = mkDigest (Sprintf_s_d_s (hex.EncodeToString sum) (g_sizeBytes dg')
                                                   (g_instance dg)))
         /\ HasPrefix (value d') (s2l "B3Z:") = false
         /\ HasPrefix (value d') (s2l "B3ZM:") = false
         /\ (forall blockSizeBytes, ToManifest d' blockSizeBytes = Some None)
         /\ (forall hash', GetHashString d' = Some hash' ->
               HasPrefix hash' (s2l "B3Z:") = false
               /\ HasPrefix hash' (s2l "B3ZM:") = false).
Proof.
  intros Hhash Hp Hnew.
  unfold NewGenerator in Hnew.
  destruct (GetInstance d) as [instance|]; [|discriminate].
  destruct (NewHasher d) as [h|] eqn:Hh; [|discriminate].
  injection Hnew as <-.
  destruct (NewHasher_BLAKE3ZCC d hash h Hhash Hp Hh) as [Hok Hblob].
  destruct (Generator_Writes_ok ps (mkGenerator instance h 0) Hok)
    as (dg' & Hdg' & Hinst & Hok' & Hkind).
  exists dg'. split; [exact Hdg'|]. split.
  - intros Hb3z. destruct (Hblob Hb3z) as [b ->].
    destruct (Hkind b eq_refl) as [b' Hb']. unfold Generator_Sum. rewrite Hb'.
    rewrite Hb' in Hok'. destruct Hok' as [Hpok Hout].
    simpl. unfold blake3zccBlobHasher_Sum.
    destruct (ChunkParser_GetRootNode_spec (bh_p b') Hpok) as (p' & n & Hr & _).
    rewrite Hr. destruct (GetHashValue_Some n (bh_outputSizeBytes b') [] Hout) as [s Hs].
    rewrite Hs. eexists. reflexivity.
  - intros d'. unfold Generator_Sum.
    destruct (Hash_Sum std_sum (partialHash dg') []) as [sum|]; [|discriminate].
    intros [= <-]. cbn [g_instance] in Hinst. rewrite Hinst.
    pose proof (HasPrefix_not_B _ (newDigestUnchecked_head instance sum (g_sizeBytes dg')))
      as [H1 H2].
    split; [exists sum; reflexivity|]. split; [exact H1|]. split; [exact H2|]. split.
    + intros b. apply ToManifest_not_BLAKE3ZCC. exact H1.
    + intros hash' Hh'. apply GetHashString_head in Hh'.
      destruct Hh' as (c & s' & t' & Hv & ->).
      apply HasPrefix_not_B. intros c0 s0 [= <- _].
      eapply newDigestUnchecked_head. exact Hv.
Qed.

Lemma Generator_Sum_drops_prefix_witness :
  exists dg',
    Generator_Writes
      (mkGenerator (s2l "instance") (BlobHasher (newBLAKE3ZCCBlobHasher 16)) 0)
      [[x00; x01]; [x02]] = Some dg'
    /\ (HasPrefix (s2l "B3Z:" ++ hex32) (s2l "B3Z:") = true ->
        is_Some (Generator_Sum (fun _ _ => []) dg'))
    /\ forall d', Generator_Sum (fun _ _ => []) dg' = Some d' ->
         (exists sum, d' = mkDigest (Sprintf_s_d_s (hex.EncodeToString sum) (g_sizeBytes dg')
                                                   (s2l "instance")))
         /\ HasPrefix (value d') (s2l "B3Z:") = false
         /\ HasPrefix (value d') (s2l "B3ZM:") = false
         /\ (forall blockSizeBytes, ToManifest d' blockSizeBytes = Some None)
         /\ (forall hash', GetHashString d' = Some hash' ->
               HasPrefix hash' (s2l "B3Z:") = false
               /\ HasPrefix hash' (s2l "B3ZM:") = false).
Proof.
  apply (Generator_Sum_drops_prefix (fun _ _ => [])
           (mkDigest (Sprintf_s_d_s (s2l "B3Z:" ++ hex32) 3 (s2l "instance")))
           (s2l "B3Z:" ++ hex32)
           (mkGenerator (s2l "instance") (BlobHasher (newBLAKE3ZCCBlobHasher 16)) 0)
           [[x00; x01]; [x02]]);
    [reflexivity | left; reflexivity | reflexivity].
Defined.

(** What [Sum] returns for the three bytes of the witness above. *)
Example Generator_Sum_example :
  match Generator_Writes
          (mkGenerator (s2l "instance") (BlobHasher (newBLAKE3ZCCBlobHasher 16)) 0)
          [[x00; x01]; [x02]] with
  | Some dg' => Generator_Sum (fun _ _ => []) dg'
  | None => None
  end = Some (mkDigest (s2l "e1be4d7a8ab5560aa4199eea339849ba-3-instance")).
Proof. vm_compute. reflexivity. Qed.

End DigestGenerator.

Section ConcatenatingBuffer.

Import digest buffer blobstore.

(** ** The concatenating buffer *)

Section ConcatenatingReadAt.

Context {W SB : Type}.
Variable SB_ReadAt : SB -> nat -> Z -> M W (list byte * option error).

Lemma ReadAt_loop_eq fuel (b : casConcatenatingBuffer) p off read size w :
  GetSizeBytes (cb_digest b) = Some size ->
  ReadAt_loop SB_ReadAt fuel b p off read w =
  if size <=? off then Some ((read, Some EOF), w)
  else if (p =? 0)%nat then Some ((read, None), w)
  else
    match fuel with
    | O => None
    | S fuel' =>
        match fetcher b off w with
        | None => None
        | Some ((smallBuffer, smallBufferOffset), w1) =>
            match SB_ReadAt smallBuffer p (i64 (off - smallBufferOffset)) w1 with
            | None => None
            | Some ((bs, err), w2) =>
                match err with
                | Some (Status c msg) => Some ((read ++ bs, Some (Status c msg)), w2)
                | _ =>
                    if (p <? length bs)%nat then None
                    else ReadAt_loop SB_ReadAt fuel' b (p - length bs)
                           (i64 (off + Z.of_nat (length bs))) (read ++ bs) w2
                end
            end
        end
    end.
Proof.
  intros Hsize.
  destruct fuel as [|fuel]; simpl; unfold bind, lift, ret; rewrite Hsize;
    destruct (size <=? off); try reflexivity;
    destruct (p =? 0)%nat; try reflexivity.
  destruct (fetcher b off w) as [[[sb sbo] w1]|]; [|reflexivity].
  destruct (SB_ReadAt sb p (i64 (off - sbo)) w1) as [[[bs err] w2]|]; [|reflexivity].
  destruct err as [[|c msg]|]; try reflexivity;
    destruct (p <? length bs)%nat; reflexivity.
Qed.

(** What a read that returns has done.  Unless a buffer it read from
    failed, it copied at most [p] bytes and reports end-of-stream
    exactly when it got to the end of the data. *)
Lemma ReadAt_loop_spec (b : casConcatenatingBuffer) size fuel :
  GetSizeBytes (cb_digest b) = Some size ->
  forall p off read w bs err w',
    0 <= off -> off + Z.of_nat p < 2 ^ 63 ->
    ReadAt_loop SB_ReadAt fuel b p off read w = Some ((bs, err), w') ->
    exists more,
      bs = read ++ more
      /\ match err with
         | Some EOF => (length more <= p)%nat /\ size <= off + Z.of_nat (length more)
         | None => length more = p /\ off + Z.of_nat (length more) < size
         | Some (Status _ _) => True
         end.
Proof.
  intros Hsize. induction fuel as [|fuel IH]; intros p off read w bs err w' Hoff Hfit;
    rewrite (ReadAt_loop_eq _ _ _ _ _ size _ Hsize);
    (destruct (size <=? off) eqn:E1;
     [apply Z.leb_le in E1; intros [= <- <- <-]; exists []; rewrite app_nil_r;
      split; [reflexivity|]; simpl; lia|]);
    apply Z.leb_gt in E1;
    (destruct (p =? 0)%nat eqn:E2;
     [apply Nat.eqb_eq in E2; intros [= <- <- <-]; exists []; rewrite app_nil_r;
      split; [reflexivity|]; simpl; lia|]).
  - discriminate.
  - destruct (fetcher b off w) as [[[sb sbo] w1]|]; [|discriminate].
    destruct (SB_ReadAt sb p (i64 (off - sbo)) w1) as [[[bs1 err1] w2]|]; [|discriminate].
    assert (Hcont :
      (if (p <? length bs1)%nat then None
       else ReadAt_loop SB_ReadAt fuel b (p - length bs1)
              (i64 (off + Z.of_nat (length bs1))) (read ++ bs1) w2) = Some ((bs, err), w') ->
      exists more,
        bs = read ++ more
        /\ match err with
           | Some EOF => (length more <= p)%nat /\ size <= off + Z.of_nat (length more)
           | None => length more = p /\ off + Z.of_nat (length more) < size
           | Some (Status _ _) => True
           end).
    { destruct (p <? length bs1)%nat eqn:E3; [discriminate|].
      apply Nat.ltb_ge in E3. intros Hrec.
      rewrite i64_small in Hrec by (unfold is_i64; lia).
      apply IH in Hrec; [|lia|lia].
      destruct Hrec as (more & -> & Herr).
      exists (bs1 ++ more). rewrite app_assoc. split; [reflexivity|].
      rewrite length_app.
      destruct err as [[|c msg]|]; [lia | exact I | lia]. }
    destruct err1 as [[|c msg]|]; [exact Hcont | | exact Hcont].
    intros [= <- <- <-]. exists bs1. split; [reflexivity | exact I].
Qed.

(** C8: [ReadAt] of the concatenating buffer.  A negative offset fails
    with [InvalidArgument] and no byte copied, without touching the
    fetcher; an offset at or beyond the size of the buffer yields
    [io.EOF] and no byte copied, without touching the fetcher; a read
    that starts inside the buffer and returns without one of the
    buffers it read from having failed yields [io.EOF] exactly when
    it got to the end of the data, together with the bytes copied, and
    no error when the slice was filled before the end. *)
Theorem casConcatenatingBuffer_ReadAt_offsets (b : casConcatenatingBuffer) (size : Z)
    (fuel p : nat) (off : Z) (w : W) :
  GetSizeBytes (cb_digest b) = Some size ->
  (off < 0 ->
   exists msg,
     casConcatenatingBuffer_ReadAt SB_ReadAt fuel b p off w
     = Some (([], Some (Status InvalidArgument msg)), w))
  /\ (0 <= off -> size <= off ->
      casConcatenatingBuffer_ReadAt SB_ReadAt fuel b p off w = Some (([], Some EOF), w))
  /\ (0 <= off < size -> off + Z.of_nat p < 2 ^ 63 ->
      forall bs err w',
        casConcatenatingBuffer_ReadAt SB_ReadAt fuel b p off w = Some ((bs, err), w') ->
        match err with
        | Some EOF => (length bs <= p)%nat /\ size <= off + Z.of_nat (length bs)
        | None => length bs = p /\ off + Z.of_nat (length bs) < size
        | Some (Status _ _) => True
        end).
Proof.
  intros Hsize. unfold casConcatenatingBuffer_ReadAt. split; [|split].
  - intros Hneg. apply Z.ltb_lt in Hneg. rewrite Hneg. eexists. reflexivity.
  - intros Hoff Hge. destruct (off <? 0) eqn:E; [apply Z.ltb_lt in E; lia|].
    rewrite (ReadAt_loop_eq _ _ _ _ _ size _ Hsize).
    apply Z.leb_le in Hge. rewrite Hge. reflexivity.
  - intros Hoff Hfit bs err w' Hread.
    destruct (off <? 0) eqn:E; [apply Z.ltb_lt in E; lia|].
    apply (ReadAt_loop_spec b size fuel Hsize) in Hread; [|lia|lia].
    destruct Hread as (more & -> & Herr). exact Herr.
Qed.

End ConcatenatingReadAt.

Lemma casConcatenatingBuffer_ReadAt_offsets_witness :
  (-123 < 0 ->
   exists msg,
     casConcatenatingBuffer_ReadAt pure_ReadAt 5 helloBuffer 5 (-123) tt
     = Some (([], Some (Status InvalidArgument msg)), tt))
  /\ (0 <= -123 -> 5 <= -123 ->
      casConcatenatingBuffer_ReadAt pure_ReadAt 5 helloBuffer 5 (-123) tt
      = Some (([], Some EOF), tt))
  /\ (0 <= -123 < 5 -> -123 + Z.of_nat 5 < 2 ^ 63 ->
      forall bs err w',
        casConcatenatingBuffer_ReadAt pure_ReadAt 5 helloBuffer 5 (-123) tt
        = Some ((bs, err), w') ->
        match err with
        | Some EOF => (length bs <= 5)%nat /\ 5 <= -123 + Z.of_nat (length bs)
        | None => length bs = 5%nat /\ -123 + Z.of_nat (length bs) < 5
        | Some (Status _ _) => True
        end).
Proof.
  apply (casConcatenatingBuffer_ReadAt_offsets pure_ReadAt helloBuffer 5 5 5 (-123) tt).
  reflexivity.
Defined.

(** The reads of the unit tests. *)
Example ReadAt_Success :
  casConcatenatingBuffer_ReadAt pure_ReadAt 3 helloBuffer 3 1 tt
  = Some (([x65; x6c; x6c], None), tt).
Proof. reflexivity. Qed.

Example ReadAt_NegativeOffset :
  casConcatenatingBuffer_ReadAt pure_ReadAt 5 helloBuffer 5 (-123) tt
  = Some (([], Some (Status InvalidArgument
                       (Errorf "Negative read offset: %d" [ArgInt (-123)]))), tt).
Proof. reflexivity. Qed.

Example ReadAt_ReadBeyondEOF :
  casConcatenatingBuffer_ReadAt pure_ReadAt 5 helloBuffer 5 6 tt = Some (([], Some EOF), tt).
Proof. reflexivity. Qed.

Example ReadAt_ShortRead :
  casConcatenatingBuffer_ReadAt pure_ReadAt 5 helloBuffer 5 2 tt
  = Some (([x6c; x6c; x6f], Some EOF), tt).
Proof. reflexivity. Qed.

(** ** Put: a manifest that is too large *)

Section PutTooLarge.

Context {W : Type}.
Variable base : BlobAccess W.

(** C6: when the manifest of a decomposable digest is larger than the
    configured maximum, [Put] fails with [InvalidArgument] and the
    backing store has not been called: the record of the calls that
    reached it, and its state, are what they were. *)
Theorem Put_manifest_too_large (blockSizeBytes maximumManifestSizeBytes : Z)
    (fuel : nat) (digest : Digest) (b : Buffer)
    (manifestDigest : Digest) (manifestParser : blake3zccManifestParser)
    (manifestSizeBytes : Z) (w : W) (calls : list recording.Call) :
  ToManifest digest blockSizeBytes = Some (Some (manifestDigest, manifestParser)) ->
  GetSizeBytes manifestDigest = Some manifestSizeBytes ->
  maximumManifestSizeBytes < manifestSizeBytes ->
  exists msg,
    decomposingBlobAccess_Put
      (NewDecomposingBlobAccess (recording.recordingBlobAccess base)
                                blockSizeBytes maximumManifestSizeBytes)
      fuel digest b (w, calls)
    = Some (Some (Status InvalidArgument msg), (w, calls)).
Proof.
  intros Hm Hs Hlt. unfold decomposingBlobAccess_Put, NewDecomposingBlobAccess.
  cbn [blobstore.blockSizeBytes blobstore.maximumManifestSizeBytes blobstore.base].
  unfold bind, lift, ret. rewrite Hm, Hs.
  apply Z.ltb_lt in Hlt. rewrite Hlt. eexists. reflexivity.
Qed.

End PutTooLarge.

(** The "TooBig" test: block size 8 KiB, at most 2 MiB of manifest, and
    a blob of 256 MiB - 8 KiB + 1 KiB. *)
Lemma Put_manifest_too_large_witness :
  exists msg,
    decomposingBlobAccess_Put
      (NewDecomposingBlobAccess (recording.recordingBlobAccess memory.memoryBlobAccess)
                                8192 (2 * 1024 * 1024))
      0 (mkDigest (s2l "B3Z:469516160d23076b433cc1dd5d1dd628-268428288-instance"))
      (NewBufferFromError (Status Internal (Errorf "unused" [])))
      (∅, [])
    = Some (Some (Status InvalidArgument msg), (∅, [])).
Proof.
  apply (Put_manifest_too_large memory.memoryBlobAccess 8192 (2 * 1024 * 1024) 0
           (mkDigest (s2l "B3Z:469516160d23076b433cc1dd5d1dd628-268428288-instance"))
           (NewBufferFromError (Status Internal (Errorf "unused" [])))
           (mkDigest (s2l "B3ZM:469516160d23076b433cc1dd5d1dd628-2097185-instance"))
           (newBLAKE3ZCCManifestParser (s2l "instance") 268428288 8192 16)
           2097185 ∅ []);
    [vm_compute; reflexivity | vm_compute; reflexivity | lia].
Defined.

End ConcatenatingBuffer.

Section FindMissing.

Import digest buffer blobstore.

(** ** FindMissing *)

Section FindMissingProperties.

Context {W : Type}.
Variable ba : decomposingBlobAccess (W := W).
Variable range_order : gmap Digest (list blobToCheck) -> list (Digest * list blobToCheck).
Hypothesis range_order_perm : forall m, range_order m ≡ₚ map_to_list m.

Local Notation blobs_of l := (list_to_set (map blobDigest l) : gset Digest).

Lemma fold_union_subseteq (pending : gmap Digest (gset Digest)) (l : list Digest) :
  forall acc : gset Digest,
    acc ⊆ fold_left (fun acc blockDigest => acc ∪ default ∅ (pending !! blockDigest)) l acc.
Proof.
  induction l as [|x l IH]; intros acc; simpl; [set_solver|].
  etransitivity; [|apply IH]. set_solver.
Qed.

Lemma finalize_mono q w q' err w' :
  findMissingQueue_finalize ba q w = Some ((q', err), w') ->
  missingComposed q ⊆ missingComposed q'.
Proof.
  unfold findMissingQueue_finalize, bind, ret.
  destruct (FindMissing (base ba) (dom (pending q)) w) as [[[missing|e] w1]|];
    [| |discriminate].
  - intros [= <- <- <-]. simpl. apply fold_union_subseteq.
  - intros [= <- <- <-]. reflexivity.
Qed.

Lemma add_mono q blockDigest blobDigest w q' err w' :
  findMissingQueue_add ba q blockDigest blobDigest w = Some ((q', err), w') ->
  missingComposed q ⊆ missingComposed q'.
Proof.
  unfold findMissingQueue_add, bind, ret.
  destruct (batchSize q <=? Z.of_nat (size (pending q))).
  - destruct (findMissingQueue_finalize ba q w) as [[[q1 [e|]] w1]|] eqn:E;
      [| |discriminate]; apply finalize_mono in E.
    + intros [= <- <- <-]. exact E.
    + intros [= <- <- <-]. exact E.
  - intros [= <- <- <-]. reflexivity.
Qed.

Lemma checkBlocks_mono fuel : forall q manifest blob sizeBytes off w q' err w',
  checkBlocks ba fuel q manifest blob sizeBytes off w = Some ((q', err), w') ->
  missingComposed q ⊆ missingComposed q'.
Proof.
  induction fuel as [|fuel IH]; intros q manifest blob sizeBytes off w q' err w'; simpl;
    (destruct (off <? sizeBytes); [|intros [= <- <- <-]; reflexivity]).
  - discriminate.
  - unfold bind, lift, ret.
    destruct (GetBlockDigest (manifestParser blob) manifest off) as [[bd bo]|];
      [|discriminate].
    destruct (findMissingQueue_add ba q bd (blobDigest blob) w) as [[[q1 [e|]] w1]|] eqn:E;
      [| |discriminate]; apply add_mono in E.
    + intros [= <- <- <-]. exact E.
    + destruct (GetSizeBytes bd) as [bs|]; [|discriminate].
      intros H. apply IH in H. etransitivity; eassumption.
Qed.

Lemma checkBlobs_mono fuel manifest blobs : forall q w q' err w',
  checkBlobs ba fuel q manifest blobs w = Some ((q', err), w') ->
  missingComposed q ⊆ missingComposed q'.
Proof.
  induction blobs as [|blob blobs IH]; intros q w q' err w'; simpl.
  - intros [= <- <- <-]. reflexivity.
  - unfold bind, lift, ret. destruct (GetSizeBytes (blobDigest blob)) as [s|]; [|discriminate].
    destruct (checkBlocks ba fuel q manifest blob s 0 w) as [[[q1 [e|]] w1]|] eqn:E;
      [| |discriminate]; apply checkBlocks_mono in E.
    + intros [= <- <- <-]. exact E.
    + intros H. apply IH in H. etransitivity; eassumption.
Qed.

(** The body of the loop over the manifests, in terms of the outcome
    of loading the manifest. *)
Lemma checkManifest_eq fuel q manifestDigest blobsToCheck w :
  checkManifest ba fuel q manifestDigest blobsToCheck w =
  match load_manifest ba manifestDigest w with
  | None => None
  | Some (inl manifest, w') => checkBlobs ba fuel q manifest blobsToCheck w'
  | Some (inr err, w') =>
      match status_Code err with
      | Some NotFound =>
          Some ((mkFindMissingQueue (blobs_of blobsToCheck ∪ missingComposed q)
                                    (batchSize q) (pending q), None), w')
      | _ =>
          Some ((q, Some (StatusWrapf err "Failed to load manifest %s"
                                      [ArgStr (value manifestDigest)])), w')
      end
  end.
Proof.
  unfold checkManifest, load_manifest, bind, ret.
  destruct (Get (base ba) manifestDigest w) as [[b w']|]; [|reflexivity].
  destruct (Buffer_ToByteSlice b (maximumManifestSizeBytes ba)) as [manifest|err];
    [reflexivity|].
  destruct (status_Code err) as [[]|]; reflexivity.
Qed.

Lemma checkManifest_mono fuel q md blobs w q' err w' :
  checkManifest ba fuel q md blobs w = Some ((q', err), w') ->
  missingComposed q ⊆ missingComposed q'.
Proof.
  rewrite checkManifest_eq.
  destruct (load_manifest ba md w) as [[[manifest|e] w1]|]; [| |discriminate].
  - apply checkBlobs_mono.
  - destruct (status_Code e) as [[]|]; intros [= <- <- <-]; simpl; set_solver.
Qed.

Lemma checkManifests_mono fuel entries : forall q w q' err w',
  checkManifests ba fuel q entries w = Some ((q', err), w') ->
  missingComposed q ⊆ missingComposed q'.
Proof.
  induction entries as [|[md blobs] entries IH]; intros q w q' err w'; simpl.
  - intros [= <- <- <-]. reflexivity.
  - unfold bind, ret.
    destruct (checkManifest ba fuel q md blobs w) as [[[q1 [e|]] w1]|] eqn:E;
      [| |discriminate]; apply checkManifest_mono in E.
    + intros [= <- <- <-]. exact E.
    + intros H. apply IH in H. etransitivity; eassumption.
Qed.

(** A manifest that turns out to be absent when it is loaded puts its
    blobs into the set of missing blobs, and the loop goes on. *)
Lemma checkManifest_NotFound fuel q md blobs w :
  load_NotFound ba md ->
  exists w',
    checkManifest ba fuel q md blobs w
    = Some ((mkFindMissingQueue (blobs_of blobs ∪ missingComposed q)
                                (batchSize q) (pending q), None), w').
Proof.
  intros H. destruct (H w) as (msg & w' & Hl).
  rewrite checkManifest_eq, Hl. simpl. eauto.
Qed.

(** Any other failure to load a manifest ends the loop with the
    error, wrapped. *)
Lemma checkManifest_fails fuel q md blobs err w :
  load_fails ba md err ->
  exists w',
    checkManifest ba fuel q md blobs w
    = Some ((q, Some (StatusWrapf err "Failed to load manifest %s" [ArgStr (value md)])), w').
Proof.
  intros [Hcode H]. destruct (H w) as (w' & Hl).
  rewrite checkManifest_eq, Hl. exists w'.
  destruct (status_Code err) as [[]|]; try reflexivity. congruence.
Qed.

Lemma checkManifests_NotFound fuel entries md blobs : forall q w q' w',
  In (md, blobs) entries -> load_NotFound ba md ->
  checkManifests ba fuel q entries w = Some ((q', None), w') ->
  blobs_of blobs ⊆ missingComposed q'.
Proof.
  induction entries as [|[md1 blobs1] entries IH]; intros q w q' w' Hin Hnf; [destruct Hin|].
  simpl. unfold bind, ret.
  destruct (checkManifest ba fuel q md1 blobs1 w) as [[[q1 [e|]] w1]|] eqn:E;
    [discriminate| |discriminate].
  intros Hrest. destruct Hin as [[= -> ->] | Hin].
  - destruct (checkManifest_NotFound fuel q md blobs w Hnf) as (w2 & Heq).
    rewrite Heq in E. injection E as <- <-.
    apply checkManifests_mono in Hrest. simpl in Hrest. set_solver.
  - eapply IH; eassumption.
Qed.

Lemma checkManifests_fails fuel entries md blobs err : forall q w q' e w',
  In (md, blobs) entries -> load_fails ba md err ->
  checkManifests ba fuel q entries w = Some ((q', e), w') -> e <> None.
Proof.
  induction entries as [|[md1 blobs1] entries IH]; intros q w q' e w' Hin Hf; [destruct Hin|].
  simpl. unfold bind, ret.
  destruct (checkManifest ba fuel q md1 blobs1 w) as [[[q1 [e1|]] w1]|] eqn:E;
    [intros [= <- <- <-]; discriminate| |discriminate].
  intros Hrest. destruct Hin as [[= -> ->] | Hin].
  - destruct (checkManifest_fails fuel q md blobs err w Hf) as (w2 & Heq).
    rewrite Heq in E. discriminate.
  - eapply IH; eassumption.
Qed.

Lemma checkManifests_all_NotFound fuel entries : forall q w,
  Forall (fun e => load_NotFound ba e.1) entries ->
  exists q' w', checkManifests ba fuel q entries w = Some ((q', None), w')
                /\ pending q' = pending q.
Proof.
  induction entries as [|[md blobs] entries IH]; intros q w Hall; simpl.
  - eexists _, _. split; reflexivity.
  - inversion Hall as [|? ? Hnf Hall']; subst. simpl in Hnf.
    destruct (checkManifest_NotFound fuel q md blobs w Hnf) as (w1 & Heq).
    unfold bind. rewrite Heq.
    destruct (IH (mkFindMissingQueue (blobs_of blobs ∪ missingComposed q)
                    (batchSize q) (pending q)) w1 Hall') as (q' & w' & Hq' & Hp).
    exists q', w'. split; [exact Hq' | exact Hp].
Qed.

(** The first loop records every composed digest under its manifest. *)
Lemma collect_spec items : forall s0 i0 s i,
  collect ba items s0 i0 = Some (s, i) ->
  (forall md blobs0, s0 !! md = Some blobs0 ->
     exists blobs, s !! md = Some blobs /\ blobs_of blobs0 ⊆ blobs_of blobs)
  /\ (forall blob md mp, In blob items ->
        ToManifest blob (blockSizeBytes ba) = Some (Some (md, mp)) ->
        exists blobs, s !! md = Some blobs /\ blob ∈ blobs_of blobs).
Proof.
  induction items as [|x items IH]; intros s0 i0 s i; simpl.
  - intros [= <- <-]. split; [|intros ? ? ? []].
    intros md blobs0 H. exists blobs0. split; [assumption | reflexivity].
  - destruct (ToManifest x (blockSizeBytes ba)) as [[[mdx mpx]|]|] eqn:E; [| |discriminate].
    + intros H. apply IH in H. destruct H as [Hkeep Hnew]. split.
      * intros md blobs0 H0.
        destruct (decide (mdx = md)) as [->|Hne].
        -- destruct (Hkeep md (default [] (s0 !! md) ++ [mkBlobToCheck x mpx]))
             as (blobs & Hb & Hsub); [apply lookup_insert_eq|].
           exists blobs. split; [exact Hb|]. rewrite H0 in Hsub. simpl in Hsub.
           rewrite map_app in Hsub. set_solver.
        -- apply Hkeep. rewrite lookup_insert_ne by assumption. exact H0.
      * intros blob md mp [-> | Hin] Hm.
        -- rewrite E in Hm. injection Hm as <- <-.
           destruct (Hkeep mdx (default [] (s0 !! mdx) ++ [mkBlobToCheck blob mpx]))
             as (blobs & Hb & Hsub); [apply lookup_insert_eq|].
           exists blobs. split; [exact Hb|]. rewrite map_app in Hsub. simpl in Hsub.
           set_solver.
        -- eapply Hnew; eassumption.
    + intros H. apply IH in H. destruct H as [Hkeep Hnew]. split; [exact Hkeep|].
      intros blob md mp [-> | Hin] Hm; [congruence|]. eapply Hnew; eassumption.
Qed.

Lemma collect_total items : forall s0 i0,
  Forall (fun d => is_Some (ToManifest d (blockSizeBytes ba))) items ->
  is_Some (collect ba items s0 i0).
Proof.
  induction items as [|x items IH]; intros s0 i0 Hall; simpl; [eexists; reflexivity|].
  inversion Hall as [|? ? [r Hr] Hall']; subst. rewrite Hr.
  destruct r as [[md mp]|]; apply IH; assumption.
Qed.

(** The second loop either keeps a manifest or declares its blobs
    missing. *)
Lemma skipMissing_spec items : forall s m s' m',
  skipMissing items s m = (s', m') ->
  m ⊆ m'
  /\ (forall md blobs, s !! md = Some blobs ->
        (~ In md items /\ s' !! md = Some blobs) \/ blobs_of blobs ⊆ m')
  /\ (forall md blobs, s' !! md = Some blobs -> s !! md = Some blobs).
Proof.
  induction items as [|x items IH]; intros s m s' m'; simpl.
  - intros [= <- <-]. split; [reflexivity|]. split; [|auto].
    intros md blobs H. left. split; [intros []|exact H].
  - intros H. apply IH in H. destruct H as (Hm & Hkeep & Hback). split; [set_solver|].
    split.
    + intros md blobs Hs. destruct (decide (x = md)) as [->|Hne].
      * right. rewrite Hs in Hm. simpl in Hm. set_solver.
      * destruct (Hkeep md blobs) as [[Hni Hs'] | Hsub].
        -- rewrite lookup_delete_ne by assumption. exact Hs.
        -- left. split; [|exact Hs']. intros [? | ?]; [congruence | contradiction].
        -- right. exact Hsub.
    + intros md blobs Hs'. apply Hback in Hs'.
      destruct (decide (x = md)) as [->|Hne].
      * rewrite lookup_delete_eq in Hs'. discriminate.
      * rewrite lookup_delete_ne in Hs' by assumption. exact Hs'.
Qed.

Lemma skipMissing_keeps items : forall s m s' m' md,
  skipMissing items s m = (s', m') -> ~ In md items -> s' !! md = s !! md.
Proof.
  induction items as [|x items IH]; intros s m s' m' md; simpl.
  - intros [= <- <-] _. reflexivity.
  - intros H Hni. apply IH with (md := md) in H; [|tauto].
    rewrite H. apply lookup_delete_ne. intros ->. apply Hni. left. reflexivity.
Qed.

Lemma In_range_order m md blobs : m !! md = Some blobs -> In (md, blobs) (range_order m).
Proof.
  intros H. apply list_elem_of_In. rewrite range_order_perm.
  apply elem_of_map_to_list. exact H.
Qed.

Lemma range_order_In m md blobs : In (md, blobs) (range_order m) -> m !! md = Some blobs.
Proof.
  intros H. apply list_elem_of_In in H. rewrite range_order_perm in H.
  apply elem_of_map_to_list in H. exact H.
Qed.

(** C7: loading the manifests in [FindMissing].  A manifest that
    turns out to be absent ([NotFound]) when it is loaded makes the
    loop go on with its composed digests added to the missing ones,
    and every other failure ends the loop with the wrapped error
    (first two parts).  For the call as a whole: when it returns a
    set, the set holds every requested composed digest whose manifest
    is absent when loaded; when all manifests are absent when loaded
    and the backing store answers its [FindMissing] calls, the call
    returns a set; and when the manifest of a requested digest is
    reported present but fails to load with another error, the call
    does not return a set. *)
Theorem FindMissing_manifest_load (fuel : nat) (digests : gset Digest) (w : W) :
  (forall q md blobs w1,
     load_NotFound ba md ->
     exists w2,
       checkManifest ba fuel q md blobs w1
       = Some ((mkFindMissingQueue (blobs_of blobs ∪ missingComposed q)
                                   (batchSize q) (pending q), None), w2))
  /\ (forall q md blobs err w1,
        load_fails ba md err ->
        exists w2,
          checkManifest ba fuel q md blobs w1
          = Some ((q, Some (StatusWrapf err "Failed to load manifest %s"
                                        [ArgStr (value md)])), w2))
  /\ (forall result w' blob md mp,
        decomposingBlobAccess_FindMissing ba range_order fuel digests w
        = Some (inl result, w') ->
        blob ∈ digests ->
        ToManifest blob (blockSizeBytes ba) = Some (Some (md, mp)) ->
        load_NotFound ba md ->
        blob ∈ result)
  /\ ((forall d, d ∈ digests -> is_Some (ToManifest d (blockSizeBytes ba))) ->
      base_FindMissing_succeeds ba ->
      (forall md, load_NotFound ba md) ->
      exists result w',
        decomposingBlobAccess_FindMissing ba range_order fuel digests w
        = Some (inl result, w'))
  /\ (forall r w' blob md mp err,
        decomposingBlobAccess_FindMissing ba range_order fuel digests w = Some (r, w') ->
        blob ∈ digests ->
        ToManifest blob (blockSizeBytes ba) = Some (Some (md, mp)) ->
        reported_present ba md ->
        load_fails ba md err ->
        exists e, r = inr e).
Proof.
  split; [intros; apply checkManifest_NotFound; assumption|].
  split; [intros; apply checkManifest_fails; assumption|].
  split; [|split].
  - (* absent manifests are counted as missing *)
    intros result w' blob md mp Hfind Hblob Hm Hnf.
    unfold decomposingBlobAccess_FindMissing, bind, lift, ret in Hfind.
    destruct (collect ba (elements digests) ∅ ∅) as [[s i]|] eqn:Hc; [|discriminate].
    destruct (FindMissing (base ba) i w) as [[[missingInitially|e] w1]|]; [| |discriminate];
      [|discriminate].
    destruct (skipMissing (elements missingInitially) s ∅) as [s' composed] eqn:Hs.
    destruct (checkManifests ba fuel (mkFindMissingQueue composed 1000 ∅)
                (range_order s') w1) as [[[q [e|]] w2]|] eqn:Hchk; [| |discriminate];
      [discriminate|].
    destruct (findMissingQueue_finalize ba q w2) as [[[q' [e|]] w3]|] eqn:Hfin;
      [| |discriminate]; [discriminate|].
    injection Hfind as <- <-.
    apply collect_spec in Hc. destruct Hc as [_ Hnew].
    destruct (Hnew blob md mp) as (blobs & Hb & Hin);
      [apply list_elem_of_In, elem_of_elements; exact Hblob | exact Hm |].
    apply skipMissing_spec in Hs. destruct Hs as (_ & Hkeep & _).
    apply finalize_mono in Hfin.
    destruct (Hkeep md blobs Hb) as [[_ Hs'] | Hsub].
    + pose proof (checkManifests_NotFound fuel _ md blobs _ _ _ _
                    (In_range_order _ _ _ Hs') Hnf Hchk) as Hq.
      set_solver.
    + apply checkManifests_mono in Hchk. simpl in Hchk. set_solver.
  - (* absent manifests alone do not fail the call *)
    intros Htotal Hbase Hall.
    unfold decomposingBlobAccess_FindMissing, bind, lift, ret.
    destruct (collect_total (elements digests) ∅ ∅) as [[s i] Hc].
    { apply Forall_forall. intros d Hd. apply Htotal. apply elem_of_elements. exact Hd. }
    rewrite Hc.
    destruct (Hbase i w) as (missingInitially & w1 & Hi). rewrite Hi.
    destruct (skipMissing (elements missingInitially) s ∅) as [s' composed].
    destruct (checkManifests_all_NotFound fuel (range_order s')
                (mkFindMissingQueue composed 1000 ∅) w1) as (q & w2 & Hq & _).
    { apply Forall_forall. intros e _. apply Hall. }
    rewrite Hq.
    unfold findMissingQueue_finalize, bind, ret.
    destruct (Hbase (dom (pending q)) w2) as (missing & w3 & Hf). rewrite Hf.
    eexists _, _. reflexivity.
  - (* other failures are not recovered *)
    intros r w' blob md mp err Hfind Hblob Hm Hpresent Hfails.
    unfold decomposingBlobAccess_FindMissing, bind, lift, ret in Hfind.
    destruct (collect ba (elements digests) ∅ ∅) as [[s i]|] eqn:Hc; [|discriminate].
    destruct (FindMissing (base ba) i w) as [[[missingInitially|e] w1]|] eqn:Hi;
      [| |discriminate]; [|injection Hfind as <- <-; eauto].
    destruct (skipMissing (elements missingInitially) s ∅) as [s' composed] eqn:Hs.
    destruct (checkManifests ba fuel (mkFindMissingQueue composed 1000 ∅)
                (range_order s') w1) as [[[q [e|]] w2]|] eqn:Hchk; [| |discriminate];
      [injection Hfind as <- <-; eauto|].
    exfalso.
    apply collect_spec in Hc. destruct Hc as [_ Hnew].
    destruct (Hnew blob md mp) as (blobs & Hb & Hin);
      [apply list_elem_of_In, elem_of_elements; exact Hblob | exact Hm |].
    assert (Hs' : s' !! md = Some blobs).
    { rewrite (skipMissing_keeps _ _ _ _ _ md Hs); [exact Hb|].
      intros Hin'. apply list_elem_of_In, elem_of_elements in Hin'.
      exact (Hpresent _ _ _ _ Hi Hin'). }
    exact (checkManifests_fails fuel _ md blobs err _ _ _ _ _
             (In_range_order _ _ _ Hs') Hfails Hchk eq_refl).
Qed.

End FindMissingProperties.

Lemma FindMissing_manifest_load_witness :
  exists result w',
    decomposingBlobAccess_FindMissing
      (NewDecomposingBlobAccess vanishedBlobAccess 2048 1000000)
      map_to_list 10 {[composedDigest]} tt
    = Some (inl result, w')
    /\ composedDigest ∈ result.
Proof.
  pose proof (FindMissing_manifest_load
                (NewDecomposingBlobAccess vanishedBlobAccess 2048 1000000)
                map_to_list (fun m => reflexivity (map_to_list m))
                10 {[composedDigest]} tt) as (_ & _ & Hmissing & Hreturns & _).
  assert (Hnf : forall md,
             load_NotFound (NewDecomposingBlobAccess vanishedBlobAccess 2048 1000000) md).
  { intros md w. eexists _, _. reflexivity. }
  destruct Hreturns as (result & w' & Hr).
  - intros d Hd. apply elem_of_singleton in Hd. subst d.
    eexists. vm_compute. reflexivity.
  - intros digests w. eexists _, _. reflexivity.
  - exact Hnf.
  - exists result, w'. split; [exact Hr|].
    eapply Hmissing.
    + exact Hr.
    + apply elem_of_singleton. reflexivity.
    + vm_compute. reflexivity.
    + apply Hnf.
Defined.

End FindMissing.

Section AlignedBlobs.

Import digest buffer blobstore.

(** ** The final block of a blob whose size is a multiple of the block size *)

Lemma unmarshal_words_short n : forall entry : list byte,
  (length entry < 4 * n)%nat -> unmarshal_words n entry = None.
Proof.
  induction n as [|n IH]; intros entry H; [lia|].
  simpl unmarshal_words.
  destruct entry as [|b0 [|b1 [|b2 [|b3 entry]]]]; try reflexivity.
  cbn [LittleEndian.Uint32]. rewrite IH; [reflexivity|].
  rewrite length_drop. cbn [length] in *. lia.
Qed.

(** A chunk node takes 97 bytes: decoding one from a parent node's 64
    bytes runs past the end of the slice. *)
Lemma unmarshalBLAKE3ZCCChunkNode_short (entry : list byte) :
  (length entry < 96)%nat -> unmarshalBLAKE3ZCCChunkNode entry = None.
Proof.
  intros H. unfold unmarshalBLAKE3ZCCChunkNode.
  destruct (le_lt_dec 32 (length entry)) as [Hge|Hlt].
  - destruct (unmarshal_words_Some 8 entry) as (ws & Hws & _); [lia|].
    rewrite Hws. rewrite unmarshal_words_short; [reflexivity|].
    rewrite length_drop. lia.
  - rewrite unmarshal_words_short by lia. reflexivity.
Qed.

(** The size [GetBlockDigest] works out for the final block of a blob of
    [S] bytes is [S % B], which is zero when [B] divides [S]: the entry
    of the final block, a parent node for blocks of more than 1024
    bytes, is then decoded as a chunk node, and [GetBlockDigest]
    panics. *)
Lemma GetBlockDigest_aligned_final_block (instance : list ascii) (s b : Z)
    (hashSizeBytes : Z) (manifest : list byte) :
  0 < b -> 0 < s -> s + b < 2 ^ 63 -> s mod b = 0 ->
  Z.of_nat (length manifest) = s / b * 64 -> s / b * 64 < 2 ^ 63 ->
  GetBlockDigest (newBLAKE3ZCCManifestParser instance s b hashSizeBytes) manifest (s - b)
  = None.
Proof.
  intros HB HS Hfit Hdiv Hlen Hlen63.
  unfold GetBlockDigest, newBLAKE3ZCCManifestParser.
  cbn [digest.blockSizeBytes digest.blobSizeBytes].
  destruct (b =? 0) eqn:EB; [apply Z.eqb_eq in EB; lia|].
  rewrite convertSizeToBlockCount_pos by lia.
  assert (Hq : s = b * (s / b)) by (apply Z.div_exact; lia).
  assert (Hpos : 1 <= s / b) by nia.
  assert (Hle : b <= s) by nia.
  assert (Hblock : Z.quot (s - b) b = s / b - 1).
  { rewrite Z.quot_div_nonneg by lia.
    replace (s - b) with ((s / b - 1) * b) by lia.
    apply Z.div_mul. lia. }
  assert (Hcount : (s + b - 1) / b = s / b).
  { replace (s + b - 1) with ((s / b) * b + (b - 1)) by lia.
    rewrite Z.div_add_l by lia. rewrite (Z.div_small (b - 1)) by lia. lia. }
  rewrite Hblock, Hcount.
  rewrite (i64_small (s / b - 1)) by (unfold is_i64; lia).
  rewrite Z.eqb_refl.
  rewrite Z.rem_mod_nonneg by lia. rewrite Hdiv.
  change (0 <=? 1024) with true. cbv iota.
  unfold blake3zccParentNodeSizeBytes.
  rewrite (i64_small ((s / b - 1) * 64)) by (unfold is_i64; lia).
  destruct ((s / b - 1) * 64 <? 0) eqn:E1; [apply Z.ltb_lt in E1; lia|].
  destruct (Z.of_nat (length manifest) <? (s / b - 1) * 64) eqn:E2;
    [apply Z.ltb_lt in E2; lia|].
  cbn [orb].
  rewrite unmarshalBLAKE3ZCCChunkNode_short; [reflexivity|].
  rewrite length_drop. lia.
Qed.

(** C2, at a blob of two full blocks: the manifest of the 4096 bytes
    0, 1, ..., 250, 0, 1, ... at a block size of 2048 bytes is built by
    two [AppendBlockDigest] calls, which return digests of size 2048.
    [GetBlockDigest] returns the first of them at offset 0, and panics
    at offset 2048, the start of the final block. *)
Theorem GetBlockDigest_final_block_of_aligned_blob :
  let mp := newBLAKE3ZCCManifestParser [] 4096 2048 32 in
  let b := identity251 4096 in
  exists manifest d0 d1,
    AppendBlockDigests mp [] [take 2048 b; drop 2048 b] = Some (manifest, [d0; d1])
    /\ length manifest = 128%nat
    /\ GetSizeBytes d0 = Some 2048
    /\ GetSizeBytes d1 = Some 2048
    /\ GetBlockDigest mp manifest 0 = Some (d0, 0)
    /\ GetBlockDigest mp manifest 2048 = None.
Proof.
  intros mp b. eexists _, _, _.
  split; [vm_compute; reflexivity|].
  vm_compute. repeat split; reflexivity.
Qed.

(** With one more byte the final block is a block of its own, and every
    block's digest is found again. *)
Example GetBlockDigest_unaligned_blob :
  let mp := newBLAKE3ZCCManifestParser [] 4097 2048 32 in
  let b := identity251 4097 in
  exists manifest d0 d1 d2,
    AppendBlockDigests mp [] [take 2048 b; take 2048 (drop 2048 b); drop 4096 b]
    = Some (manifest, [d0; d1; d2])
    /\ length manifest = 225%nat
    /\ GetSizeBytes d2 = Some 1
    /\ GetBlockDigest mp manifest 0 = Some (d0, 0)
    /\ GetBlockDigest mp manifest 2048 = Some (d1, 2048)
    /\ GetBlockDigest mp manifest 4096 = Some (d2, 4096).
Proof.
  intros mp b. eexists _, _, _, _.
  split; [vm_compute; reflexivity|].
  vm_compute. repeat split; reflexivity.
Qed.

(** ** Put followed by Get *)

(** C1, at the same blob: [Put] of the 4096 bytes under their BLAKE3ZCC
    digest, at a block size of 2048 bytes and into an empty store,
    returns without an error, and [Get] of the digest gives a buffer
    whose first block reads back.  Reading the whole blob panics,
    whatever the number of iterations allowed: the second block's
    digest cannot be taken from the manifest. *)
Theorem Put_then_Get_of_aligned_blob :
  let b := identity251 4096 in
  Put_then_ReadAt 2048 1000000 10 10 b 2048 0 = Some (inr (take 2048 b, None))
  /\ forall fuel, Put_then_ReadAt 2048 1000000 10 fuel b 4096 0 = None.
Proof.
  intros b. split; [vm_compute; reflexivity|].
  intros [|[|fuel]]; vm_compute; reflexivity.
Qed.

(** A blob of one block and one byte is read back as it was stored (a
    read that ends at the end of the blob reports [EOF]). *)
Example Put_then_Get_of_unaligned_blob :
  let b := identity251 2049 in
  Put_then_ReadAt 2048 1000000 10 10 b 2049 0 = Some (inr (b, Some EOF)).
Proof. vm_compute. reflexivity. Qed.

End AlignedBlobs.

Section DigestAccessors.

Import digest.

(** ** Construction of digests and their accessors *)

Lemma HasPrefix_true (s prefix : list ascii) :
  HasPrefix s prefix = true -> s = prefix ++ drop (length prefix) s.
Proof.
  revert s. induction prefix as [|p prefix IH]; intros s H; [reflexivity|].
  destruct s as [|c s]; [discriminate|]. cbn [HasPrefix] in H.
  apply andb_true_iff in H. destruct H as [Hc Hs].
  apply Ascii.eqb_eq in Hc. subst c. cbn [length drop app]. f_equal. apply IH, Hs.
Qed.

(** Whatever the algorithm, the digest is the hash, the size and the
    instance joined by dashes. *)
Lemma NewDigest_value instance hash sizeBytes d :
  NewDigest instance hash sizeBytes = inl d ->
  0 <= sizeBytes /\ d = mkDigest (Sprintf_s_d_s hash sizeBytes instance).
Proof.
  unfold NewDigest, newDigestBLAKE3ZCC, newDigestBLAKE3ZCCManifest, newDigestOther.
  destruct (sizeBytes <? 0) eqn:E.
  - repeat match goal with |- context [if ?c then _ else _] => destruct c end; discriminate.
  - apply Z.ltb_ge in E.
    destruct (HasPrefix hash (s2l "B3Z:")) eqn:H1.
    { intros [= <-]. split; [assumption|]. f_equal.
      rewrite (HasPrefix_true _ _ H1) at 2. reflexivity. }
    destruct (HasPrefix hash (s2l "B3ZM:")) eqn:H2.
    { intros [= <-]. split; [assumption|]. f_equal.
      rewrite (HasPrefix_true _ _ H2) at 2. reflexivity. }
    match goal with |- context [if ?c then _ else _] => destruct c end; [discriminate|].
    destruct (find_non_hex hash 0); [discriminate|].
    intros [= <-]. split; [assumption | reflexivity].
Qed.

Lemma find_non_hex_forallb h : forall i,
  forallb is_lower_hex h = true -> find_non_hex h i = None.
Proof.
  induction h as [|c h IH]; intros i H; [reflexivity|].
  simpl in *. apply andb_true_iff in H. destruct H as [-> H]. auto.
Qed.

Lemma standard_hash_length hash :
  standard_hash hash = true ->
  In (length hash) [32; 40; 64; 96; 128]%nat /\ forallb is_lower_hex hash = true.
Proof.
  unfold standard_hash. intros H. apply andb_true_iff in H. destruct H as [Hl Hh].
  split; [|exact Hh].
  repeat (apply orb_true_iff in Hl; destruct Hl as [Hl | Hl]);
    apply Nat.eqb_eq in Hl; rewrite Hl; simpl; tauto.
Qed.

Lemma standard_hash_false hash :
  standard_hash hash = false ->
  ~ In (length hash) [32; 40; 64; 96; 128]%nat \/ forallb is_lower_hex hash = false.
Proof.
  unfold standard_hash. intros H. apply andb_false_iff in H. destruct H as [Hl | Hh].
  - left. intros Hin.
    repeat (apply orb_false_iff in Hl; destruct Hl as [Hl ?]).
    repeat match goal with H : (_ =? _)%nat = false |- _ => apply Nat.eqb_neq in H end.
    simpl in Hin. lia.
  - right. exact Hh.
Qed.

Lemma standard_hash_no_prefix hash :
  standard_hash hash = true ->
  HasPrefix hash (s2l "B3Z:") = false /\ HasPrefix hash (s2l "B3ZM:") = false.
Proof.
  intros H. apply standard_hash_length in H. destruct H as [_ Hh].
  apply HasPrefix_not_B. intros c s' ->. simpl in Hh.
  apply andb_true_iff in Hh. destruct Hh as [Hc _].
  unfold ascii_eqb. apply Ascii.eqb_neq. intros <-. vm_compute in Hc. discriminate.
Qed.

Lemma standard_hash_ok hash : standard_hash hash = true -> hash_ok hash.
Proof.
  intros H. apply standard_hash_length in H. destruct H as [Hl Hh]. split.
  - simpl in Hl. lia.
  - apply Forall_drop, forallb_hex_not_dash, Hh.
Qed.

Lemma NewDigest_standard instance hash sizeBytes :
  standard_hash hash = true -> 0 <= sizeBytes ->
  NewDigest instance hash sizeBytes = inl (mkDigest (Sprintf_s_d_s hash sizeBytes instance)).
Proof.
  intros Hstd Hs. destruct (standard_hash_no_prefix _ Hstd) as [H1 H2].
  destruct (standard_hash_length _ Hstd) as [Hl Hh].
  unfold NewDigest. rewrite H1, H2. unfold newDigestOther.
  destruct (sizeBytes <? 0) eqn:E; [apply Z.ltb_lt in E; lia|].
  rewrite (find_non_hex_forallb _ 0 Hh).
  match goal with |- context [if ?c then _ else _] => destruct c eqn:Hc end; [|reflexivity].
  exfalso. unfold md5_Size, sha1_Size, sha256_Size, sha512_Size384, sha512_Size in Hc.
  repeat (apply andb_true_iff in Hc; destruct Hc as [Hc ?]).
  repeat match goal with H : negb _ = true |- _ =>
                           apply negb_true_iff, Nat.eqb_neq in H end.
  simpl in *. lia.
Qed.

(** A hash without an algorithm prefix is accepted exactly when it is
    the hash of a standard algorithm and the size is not negative; the
    digest is then the hash, the size and the instance joined by
    dashes, and every refusal is an [InvalidArgument] error. *)
Theorem NewDigest_standard_hash_iff (instance hash : list ascii) (sizeBytes : Z) :
  HasPrefix hash (s2l "B3Z:") = false -> HasPrefix hash (s2l "B3ZM:") = false ->
  if standard_hash hash && (0 <=? sizeBytes)
  then NewDigest instance hash sizeBytes
       = inl (mkDigest (Sprintf_s_d_s hash sizeBytes instance))
  else exists msg, NewDigest instance hash sizeBytes = inr (Status InvalidArgument msg).
Proof.
  intros H1 H2. destruct (standard_hash hash) eqn:Hstd; cbn [andb].
  - destruct (0 <=? sizeBytes) eqn:E.
    + apply Z.leb_le in E. apply NewDigest_standard; assumption.
    + apply Z.leb_gt in E. apply NewDigest_negative_size. exact E.
  - apply NewDigest_other_malformed; try assumption.
    apply standard_hash_false. exact Hstd.
Qed.

Lemma NewDigest_standard_hash_iff_witness :
  NewDigest (s2l "instance") (s2l "8b1a9953c4611296a827abf8c47804d7") 5
  = inl (mkDigest (s2l "8b1a9953c4611296a827abf8c47804d7-5-instance")).
Proof.
  exact (NewDigest_standard_hash_iff (s2l "instance")
           (s2l "8b1a9953c4611296a827abf8c47804d7") 5 eq_refl eq_refl).
Defined.

(** What [NewDigest] accepted is found again by the accessors, as long
    as [unpack] understands the hash: always for the standard
    algorithms, and for a hash of at least 32 characters that holds no
    dash from its 33rd character on otherwise. *)
Theorem Digest_accessors (instance hash : list ascii) (sizeBytes : Z) (d : Digest) :
  NewDigest instance hash sizeBytes = inl d ->
  sizeBytes < 2 ^ 63 ->
  (HasPrefix hash (s2l "B3Z:") = false /\ HasPrefix hash (s2l "B3ZM:") = false)
  \/ hash_ok hash ->
  GetInstance d = Some instance
  /\ GetHashString d = Some hash
  /\ GetSizeBytes d = Some sizeBytes
  /\ GetKey d KeyWithoutInstance = Some (hash ++ "-"%char :: FormatInt sizeBytes)
  /\ GetKey d KeyWithInstance = Some (value d).
Proof.
  intros Hnew Hlt Hhash.
  assert (Hok : hash_ok hash).
  { destruct Hhash as [[H1 H2] | Hok]; [|exact Hok].
    destruct (standard_hash hash) eqn:Hstd; [apply standard_hash_ok, Hstd|].
    destruct (NewDigest_other_malformed instance hash sizeBytes H1 H2
                (standard_hash_false _ Hstd)) as [msg Hmsg].
    congruence. }
  apply NewDigest_value in Hnew. destruct Hnew as [Hs ->].
  split; [apply GetInstance_spec; [assumption | lia]|].
  split; [apply GetHashString_spec; [assumption | lia]|].
  split; [apply GetSizeBytes_spec; [assumption | lia]|].
  split; [|reflexivity].
  unfold GetKey. rewrite unpack_spec by (assumption || lia).
  unfold Sprintf_s_d_s. cbn [value]. f_equal.
  rewrite take_app_ge by lia. f_equal.
  replace (length hash + 1 + length (FormatInt sizeBytes) - length hash)%nat
    with (S (length (FormatInt sizeBytes))) by lia.
  cbn [take]. f_equal. rewrite take_app_length. reflexivity.
Qed.

Lemma Digest_accessors_witness :
  let d := mkDigest (s2l "8b1a9953c4611296a827abf8c47804d7-5-a-b") in
  GetInstance d = Some (s2l "a-b")
  /\ GetHashString d = Some (s2l "8b1a9953c4611296a827abf8c47804d7")
  /\ GetSizeBytes d = Some 5
  /\ GetKey d KeyWithoutInstance
     = Some (s2l "8b1a9953c4611296a827abf8c47804d7" ++ "-"%char :: FormatInt 5)
  /\ GetKey d KeyWithInstance = Some (value d).
Proof.
  apply (Digest_accessors (s2l "a-b") (s2l "8b1a9953c4611296a827abf8c47804d7") 5).
  - reflexivity.
  - lia.
  - left. split; reflexivity.
Defined.

(** ** Digests that [unpack] does not understand *)

Lemma unpack_short d : (length (value d) <= 32)%nat -> unpack d = None.
Proof.
  intros H. unfold unpack. rewrite drop_ge by lia. reflexivity.
Qed.

(** A hash with a BLAKE3ZCC prefix is taken as it is; when the digest
    that results is at most 32 characters long, every accessor of the
    digest panics, and so does [ToManifest]. *)
Theorem short_BLAKE3ZCC_digest_panics (instance hash : list ascii) (sizeBytes blockSizeBytes : Z) :
  HasPrefix hash (s2l "B3Z:") = true -> 0 <= sizeBytes ->
  (length hash + length (FormatInt sizeBytes) + length instance + 2 <= 32)%nat ->
  exists d,
    NewDigest instance hash sizeBytes = inl d
    /\ GetHashString d = None /\ GetSizeBytes d = None /\ GetInstance d = None
    /\ ToManifest d blockSizeBytes = None.
Proof.
  intros Hp Hs Hlen.
  exists (mkDigest (Sprintf_s_d_s hash sizeBytes instance)).
  assert (Hnew : NewDigest instance hash sizeBytes
                 = inl (mkDigest (Sprintf_s_d_s hash sizeBytes instance))).
  { unfold NewDigest, newDigestBLAKE3ZCC. rewrite Hp.
    destruct (sizeBytes <? 0) eqn:E; [apply Z.ltb_lt in E; lia|].
    do 2 f_equal. rewrite (HasPrefix_true _ _ Hp) at 2. reflexivity. }
  assert (Hu : unpack (mkDigest (Sprintf_s_d_s hash sizeBytes instance)) = None).
  { apply unpack_short. unfold Sprintf_s_d_s. cbn [value].
    rewrite length_app. cbn [length]. rewrite length_app. cbn [length]. lia. }
  split; [exact Hnew|].
  unfold GetHashString, GetSizeBytes, GetInstance, ToManifest. rewrite Hu.
  repeat (split; [reflexivity|]).
  replace (HasPrefix (value (mkDigest (Sprintf_s_d_s hash sizeBytes instance))) (s2l "B3Z:"))
    with true; [reflexivity|].
  symmetry. unfold Sprintf_s_d_s. cbn [value].
  rewrite (HasPrefix_true _ _ Hp). rewrite <- app_assoc. apply HasPrefix_app.
Qed.

Lemma short_BLAKE3ZCC_digest_panics_witness :
  exists d,
    NewDigest (s2l "instance") (s2l "B3Z:zz") 5 = inl d
    /\ GetHashString d = None /\ GetSizeBytes d = None /\ GetInstance d = None
    /\ ToManifest d 2048 = None.
Proof.
  apply (short_BLAKE3ZCC_digest_panics (s2l "instance") (s2l "B3Z:zz") 5 2048).
  - reflexivity.
  - lia.
  - vm_compute. lia.
Defined.

(** ** Digests of the Remote Execution protocol *)

Lemma fromHexChar_digit (b : byte) :
  hex.fromHexChar (hex.digit (Z.shiftr (byte_to_Z b) 4)) = Some (Z.shiftr (byte_to_Z b) 4)
  /\ hex.fromHexChar (hex.digit (Z.land (byte_to_Z b) 15)) = Some (Z.land (byte_to_Z b) 15)
  /\ byte_of_Z (Z.lor (Z.shiftl (Z.shiftr (byte_to_Z b) 4) 4) (Z.land (byte_to_Z b) 15)) = b
  /\ is_lower_hex (hex.digit (Z.shiftr (byte_to_Z b) 4)) = true
  /\ is_lower_hex (hex.digit (Z.land (byte_to_Z b) 15)) = true.
Proof. destruct b; vm_compute; repeat split; reflexivity. Qed.

(** Decoding undoes encoding. *)
Lemma DecodeString_EncodeToString (bs : list byte) :
  hex.DecodeString (hex.EncodeToString bs) = Some bs.
Proof.
  induction bs as [|b bs IH]; [reflexivity|].
  unfold hex.EncodeToString in *. cbn [flat_map app hex.DecodeString].
  destruct (fromHexChar_digit b) as (-> & -> & Hb & _). rewrite IH, Hb. reflexivity.
Qed.

Lemma EncodeToString_length (bs : list byte) :
  length (hex.EncodeToString bs) = (2 * length bs)%nat.
Proof.
  induction bs as [|b bs IH]; [reflexivity|].
  unfold hex.EncodeToString in *. cbn [flat_map app length]. rewrite IH. lia.
Qed.

Lemma EncodeToString_hex (bs : list byte) :
  forallb is_lower_hex (hex.EncodeToString bs) = true.
Proof.
  induction bs as [|b bs IH]; [reflexivity|].
  unfold hex.EncodeToString in *. cbn [flat_map app forallb].
  destruct (fromHexChar_digit b) as (_ & _ & _ & -> & ->). exact IH.
Qed.

Lemma EncodeToString_ok (bs : list byte) :
  (14 <= length bs)%nat -> blake3zcc_hash_ok (hex.EncodeToString bs).
Proof.
  intros H. split; [rewrite EncodeToString_length; lia | apply EncodeToString_hex].
Qed.

(** A protocol level digest with its hash in one field and a size that
    is not negative makes a digest, from which [GetPartialDigest] gives
    the protocol level digest back; the digest has the instance it was
    made for, and its hash bytes are those of the protocol level
    digest. *)
Theorem PartialDigest_round_trip (instance : list ascii) (pd : PartialDigest) :
  partial_digest_ok pd -> 0 <= SizeBytes pd < 2 ^ 63 ->
  exists d,
    NewDigestFromPartialDigest instance (Some pd) = inl d
    /\ GetPartialDigest d = Some pd
    /\ GetInstance d = Some instance
    /\ GetSizeBytes d = Some (SizeBytes pd)
    /\ GetHashBytes d
       = (if (0 <? length (HashBlake3Zcc pd))%nat then Some (HashBlake3Zcc pd)
          else if (0 <? length (HashBlake3ZccManifest pd))%nat
               then Some (HashBlake3ZccManifest pd)
               else hex.DecodeString (HashOther pd)).
Proof.
  intros Hok Hs. destruct pd as [hb hm ho s]. cbn [SizeBytes] in Hs.
  unfold partial_digest_ok in Hok. cbn [HashBlake3Zcc HashBlake3ZccManifest HashOther] in Hok.
  unfold NewDigestFromPartialDigest, newDigestBLAKE3ZCC, newDigestBLAKE3ZCCManifest.
  cbn [HashBlake3Zcc HashBlake3ZccManifest HashOther SizeBytes].
  destruct (s <? 0) eqn:E; [apply Z.ltb_lt in E; lia|].
  destruct Hok as [(Hlen & -> & ->) | [(-> & Hlen & ->) | (-> & -> & Hstd)]].
  - (* a BLAKE3ZCC hash *)
    destruct (0 <? length hb)%nat eqn:El; [|apply Nat.ltb_ge in El; lia].
    pose proof (B3Z_hash_ok _ (EncodeToString_ok hb Hlen)) as Hh.
    eexists. split; [reflexivity|].
    change (s2l "B3Z:" ++ Sprintf_s_d_s (hex.EncodeToString hb) s instance)
      with (Sprintf_s_d_s (s2l "B3Z:" ++ hex.EncodeToString hb) s instance).
    split; [|split; [apply GetInstance_spec; assumption|];
             split; [apply GetSizeBytes_spec; assumption|]].
    + unfold GetPartialDigest. rewrite unpack_spec by assumption.
      unfold Sprintf_s_d_s. cbn [value]. rewrite take_app_length.
      rewrite HasPrefix_app. change (drop 4 (s2l "B3Z:" ++ ?x)) with x.
      change (drop 4 (s2l "B3Z:" ++ hex.EncodeToString hb)) with (hex.EncodeToString hb).
      rewrite DecodeString_EncodeToString. reflexivity.
    + unfold GetHashBytes. rewrite GetHashString_spec by assumption.
      rewrite HasPrefix_app.
      change (drop 4 (s2l "B3Z:" ++ hex.EncodeToString hb)) with (hex.EncodeToString hb).
      destruct (HasPrefix_not_B (hex.EncodeToString hb)) as [_ ->].
      { intros c s' Hc. destruct hb as [|b hb]; [discriminate|].
        unfold hex.EncodeToString in Hc. cbn [flat_map app] in Hc.
        injection Hc as <- _. apply hex_digit_not_B. }
      apply DecodeString_EncodeToString.
  - (* a BLAKE3ZCC manifest hash *)
    change (0 <? length (@nil byte))%nat with false. cbv iota.
    destruct (0 <? length hm)%nat eqn:El; [|apply Nat.ltb_ge in El; lia].
    pose proof (B3ZM_hash_ok _ (EncodeToString_ok hm Hlen)) as Hh.
    eexists. split; [reflexivity|].
    change (s2l "B3ZM:" ++ Sprintf_s_d_s (hex.EncodeToString hm) s instance)
      with (Sprintf_s_d_s (s2l "B3ZM:" ++ hex.EncodeToString hm) s instance).
    split; [|split; [apply GetInstance_spec; assumption|];
             split; [apply GetSizeBytes_spec; assumption|]].
    + unfold GetPartialDigest. rewrite unpack_spec by assumption.
      unfold Sprintf_s_d_s. cbn [value]. rewrite take_app_length.
      replace (HasPrefix (s2l "B3ZM:" ++ hex.EncodeToString hm) (s2l "B3Z:")) with false
        by reflexivity.
      rewrite HasPrefix_app.
      change (drop 5 (s2l "B3ZM:" ++ hex.EncodeToString hm)) with (hex.EncodeToString hm).
      rewrite DecodeString_EncodeToString. reflexivity.
    + unfold GetHashBytes. rewrite GetHashString_spec by assumption.
      replace (HasPrefix (s2l "B3ZM:" ++ hex.EncodeToString hm) (s2l "B3Z:")) with false
        by reflexivity.
      rewrite HasPrefix_app.
      change (drop 5 (s2l "B3ZM:" ++ hex.EncodeToString hm)) with (hex.EncodeToString hm).
      apply DecodeString_EncodeToString.
  - (* the hash of a standard algorithm *)
    change (0 <? length (@nil byte))%nat with false. cbv iota.
    pose proof (NewDigest_standard instance ho s Hstd ltac:(lia)) as Hnew.
    destruct (standard_hash_no_prefix _ Hstd) as [H1 H2].
    unfold NewDigest in Hnew. rewrite H1, H2 in Hnew. rewrite Hnew.
    pose proof (standard_hash_ok _ Hstd) as Hh.
    eexists. split; [reflexivity|].
    split; [|split; [apply GetInstance_spec; assumption|];
             split; [apply GetSizeBytes_spec; assumption|]].
    + unfold GetPartialDigest. rewrite unpack_spec by assumption.
      unfold Sprintf_s_d_s. cbn [value]. rewrite take_app_length.
      rewrite H1, H2. reflexivity.
    + unfold GetHashBytes. rewrite GetHashString_spec by assumption.
      rewrite H1, H2. reflexivity.
Qed.

Lemma PartialDigest_round_trip_witness :
  let pd := mkPartialDigest (identity251 16) [] [] 123 in
  exists d,
    NewDigestFromPartialDigest (s2l "instance") (Some pd) = inl d
    /\ GetPartialDigest d = Some pd
    /\ GetInstance d = Some (s2l "instance")
    /\ GetSizeBytes d = Some (SizeBytes pd)
    /\ GetHashBytes d
       = (if (0 <? length (HashBlake3Zcc pd))%nat then Some (HashBlake3Zcc pd)
          else if (0 <? length (HashBlake3ZccManifest pd))%nat
               then Some (HashBlake3ZccManifest pd)
               else hex.DecodeString (HashOther pd)).
Proof.
  apply (PartialDigest_round_trip (s2l "instance") (mkPartialDigest (identity251 16) [] [] 123)).
  - left. cbn [HashBlake3Zcc HashBlake3ZccManifest HashOther].
    split; [vm_compute; lia | split; reflexivity].
  - cbn [SizeBytes]. lia.
Defined.

End DigestAccessors.

Section ManifestEntries.

Import blake3zcc digest.

(** ** Marshaling of Merkle tree nodes *)

Lemma byte_to_of_Z x : byte_to_Z (byte_of_Z x) = x mod 2 ^ 8.
Proof.
  unfold byte_to_Z, byte_of_Z, u8.
  assert (Hr : 0 <= x mod 2 ^ 8 < 256) by (apply Z.mod_pos_bound; lia).
  destruct (Byte.of_N (Z.to_N (x mod 2 ^ 8))) as [b|] eqn:E.
  - apply Byte.to_of_N in E. rewrite E. rewrite Z2N.id by lia. reflexivity.
  - apply Byte.of_N_None_iff in E. lia.
Qed.

Lemma byte_of_to_Z b : byte_of_Z (byte_to_Z b) = b.
Proof. destruct b; reflexivity. Qed.

Lemma testbit_u32_high v n : is_u32 v -> 32 <= n -> Z.testbit v n = false.
Proof.
  intros [H0 H1] Hn. destruct (Z.eq_dec v 0) as [->|Hnz]; [apply Z.testbit_0_l|].
  apply Z.bits_above_log2; [lia|].
  assert (Z.log2 v < 32) by (apply Z.log2_lt_pow2; lia). lia.
Qed.

(** Reading a word back from the four bytes it was stored in. *)
Lemma Uint32_PutUint32 v rest :
  is_u32 v -> LittleEndian.Uint32 (LittleEndian.PutUint32 v ++ rest) = Some v.
Proof.
  intros Hv. unfold LittleEndian.PutUint32, LittleEndian.Uint32. cbn [app].
  f_equal. rewrite !byte_to_of_Z.
  apply Z.bits_inj'. intros n Hn.
  rewrite !Z.lor_spec.
  rewrite !Z.shiftl_spec by lia.
  destruct (Z.lt_ge_cases n 8) as [H8|H8].
  { rewrite Z.mod_pow2_bits_low by lia.
    rewrite (Z.testbit_neg_r _ (n - 8)), (Z.testbit_neg_r _ (n - 16)),
            (Z.testbit_neg_r _ (n - 24)) by lia.
    rewrite !orb_false_r. reflexivity. }
  rewrite (Z.mod_pow2_bits_high v 8 n) by lia. cbn [orb].
  destruct (Z.lt_ge_cases n 16) as [H16|H16].
  { rewrite Z.mod_pow2_bits_low by lia. rewrite Z.shiftr_spec by lia.
    rewrite (Z.testbit_neg_r _ (n - 16)), (Z.testbit_neg_r _ (n - 24)) by lia.
    rewrite !orb_false_r. f_equal. lia. }
  rewrite (Z.mod_pow2_bits_high _ 8 (n - 8)) by lia. cbn [orb].
  destruct (Z.lt_ge_cases n 24) as [H24|H24].
  { rewrite Z.mod_pow2_bits_low by lia. rewrite Z.shiftr_spec by lia.
    rewrite (Z.testbit_neg_r _ (n - 24)) by lia.
    rewrite !orb_false_r. f_equal. lia. }
  rewrite (Z.mod_pow2_bits_high _ 8 (n - 16)) by lia. cbn [orb].
  destruct (Z.lt_ge_cases n 32) as [H32|H32].
  { rewrite Z.mod_pow2_bits_low by lia. rewrite Z.shiftr_spec by lia. f_equal. lia. }
  rewrite (Z.mod_pow2_bits_high _ 8 (n - 24)) by lia.
  symmetry. apply testbit_u32_high; assumption.
Qed.

Lemma PutUint32_length v : length (LittleEndian.PutUint32 v) = 4%nat.
Proof. reflexivity. Qed.

Lemma flat_map_PutUint32_length ws :
  length (flat_map LittleEndian.PutUint32 ws) = (4 * length ws)%nat.
Proof.
  induction ws as [|w ws IH]; [reflexivity|].
  cbn [flat_map]. rewrite length_app, IH. cbn [length LittleEndian.PutUint32]. lia.
Qed.

Lemma unmarshal_words_marshal ws : forall rest,
  Forall is_u32 ws ->
  unmarshal_words (length ws) (flat_map LittleEndian.PutUint32 ws ++ rest) = Some (ws, rest).
Proof.
  induction ws as [|w ws IH]; intros rest Hws; [reflexivity|].
  inversion Hws as [|? ? Hw Hws']; subst.
  cbn [length flat_map unmarshal_words]. rewrite <- app_assoc.
  rewrite Uint32_PutUint32 by assumption.
  change (drop 4 (LittleEndian.PutUint32 w ++ ?x)) with x.
  change (drop 4 (LittleEndian.PutUint32 w ++ flat_map LittleEndian.PutUint32 ws ++ rest))
    with (flat_map LittleEndian.PutUint32 ws ++ rest).
  rewrite IH by assumption. reflexivity.
Qed.

Lemma unmarshal_words_marshal_n n ws rest :
  length ws = n -> Forall is_u32 ws ->
  unmarshal_words n (flat_map LittleEndian.PutUint32 ws ++ rest) = Some (ws, rest).
Proof. intros <-. apply unmarshal_words_marshal. Qed.

Lemma chunk_byte_ok bs start : 0 <= bs < 128 -> chunk_byte_check bs start = true.
Proof.
  intros H.
  assert (Hall : forallb (fun k => chunk_byte_check (Z.of_nat k) true
                                   && chunk_byte_check (Z.of_nat k) false)
                         (seq 0 128) = true) by (vm_compute; reflexivity).
  rewrite forallb_forall in Hall.
  specialize (Hall (Z.to_nat bs)). rewrite Z2Nat.id in Hall by lia.
  assert (Hin : In (Z.to_nat bs) (seq 0 128)) by (apply in_seq; lia).
  apply Hall in Hin. apply andb_true_iff in Hin. destruct start; tauto.
Qed.

Lemma store_Some bytes entry :
  (length bytes <= length entry)%nat ->
  store bytes entry = Some (bytes ++ drop (length bytes) entry).
Proof.
  intros H. unfold store.
  destruct (length entry <? length bytes)%nat eqn:E; [apply Nat.ltb_lt in E; lia|].
  reflexivity.
Qed.

Lemma NewChunkNode_GetChunkData cv m bs start :
  GetChunkData (NewChunkNode cv m bs start) = Some (cv, m, bs, start).
Proof. destruct start; reflexivity. Qed.

Lemma marshalBLAKE3ZCCChunkNode_spec n entry :
  chunk_node_ok n -> (97 <= length entry)%nat ->
  exists bytes,
    length bytes = 97%nat
    /\ marshalBLAKE3ZCCChunkNode n entry = Some (bytes ++ drop 97 entry)
    /\ forall rest, unmarshalBLAKE3ZCCChunkNode (bytes ++ rest) = Some n.
Proof.
  intros (cv & m & bs & start & -> & [Hcl Hcv] & [Hml Hm] & Hbs) Hlen.
  unfold marshalBLAKE3ZCCChunkNode. rewrite NewChunkNode_GetChunkData.
  set (e0 := byte_of_Z _).
  set (bytes := flat_map LittleEndian.PutUint32 cv ++ flat_map LittleEndian.PutUint32 m ++ [e0]).
  assert (Hbl : length bytes = 97%nat).
  { unfold bytes. rewrite !length_app, !flat_map_PutUint32_length, Hcl, Hml. reflexivity. }
  exists bytes. split; [exact Hbl|]. split.
  - rewrite store_Some by lia. rewrite Hbl. reflexivity.
  - intros rest. unfold unmarshalBLAKE3ZCCChunkNode, bytes.
    rewrite <- !app_assoc.
    rewrite (unmarshal_words_marshal_n 8 cv) by assumption.
    rewrite (unmarshal_words_marshal_n 16 m) by assumption.
    cbn [app].
    pose proof (chunk_byte_ok bs start ltac:(lia)) as Hc.
    unfold chunk_byte_check in Hc. cbv zeta in Hc.
    apply andb_true_iff in Hc. destruct Hc as [Hsize Hstart].
    apply Z.eqb_eq in Hsize. apply Bool.eqb_prop in Hstart.
    subst e0. rewrite Hsize, Hstart. reflexivity.
Qed.

Lemma marshalBLAKE3ZCCParentNode_spec n entry :
  parent_node_ok n -> (64 <= length entry)%nat ->
  exists bytes,
    length bytes = 64%nat
    /\ marshalBLAKE3ZCCParentNode n entry = Some (bytes ++ drop 64 entry)
    /\ forall rest, unmarshalBLAKE3ZCCParentNode (bytes ++ rest) = Some n.
Proof.
  intros (m & -> & [Hml Hm]) Hlen.
  unfold marshalBLAKE3ZCCParentNode.
  change (GetParentData (NewParentNode m)) with (Some m).
  assert (Hbl : length (flat_map LittleEndian.PutUint32 m) = 64%nat)
    by (rewrite flat_map_PutUint32_length, Hml; reflexivity).
  exists (flat_map LittleEndian.PutUint32 m). split; [exact Hbl|]. split.
  - rewrite store_Some by lia. rewrite Hbl. reflexivity.
  - intros rest. unfold unmarshalBLAKE3ZCCParentNode.
    rewrite (unmarshal_words_marshal_n 16 m) by assumption. reflexivity.
Qed.

(** A node that is marshaled into a manifest entry is found again when
    the entry is unmarshaled, whatever follows the entry in the
    manifest: 97 bytes for a chunk node, 64 bytes for a parent node, of
    which the bytes of the entry beyond are left alone.  An entry that
    is too short is an index out of range, and the node of the other
    kind is refused. *)
Theorem marshal_unmarshal_round_trip (n : Node) (entry rest : list byte) :
  (chunk_node_ok n ->
   (if (97 <=? length entry)%nat
    then exists bytes,
           marshalBLAKE3ZCCChunkNode n entry = Some (bytes ++ drop 97 entry)
           /\ length bytes = 97%nat
           /\ unmarshalBLAKE3ZCCChunkNode (bytes ++ rest) = Some n
    else marshalBLAKE3ZCCChunkNode n entry = None)
   /\ marshalBLAKE3ZCCParentNode n entry = None)
  /\ (parent_node_ok n ->
      (if (64 <=? length entry)%nat
       then exists bytes,
              marshalBLAKE3ZCCParentNode n entry = Some (bytes ++ drop 64 entry)
              /\ length bytes = 64%nat
              /\ unmarshalBLAKE3ZCCParentNode (bytes ++ rest) = Some n
       else marshalBLAKE3ZCCParentNode n entry = None)
      /\ marshalBLAKE3ZCCChunkNode n entry = None).
Proof.
  split.
  - intros Hn. split.
    + destruct (97 <=? length entry)%nat eqn:E.
      * apply Nat.leb_le in E.
        destruct (marshalBLAKE3ZCCChunkNode_spec n entry Hn E) as (bytes & Hl & Hm & Hu).
        exists bytes. auto.
      * apply Nat.leb_gt in E.
        destruct Hn as (cv & m & bs & start & -> & [Hcl _] & [Hml _] & _).
        unfold marshalBLAKE3ZCCChunkNode. rewrite NewChunkNode_GetChunkData.
        unfold store.
        rewrite !length_app, !flat_map_PutUint32_length, Hcl, Hml. cbn [length].
        destruct (length entry <? 4 * 8 + (4 * 16 + 1))%nat eqn:E'; [reflexivity|].
        apply Nat.ltb_ge in E'. lia.
    + destruct Hn as (cv & m & bs & start & -> & _).
      unfold marshalBLAKE3ZCCParentNode, GetParentData, NewChunkNode. cbn [flags].
      destruct start; reflexivity.
  - intros Hn. split.
    + destruct (64 <=? length entry)%nat eqn:E.
      * apply Nat.leb_le in E.
        destruct (marshalBLAKE3ZCCParentNode_spec n entry Hn E) as (bytes & Hl & Hm & Hu).
        exists bytes. auto.
      * apply Nat.leb_gt in E.
        destruct Hn as (m & -> & [Hml _]).
        unfold marshalBLAKE3ZCCParentNode.
        change (GetParentData (NewParentNode m)) with (Some m).
        unfold store. rewrite flat_map_PutUint32_length, Hml.
        destruct (length entry <? 4 * 16)%nat eqn:E'; [reflexivity|].
        apply Nat.ltb_ge in E'. lia.
    + destruct Hn as (m & -> & _). reflexivity.
Qed.

Lemma marshal_unmarshal_round_trip_witness :
  (exists bytes,
     marshalBLAKE3ZCCChunkNode (NewChunkNode iv (replicate 16 7) 64 true)
                               (replicate 97 x00) = Some (bytes ++ [])
     /\ length bytes = 97%nat
     /\ unmarshalBLAKE3ZCCChunkNode (bytes ++ [x01])
        = Some (NewChunkNode iv (replicate 16 7) 64 true))
  /\ (exists bytes,
        marshalBLAKE3ZCCParentNode (NewParentNode (replicate 16 7))
                                   (replicate 64 x00) = Some (bytes ++ [])
        /\ length bytes = 64%nat
        /\ unmarshalBLAKE3ZCCParentNode (bytes ++ [x01])
           = Some (NewParentNode (replicate 16 7))).
Proof.
  split.
  - apply (marshal_unmarshal_round_trip (NewChunkNode iv (replicate 16 7) 64 true)
             (replicate 97 x00) [x01]).
    exists iv, (replicate 16 7), 64, true.
    split; [reflexivity|]. split; [apply iv_ok|]. split; [|lia].
    split; [reflexivity|]. repeat constructor; unfold is_u32; lia.
  - apply (marshal_unmarshal_round_trip (NewParentNode (replicate 16 7))
             (replicate 64 x00) [x01]).
    exists (replicate 16 7). split; [reflexivity|].
    split; [reflexivity|]. repeat constructor; unfold is_u32; lia.
Defined.

(** ** Manifests built by AppendBlockDigest *)

Lemma convertNodeToDigest_Some mp n sizeBytes :
  0 <= hashSizeBytes mp -> is_Some (convertNodeToDigest mp n sizeBytes).
Proof.
  intros H. unfold convertNodeToDigest.
  destruct (GetHashValue_Some n (hashSizeBytes mp) [] H) as [hv ->]. eexists. reflexivity.
Qed.

(** One call of [AppendBlockDigest]: the entry it appends, and the
    digest it returns. *)
Lemma AppendBlockDigest_spec mp manifest block :
  0 <= hashSizeBytes mp ->
  exists n entry d,
    AppendBlockDigest mp manifest block = Some (manifest ++ entry, d)
    /\ convertNodeToDigest mp n (Z.of_nat (length block)) = Some d
    /\ ((length block <= 1024)%nat ->
        length entry = 97%nat
        /\ forall rest, unmarshalBLAKE3ZCCChunkNode (entry ++ rest) = Some n)
    /\ ((1024 < length block)%nat ->
        length entry = 64%nat
        /\ forall rest, unmarshalBLAKE3ZCCParentNode (entry ++ rest) = Some n).
Proof.
  intros Hh.
  destruct (block_root_node block) as (p & p' & n & Hw & Hr & Hchunk & Hparent).
  destruct (convertNodeToDigest_Some mp n (Z.of_nat (length block)) Hh) as [d Hd].
  unfold AppendBlockDigest. rewrite Hw, Hr.
  destruct (length block <=? 1024)%nat eqn:E.
  - apply Nat.leb_le in E.
    destruct (marshalBLAKE3ZCCChunkNode_spec n (replicate (Z.to_nat blake3zccChunkNodeSizeBytes) x00)
                (Hchunk E)) as (bytes & Hl & Hm & Hu).
    { rewrite length_replicate. reflexivity. }
    rewrite Hm, Hd. rewrite drop_ge by (rewrite length_replicate; reflexivity).
    rewrite app_nil_r.
    exists n, bytes, d. split; [reflexivity|]. split; [exact Hd|]. split; [auto|]. lia.
  - apply Nat.leb_gt in E.
    destruct (marshalBLAKE3ZCCParentNode_spec n
                (replicate (Z.to_nat blake3zccParentNodeSizeBytes) x00)
                (Hparent E)) as (bytes & Hl & Hm & Hu).
    { rewrite length_replicate. reflexivity. }
    rewrite Hm, Hd. rewrite drop_ge by (rewrite length_replicate; reflexivity).
    rewrite app_nil_r.
    exists n, bytes, d. split; [reflexivity|]. split; [exact Hd|]. split; [lia | auto].
Qed.

Lemma AppendBlockDigests_app mp xs : forall manifest ys,
  AppendBlockDigests mp manifest (xs ++ ys)
  = match AppendBlockDigests mp manifest xs with
    | None => None
    | Some (manifest', ds) =>
        match AppendBlockDigests mp manifest' ys with
        | None => None
        | Some (manifest'', ds') => Some (manifest'', ds ++ ds')
        end
    end.
Proof.
  induction xs as [|x xs IH]; intros manifest ys; cbn [app AppendBlockDigests].
  - destruct (AppendBlockDigests mp manifest ys) as [[m ds]|]; reflexivity.
  - destruct (AppendBlockDigest mp manifest x) as [[m d]|]; [|reflexivity].
    rewrite IH. destruct (AppendBlockDigests mp m xs) as [[m' ds]|]; [|reflexivity].
    destruct (AppendBlockDigests mp m' ys) as [[m'' ds']|]; reflexivity.
Qed.

(** The entries of blocks of more than 1024 bytes: parent nodes, 64
    bytes each. *)
Lemma AppendBlockDigests_full mp (blockSize : Z) full : forall manifest,
  0 <= hashSizeBytes mp -> 1024 < blockSize ->
  Forall (fun b => Z.of_nat (length b) = blockSize) full ->
  exists entries ds,
    AppendBlockDigests mp manifest full = Some (manifest ++ entries, ds)
    /\ length entries = (64 * length full)%nat
    /\ length ds = length full
    /\ forall i d, ds !! i = Some d ->
         exists n, convertNodeToDigest mp n blockSize = Some d
                   /\ forall rest,
                        unmarshalBLAKE3ZCCParentNode (drop (64 * i) (entries ++ rest)) = Some n.
Proof.
  induction full as [|b full IH]; intros manifest Hh HB Hfull.
  - exists [], []. cbn [AppendBlockDigests]. rewrite app_nil_r.
    split; [reflexivity|]. split; [reflexivity|]. split; [reflexivity|].
    intros i d Hi. rewrite lookup_nil in Hi. discriminate.
  - inversion Hfull as [|? ? Hb Hfull']; subst.
    destruct (AppendBlockDigest_spec mp manifest b Hh)
      as (n & entry & d & Happ & Hd & _ & Hparent).
    destruct Hparent as [Hel Hun]; [lia|].
    destruct (IH (manifest ++ entry) Hh HB Hfull') as (entries & ds & Hrest & Hlen & Hdl & Hall).
    exists (entry ++ entries), (d :: ds).
    cbn [AppendBlockDigests]. rewrite Happ, Hrest. rewrite <- app_assoc.
    split; [reflexivity|].
    split; [rewrite length_app, Hel, Hlen; cbn [length]; lia|].
    split; [cbn [length]; lia|].
    intros [|i] d' Hi.
    + cbn in Hi. injection Hi as <-. exists n. split; [exact Hd|].
      intros rest. cbn [drop Nat.mul]. rewrite <- app_assoc. apply Hun.
    + cbn in Hi. destruct (Hall i d' Hi) as (n' & Hd' & Hun').
      exists n'. split; [exact Hd'|]. intros rest.
      rewrite <- app_assoc. rewrite drop_app_ge by lia.
      replace (64 * S i - length entry)%nat with (64 * i)%nat by lia.
      apply Hun'.
Qed.

(** The manifest of a blob cut into blocks of [blockSize] bytes and a
    last block of at most as many. *)
Lemma AppendBlockDigests_blocks mp (blockSize : Z) full last :
  0 <= hashSizeBytes mp -> 1024 < blockSize ->
  Forall (fun b => Z.of_nat (length b) = blockSize) full ->
  exists entries ds entry d n,
    AppendBlockDigests mp [] (full ++ [last]) = Some (entries ++ entry, ds ++ [d])
    /\ length entries = (64 * length full)%nat
    /\ length ds = length full
    /\ (forall i d, ds !! i = Some d ->
          exists n, convertNodeToDigest mp n blockSize = Some d
                    /\ forall rest,
                         unmarshalBLAKE3ZCCParentNode (drop (64 * i) (entries ++ rest)) = Some n)
    /\ convertNodeToDigest mp n (Z.of_nat (length last)) = Some d
    /\ ((length last <= 1024)%nat ->
        length entry = 97%nat
        /\ forall rest, unmarshalBLAKE3ZCCChunkNode (entry ++ rest) = Some n)
    /\ ((1024 < length last)%nat ->
        length entry = 64%nat
        /\ forall rest, unmarshalBLAKE3ZCCParentNode (entry ++ rest) = Some n).
Proof.
  intros Hh HB Hfull.
  destruct (AppendBlockDigests_full mp blockSize full [] Hh HB Hfull)
    as (entries & ds & Hrun & Hlen & Hdl & Hall).
  destruct (AppendBlockDigest_spec mp ([] ++ entries) last Hh)
    as (n & entry & d & Happ & Hd & Hchunk & Hparent).
  exists entries, ds, entry, d, n.
  rewrite AppendBlockDigests_app, Hrun. cbn [AppendBlockDigests]. rewrite Happ.
  repeat split; try assumption; try (apply Hchunk; assumption); try (apply Hparent; assumption).
Qed.

Lemma block_count (blockSize : Z) (nfull : nat) (lastSize : Z) :
  0 < lastSize <= blockSize ->
  (blockSize * Z.of_nat nfull + lastSize + blockSize - 1) / blockSize = Z.of_nat nfull + 1.
Proof.
  intros H.
  replace (blockSize * Z.of_nat nfull + lastSize + blockSize - 1)
    with ((Z.of_nat nfull + 1) * blockSize + (lastSize - 1)) by lia.
  rewrite Z.div_add_l by lia. rewrite (Z.div_small (lastSize - 1)) by lia. lia.
Qed.

(** In a manifest built by [AppendBlockDigest] from the blocks of a
    blob, blocks of [B] > 1024 bytes and a last block of at most [B]
    bytes, [GetBlockDigest] at any offset inside a block gives the
    digest [AppendBlockDigest] returned for the block and the offset at
    which the block starts: for every block but the last, and for the
    last block when it is shorter than [B]. *)
Theorem GetBlockDigest_AppendBlockDigests (instance : list ascii) (B hashSize : Z)
    (full : list (list byte)) (last : list byte) :
  let size := B * Z.of_nat (length full) + Z.of_nat (length last) in
  let mp := newBLAKE3ZCCManifestParser instance size B hashSize in
  1024 < B -> 0 <= hashSize ->
  Forall (fun b => Z.of_nat (length b) = B) full ->
  0 < Z.of_nat (length last) <= B ->
  size + B < 2 ^ 63 ->
  exists manifest ds,
    AppendBlockDigests mp [] (full ++ [last]) = Some (manifest, ds)
    /\ length ds = S (length full)
    /\ forall (i : nat) d off,
         ds !! i = Some d ->
         (i < length full)%nat \/ Z.of_nat (length last) < B ->
         Z.of_nat i * B <= off < (Z.of_nat i + 1) * B ->
         GetBlockDigest mp manifest off = Some (d, Z.of_nat i * B).
Proof.
  intros size mp HB Hh Hfull Hlast Hfit.
  destruct (AppendBlockDigests_blocks mp B full last Hh HB Hfull)
    as (entries & ds & entry & d & n & Hrun & Hlen & Hdl & Hall & Hd & Hchunk & Hparent).
  exists (entries ++ entry), (ds ++ [d]).
  split; [exact Hrun|]. split; [rewrite length_app, Hdl; cbn [length]; lia|].
  intros i d' off Hi Hcase Hoff.
  assert (Hi' : (i <= length full)%nat).
  { apply lookup_lt_Some in Hi. rewrite length_app, Hdl in Hi. cbn [length] in Hi. lia. }
  assert (Hnn : 0 <= B * Z.of_nat (length full)) by (apply Z.mul_nonneg_nonneg; lia).
  assert (HiB : 0 <= Z.of_nat i * B <= B * Z.of_nat (length full)) by nia.
  assert (Hi64 : 0 <= Z.of_nat i * 64 <= Z.of_nat i * B) by nia.
  assert (HiS : Z.of_nat i <= Z.of_nat i * B) by nia.
  assert (HfS : Z.of_nat (length full) <= B * Z.of_nat (length full)) by nia.
  unfold GetBlockDigest. subst mp. unfold newBLAKE3ZCCManifestParser in *.
  cbn [digest.blockSizeBytes digest.blobSizeBytes].
  destruct (B =? 0) eqn:EB; [apply Z.eqb_eq in EB; lia|].
  subst size.
  rewrite convertSizeToBlockCount_pos by lia.
  rewrite block_count by lia.
  assert (Hq : Z.quot off B = Z.of_nat i).
  { rewrite Z.quot_div_nonneg by lia.
    symmetry. apply (Z.div_unique_pos off B (Z.of_nat i) (off - Z.of_nat i * B)); lia. }
  rewrite Hq.
  rewrite (i64_small (Z.of_nat i)) by (unfold is_i64; lia).
  replace (Z.of_nat (length full) + 1 - 1) with (Z.of_nat (length full)) by lia.
  rewrite (i64_small (Z.of_nat (length full))) by (unfold is_i64; lia).
  unfold blake3zccParentNodeSizeBytes.
  rewrite (i64_small (Z.of_nat i * 64)) by (unfold is_i64; lia).
  rewrite (i64_small (Z.of_nat i * B)) by (unfold is_i64; lia).
  destruct (Z.of_nat i * 64 <? 0) eqn:E1; [apply Z.ltb_lt in E1; lia|].
  destruct (Z.of_nat (length (entries ++ entry)) <? Z.of_nat i * 64) eqn:E2.
  { apply Z.ltb_lt in E2. rewrite length_app, Hlen in E2. lia. }
  cbn [orb].
  replace (Z.to_nat (Z.of_nat i * 64)) with (64 * i)%nat by lia.
  destruct (Z.of_nat i =? Z.of_nat (length full)) eqn:Ei.
  - (* the last block *)
    apply Z.eqb_eq in Ei. apply Nat2Z.inj in Ei. subst i.
    destruct Hcase as [Hcase | Hcase]; [lia|].
    rewrite lookup_app_r in Hi by lia.
    replace (length full - length ds)%nat with 0%nat in Hi by lia.
    cbn in Hi. injection Hi as <-.
    rewrite Z.rem_mod_nonneg by lia.
    replace ((B * Z.of_nat (length full) + Z.of_nat (length last)) mod B)
      with (Z.of_nat (length last)).
    2:{ symmetry. rewrite Z.add_comm, Z.mul_comm. rewrite Z.mod_add by lia.
        apply Z.mod_small. lia. }
    rewrite drop_app_ge by lia.
    replace (64 * length full - length entries)%nat with 0%nat by lia.
    rewrite drop_0.
    destruct (Z.of_nat (length last) <=? 1024) eqn:Er.
    + apply Z.leb_le in Er. destruct Hchunk as [_ Hun]; [lia|].
      rewrite <- (app_nil_r entry). rewrite Hun, Hd. reflexivity.
    + apply Z.leb_gt in Er. destruct Hparent as [_ Hun]; [lia|].
      rewrite <- (app_nil_r entry). rewrite Hun, Hd. reflexivity.
  - (* a block in front of the last *)
    apply Z.eqb_neq in Ei.
    assert (Hlt : (i < length full)%nat) by lia.
    rewrite lookup_app_l in Hi by lia.
    destruct (Hall i d' Hi) as (n' & Hd' & Hun).
    destruct (B <=? 1024) eqn:Er; [apply Z.leb_le in Er; lia|].
    rewrite Hun, Hd'. reflexivity.
Qed.

Lemma GetBlockDigest_AppendBlockDigests_witness :
  exists manifest ds,
    AppendBlockDigests
      (newBLAKE3ZCCManifestParser [] (1025 * Z.of_nat 1 + Z.of_nat 1) 1025 32) []
      ([identity251 1025] ++ [[x07]])
    = Some (manifest, ds)
    /\ length ds = 2%nat
    /\ forall (i : nat) d off,
         ds !! i = Some d ->
         (i < 1)%nat \/ Z.of_nat 1 < 1025 ->
         Z.of_nat i * 1025 <= off < (Z.of_nat i + 1) * 1025 ->
         GetBlockDigest
           (newBLAKE3ZCCManifestParser [] (1025 * Z.of_nat 1 + Z.of_nat 1) 1025 32)
           manifest off
         = Some (d, Z.of_nat i * 1025).
Proof.
  apply (GetBlockDigest_AppendBlockDigests [] 1025 32 [identity251 1025] [x07]).
  - lia.
  - lia.
  - repeat constructor.
  - cbn [length]. lia.
  - cbn [length]. lia.
Defined.

(** The manifest built by [AppendBlockDigest] from the blocks of a blob
    is as long as the manifest digest that [ToManifest] gives for the
    blob says: 64 bytes a block, and 33 more when the last block is of
    at most 1024 bytes. *)
Theorem manifest_length_matches_ToManifest (mp : blake3zccManifestParser) (B : Z)
    (full : list (list byte)) (last : list byte) :
  let size := B * Z.of_nat (length full) + Z.of_nat (length last) in
  1024 < B -> 0 <= hashSizeBytes mp ->
  Forall (fun b => Z.of_nat (length b) = B) full ->
  0 < Z.of_nat (length last) <= B ->
  exists manifest ds,
    AppendBlockDigests mp [] (full ++ [last]) = Some (manifest, ds)
    /\ Z.of_nat (length manifest) = manifest_size size B.
Proof.
  intros size HB Hh Hfull Hlast.
  destruct (AppendBlockDigests_blocks mp B full last Hh HB Hfull)
    as (entries & ds' & entry & d & n & Hrun' & Hlen & _ & _ & _ & Hchunk & Hparent).
  exists (entries ++ entry), (ds' ++ [d]). split; [exact Hrun'|].
  unfold manifest_size. subst size. rewrite block_count by lia.
  rewrite length_app, Hlen.
  destruct (Z.eq_dec (Z.of_nat (length last)) B) as [Heq | Hne].
  - rewrite Heq.
    replace (B * Z.of_nat (length full) + B) with ((Z.of_nat (length full) + 1) * B) by lia.
    rewrite Z.mod_mul by lia. cbn [Z.ltb andb Z.compare].
    destruct Hparent as [-> _]; lia.
  - replace ((B * Z.of_nat (length full) + Z.of_nat (length last)) mod B)
      with (Z.of_nat (length last)).
    2:{ symmetry. rewrite Z.add_comm, Z.mul_comm. rewrite Z.mod_add by lia.
        apply Z.mod_small. lia. }
    destruct (0 <? Z.of_nat (length last)) eqn:E0; [|apply Z.ltb_ge in E0; lia].
    destruct (Z.of_nat (length last) <=? 1024) eqn:Er; cbn [andb].
    + apply Z.leb_le in Er. destruct Hchunk as [-> _]; lia.
    + apply Z.leb_gt in Er. destruct Hparent as [-> _]; lia.
Qed.

Lemma manifest_length_matches_ToManifest_witness :
  exists manifest ds,
    AppendBlockDigests (newBLAKE3ZCCManifestParser [] 1026 1025 32) []
                       ([identity251 1025] ++ [[x07]]) = Some (manifest, ds)
    /\ Z.of_nat (length manifest) = manifest_size (1025 * Z.of_nat 1 + Z.of_nat 1) 1025.
Proof.
  apply (manifest_length_matches_ToManifest
           (newBLAKE3ZCCManifestParser [] 1026 1025 32) 1025 [identity251 1025] [x07]).
  - lia.
  - cbn [hashSizeBytes newBLAKE3ZCCManifestParser]. lia.
  - repeat constructor.
  - cbn [length]. lia.
Defined.

End ManifestEntries.

Section WritingInPieces.

Import blake3zcc digest.

(** ** The chaining value stack *)

Lemma AppendNode_loop_exact st : forall t cv,
  0 <= t -> popcount t = length st ->
  exists st' cv', AppendNode_loop st t cv = Some (st', cv')
                  /\ popcount (t + 1) = S (length st').
Proof.
  induction st as [|top rest IH]; intros t cv Ht Hp.
  - simpl. destruct (Z.land t 1 =? 0) eqn:E.
    + apply Z.eqb_eq in E. eexists _, _. split; [reflexivity|].
      rewrite popcount_even by assumption. simpl in *. lia.
    + apply Z.eqb_neq in E. destruct (popcount_odd t Ht E) as (_ & H1 & _).
      simpl in Hp. lia.
  - simpl. destruct (Z.land t 1 =? 0) eqn:E.
    + apply Z.eqb_eq in E. eexists _, _. split; [reflexivity|].
      rewrite popcount_even by assumption. simpl in *. lia.
    + apply Z.eqb_neq in E. destruct (popcount_odd t Ht E) as (H0 & H1 & H2).
      edestruct (IH (Z.shiftr t 1)) as (st' & cv' & Heq & Hle); [assumption| |].
      { simpl in Hp. lia. }
      eexists _, _. split; [exact Heq|]. rewrite H2. exact Hle.
Qed.

Lemma AppendNodes_exact ns : forall s,
  0 <= totalNodes s -> totalNodes s + Z.of_nat (length ns) < 2 ^ 64 ->
  popcount (totalNodes s) = length (stack s) ->
  exists s', AppendNodes s ns = Some s'
             /\ totalNodes s' = totalNodes s + Z.of_nat (length ns)
             /\ length (stack s') = popcount (totalNodes s').
Proof.
  induction ns as [|n ns IH]; intros s H0 Hlt Hp.
  - exists s. split; [reflexivity|]. split; [cbn [length]; lia | congruence].
  - cbn [AppendNodes length] in *. unfold AppendNode.
    destruct (AppendNode_loop_exact (stack s) (totalNodes s)
                (truncate (compress (chainingValue n) (m n) 0 (blockSize n) (flags n)))
                H0 Hp) as (st' & cv' & -> & Hpc).
    rewrite u64_small by lia.
    destruct (IH (mkStack (cv' :: st') (totalNodes s + 1))) as (s' & Hs' & Ht & Hl).
    + cbn [totalNodes]. lia.
    + cbn [totalNodes]. lia.
    + cbn [totalNodes stack length]. exact Hpc.
    + exists s'. split; [exact Hs'|]. split; [|exact Hl].
      rewrite Ht. cbn [totalNodes]. lia.
Qed.

(** Appending nodes to an empty chaining value stack never pops an empty
    stack, and leaves one chaining value on the stack for every bit
    that is set in the number of nodes appended. *)
Theorem ChainingValueStack_depth (ns : list Node) :
  Z.of_nat (length ns) < 2 ^ 64 ->
  exists s, AppendNodes NewChainingValueStack ns = Some s
            /\ totalNodes s = Z.of_nat (length ns)
            /\ length (stack s) = popcount (Z.of_nat (length ns)).
Proof.
  intros H.
  destruct (AppendNodes_exact ns NewChainingValueStack) as (s & Hs & Ht & Hl).
  - cbn. lia.
  - cbn [totalNodes NewChainingValueStack]. lia.
  - reflexivity.
  - exists s. cbn [totalNodes NewChainingValueStack] in Ht. rewrite Z.add_0_l in Ht.
    split; [exact Hs|]. split; [exact Ht|]. rewrite Hl, Ht. reflexivity.
Qed.

Lemma ChainingValueStack_depth_witness :
  exists s, AppendNodes NewChainingValueStack
              (replicate 5 (NewParentNode (replicate 16 0))) = Some s
            /\ totalNodes s = Z.of_nat 5
            /\ length (stack s) = popcount (Z.of_nat 5).
Proof.
  apply (ChainingValueStack_depth (replicate 5 (NewParentNode (replicate 16 0)))).
  vm_compute. reflexivity.
Defined.

(** ** Writing in pieces *)

Lemma copy_app_l {A} (dst a b : list A) off :
  (length dst - off <= length a)%nat -> copy dst off (a ++ b) = copy dst off a.
Proof.
  intros H. unfold copy. rewrite length_app.
  replace (Nat.min (length dst - off) (length a + length b)) with (length dst - off)%nat by lia.
  replace (Nat.min (length dst - off) (length a)) with (length dst - off)%nat by lia.
  rewrite take_app_le by lia. reflexivity.
Qed.

Lemma copy_copy {A} (dst a b : list A) off :
  (off + length a <= length dst)%nat ->
  copy (copy dst off a).1 (off + length a) b
  = ((copy dst off (a ++ b)).1, ((copy dst off (a ++ b)).2 - length a)%nat).
Proof.
  intros H. unfold copy. cbn [fst snd].
  rewrite !length_app, !length_take, length_drop.
  replace (Nat.min (length dst - off) (length a)) with (length a) by lia.
  rewrite (take_ge a) by lia.
  set (n := Nat.min (length dst - off) (length a + length b)).
  match goal with
  | |- (_ ++ take ?k b ++ _, _) = _ =>
      assert (Hk : k = (n - length a)%nat) by (subst n; lia); rewrite !Hk; clear Hk
  end.
  assert (Hn : (length a <= n)%nat) by (subst n; lia).
  assert (HX : length (take off dst) = off) by (rewrite length_take; lia).
  f_equal.
  rewrite (app_assoc (take off dst) a).
  rewrite take_app_length' by (rewrite length_app, HX; reflexivity).
  rewrite drop_app_ge by (rewrite length_app, HX; lia).
  rewrite length_app, HX.
  replace (off + length a + (n - length a) - (off + length a))%nat with (n - length a)%nat
    by lia.
  rewrite drop_drop.
  replace (off + length a + (n - length a))%nat with (off + n)%nat by lia.
  rewrite (take_app_ge a) by lia.
  rewrite <- !app_assoc. reflexivity.
Qed.

(** With enough of it, the bound on the number of iterations plays no
    part. *)
Lemma Write_loop_fuel f1 : forall f2 p b,
  block_ok p ->
  (length b + (if (p_blockSize p =? 64)%Z then 1 else 0) <= f1)%nat -> (1 <= f1)%nat ->
  (length b + (if (p_blockSize p =? 64)%Z then 1 else 0) <= f2)%nat -> (1 <= f2)%nat ->
  Write_loop f1 p b = Write_loop f2 p b.
Proof.
  induction f1 as [|f1 IH]; intros f2 p b [Hlen Hbs] H1 H1' H2 H2'; [lia|].
  destruct f2 as [|f2]; [lia|].
  rewrite !Write_loop_S.
  destruct (copy (block p) (Z.to_nat (p_blockSize p)) b) as [blk n] eqn:Hc.
  assert (Hn : n = Nat.min (64 - Z.to_nat (p_blockSize p)) (length b)).
  { pose proof (copy_count (block p) b (Z.to_nat (p_blockSize p))) as C.
    rewrite Hc in C. simpl in C. rewrite Hlen in C. exact C. }
  assert (Hblk : length blk = 64%nat).
  { pose proof (copy_length (block p) b (Z.to_nat (p_blockSize p))) as C.
    rewrite Hc in C. simpl in C. lia. }
  cbv zeta.
  destruct (drop n b) as [|x b'] eqn:Hd; [reflexivity|].
  assert (Hdl : length (x :: b') = (length b - n)%nat).
  { rewrite <- Hd. apply length_drop. }
  cbn [length] in Hdl.
  assert (Hfuel : forall q, block q = blk -> p_blockSize q = 0 ->
            Write_loop f1 q (x :: b') = Write_loop f2 q (x :: b')).
  { intros q Hq1 Hq2. apply IH.
    - split; [rewrite Hq1; exact Hblk | lia].
    - rewrite Hq2. cbn [length]. change (0 =? 64) with false. cbv iota.
      destruct (p_blockSize p =? 64) eqn:E; [apply Z.eqb_eq in E|apply Z.eqb_neq in E]; lia.
    - destruct (p_blockSize p =? 64) eqn:E; [apply Z.eqb_eq in E|apply Z.eqb_neq in E]; lia.
    - rewrite Hq2. cbn [length]. change (0 =? 64) with false. cbv iota.
      destruct (p_blockSize p =? 64) eqn:E; [apply Z.eqb_eq in E|apply Z.eqb_neq in E]; lia.
    - destruct (p_blockSize p =? 64) eqn:E; [apply Z.eqb_eq in E|apply Z.eqb_neq in E]; lia. }
  destruct (getBlock _) as [m|]; [|reflexivity].
  destruct (blocksRemaining p =? 1).
  - destruct (AppendNode _ _) as [s|]; [|reflexivity]. apply Hfuel; reflexivity.
  - apply Hfuel; reflexivity.
Qed.

Lemma Write_loop_app f : forall p a b p1,
  block_ok p -> Write_loop f p a = Some p1 ->
  Write_loop (f + S (length b)) p (a ++ b) = Write_loop (S (length b)) p1 b.
Proof.
  induction f as [|f IH]; intros p a b p1 [Hlen Hbs] Ha; [discriminate|].
  rewrite Write_loop_S in Ha.
  change (S f + S (length b))%nat with (S (f + S (length b))).
  rewrite (Write_loop_S (f + S (length b))).
  destruct (copy (block p) (Z.to_nat (p_blockSize p)) a) as [blk n] eqn:Hc.
  assert (Hn : n = Nat.min (64 - Z.to_nat (p_blockSize p)) (length a)).
  { pose proof (copy_count (block p) a (Z.to_nat (p_blockSize p))) as C.
    rewrite Hc in C. simpl in C. rewrite Hlen in C. exact C. }
  assert (Hblk : length blk = 64%nat).
  { pose proof (copy_length (block p) a (Z.to_nat (p_blockSize p))) as C.
    rewrite Hc in C. simpl in C. lia. }
  cbv zeta in Ha.
  destruct (drop n a) as [|x a'] eqn:Hd.
  - (* [a] fits into the current block *)
    injection Ha as <-.
    assert (Hla : (length a <= n)%nat).
    { apply (f_equal length) in Hd. rewrite length_drop in Hd. simpl in Hd. lia. }
    assert (Hna : n = length a) by lia.
    rewrite (Write_loop_S (length b)).
    cbn [block p_blockSize blocksRemaining chunkChainingValue chunkStart chainingValueStack].
    assert (Hbs1 : u32 (p_blockSize p + u32 (Z.of_nat n)) = p_blockSize p + Z.of_nat (length a)).
    { rewrite Hna. rewrite (u32_small (Z.of_nat (length a))) by (unfold is_u32; lia).
      apply u32_small. unfold is_u32. lia. }
    rewrite Hbs1.
    pose proof (copy_copy (block p) a b (Z.to_nat (p_blockSize p)) ltac:(lia)) as Hcc.
    rewrite Hc in Hcc. cbn [fst] in Hcc.
    replace (Z.to_nat (p_blockSize p + Z.of_nat (length a)))
      with (Z.to_nat (p_blockSize p) + length a)%nat by lia.
    rewrite Hcc.
    destruct (copy (block p) (Z.to_nat (p_blockSize p)) (a ++ b)) as [blk' n'] eqn:Hc'.
    cbn [fst snd].
    assert (Hn' : n' = Nat.min (64 - Z.to_nat (p_blockSize p)) (length a + length b)).
    { pose proof (copy_count (block p) (a ++ b) (Z.to_nat (p_blockSize p))) as C.
      rewrite Hc' in C. simpl in C. rewrite Hlen, length_app in C. exact C. }
    assert (Hblk' : length blk' = 64%nat).
    { pose proof (copy_length (block p) (a ++ b) (Z.to_nat (p_blockSize p))) as C.
      rewrite Hc' in C. simpl in C. lia. }
    cbv zeta.
    replace (drop n' (a ++ b)) with (drop (n' - length a) b)
      by (rewrite drop_app_ge by lia; reflexivity).
    replace (u32 (p_blockSize p + Z.of_nat (length a) + u32 (Z.of_nat (n' - length a))))
      with (u32 (p_blockSize p + u32 (Z.of_nat n'))).
    2:{ rewrite !(u32_small (Z.of_nat _)) by (unfold is_u32; lia). f_equal. lia. }
    destruct (drop (n' - length a) b) as [|y b'] eqn:Hd'; [reflexivity|].
    assert (Hdl : length (y :: b') = (length b - (n' - length a))%nat).
    { rewrite <- Hd'. apply length_drop. }
    cbn [length] in Hdl.
    assert (Hfuel : forall q, block q = blk' -> p_blockSize q = 0 ->
              Write_loop (f + S (length b)) q (y :: b') = Write_loop (length b) q (y :: b')).
    { intros q Hq1 Hq2. apply Write_loop_fuel.
      - split; [rewrite Hq1; exact Hblk' | lia].
      - rewrite Hq2. cbn [length]. change (0 =? 64) with false. cbv iota. lia.
      - lia.
      - rewrite Hq2. cbn [length]. change (0 =? 64) with false. cbv iota.
        lia.
      - lia. }
    destruct (getBlock _) as [m|]; [|reflexivity].
    destruct (blocksRemaining p =? 1).
    + destruct (AppendNode _ _) as [s|]; [|reflexivity]. apply Hfuel; reflexivity.
    + apply Hfuel; reflexivity.
  - (* the current block is completed by [a] *)
    assert (Hla : (n < length a)%nat).
    { apply (f_equal length) in Hd. rewrite length_drop in Hd. simpl in Hd. lia. }
    rewrite copy_app_l by lia. rewrite Hc. cbv zeta.
    rewrite drop_app_le by lia. rewrite Hd. cbn [app].
    destruct (getBlock _) as [m|]; [|discriminate].
    destruct (blocksRemaining p =? 1).
    + destruct (AppendNode _ _) as [s|]; [|discriminate].
      apply (IH _ (x :: a') b p1); [|exact Ha].
      split; [exact Hblk | cbn [p_blockSize]; lia].
    + apply (IH _ (x :: a') b p1); [|exact Ha].
      split; [exact Hblk | cbn [p_blockSize]; lia].
Qed.

Lemma parser_ok_block_ok p : parser_ok p -> block_ok p.
Proof. intros (H1 & H2 & _). split; assumption. Qed.

(** Writing [a] and then [b] leaves the chunk parser in the state in
    which writing [a ++ b] leaves it. *)
Lemma Write_app p a b :
  parser_ok p ->
  exists p1, Write p a = Some p1 /\ parser_ok p1 /\ Write p (a ++ b) = Write p1 b.
Proof.
  intros Hok. destruct (Write_total p a Hok) as (p1 & Ha & Hok1 & _).
  exists p1. split; [exact Ha|]. split; [exact Hok1|].
  unfold Write in *.
  rewrite <- (Write_loop_app _ p a b p1 (parser_ok_block_ok _ Hok) Ha).
  apply Write_loop_fuel.
  - apply parser_ok_block_ok, Hok.
  - rewrite length_app. destruct (p_blockSize p =? 64); lia.
  - lia.
  - rewrite length_app. destruct (p_blockSize p =? 64); lia.
  - lia.
Qed.

Lemma Write_nil p : parser_ok p -> Write p [] = Some p.
Proof.
  intros (Hlen & Hbs & _). unfold Write. rewrite Write_loop_S.
  unfold copy. cbn [length drop take app Nat.min].
  rewrite Nat.min_0_r. cbn [take app drop]. rewrite Nat.add_0_r.
  rewrite take_drop. change (u32 (Z.of_nat 0)) with 0. rewrite Z.add_0_r.
  rewrite u32_small by (unfold is_u32; lia). destruct p; reflexivity.
Qed.

(** The BLAKE3ZCC hasher of blobs does not see how its input is cut
    into pieces: a sequence of [Write] calls leaves it in the state of
    a single [Write] of the concatenated pieces, so that [Sum] returns
    the same hash. *)
Theorem blake3zccBlobHasher_pieces (outputSizeBytes : Z) (ps : list (list byte)) :
  exists h,
    blake3zccBlobHasher_Writes (newBLAKE3ZCCBlobHasher outputSizeBytes) ps = Some h
    /\ blake3zccBlobHasher_Write (newBLAKE3ZCCBlobHasher outputSizeBytes) (concat ps) = Some h.
Proof.
  assert (Hgen : forall ps p, parser_ok p ->
            exists p', blake3zccBlobHasher_Writes (mkBlobHasher p outputSizeBytes) ps
                       = Some (mkBlobHasher p' outputSizeBytes)
                       /\ Write p (concat ps) = Some p').
  { clear ps. induction ps as [|a ps IH]; intros p Hok.
    - exists p. split; [reflexivity | apply Write_nil, Hok].
    - cbn [blake3zccBlobHasher_Writes concat].
      destruct (Write_app p a (concat ps) Hok) as (p1 & Ha & Hok1 & Happ).
      unfold blake3zccBlobHasher_Write. cbn [bh_p bh_outputSizeBytes]. rewrite Ha.
      destruct (IH p1 Hok1) as (p' & Hws & Hw).
      exists p'. split; [exact Hws|]. rewrite Happ. exact Hw. }
  destruct (Hgen ps NewChunkParser NewChunkParser_ok) as (p' & Hws & Hw).
  exists (mkBlobHasher p' outputSizeBytes). split; [exact Hws|].
  unfold blake3zccBlobHasher_Write, newBLAKE3ZCCBlobHasher. cbn [bh_p bh_outputSizeBytes].
  rewrite Hw. reflexivity.
Qed.

(** ** Writing a manifest in pieces *)

Lemma blake3zccManifestHasher_Write_loop_fuel f1 : forall f2 h p,
  entry_ok h ->
  (length p + (if (entrySize h =? 97)%Z then 1 else 0) <= f1)%nat -> (1 <= f1)%nat ->
  (length p + (if (entrySize h =? 97)%Z then 1 else 0) <= f2)%nat -> (1 <= f2)%nat ->
  blake3zccManifestHasher_Write_loop f1 h p = blake3zccManifestHasher_Write_loop f2 h p.
Proof.
  induction f1 as [|f1 IH]; intros f2 h p [Hlen Hes] H1 H1' H2 H2'; [lia|].
  destruct f2 as [|f2]; [lia|].
  rewrite !blake3zccManifestHasher_Write_loop_S.
  destruct (copy (entry h) (Z.to_nat (entrySize h)) p) as [e n] eqn:Hc.
  assert (Hn : n = Nat.min (97 - Z.to_nat (entrySize h)) (length p)).
  { pose proof (copy_count (entry h) p (Z.to_nat (entrySize h))) as C.
    rewrite Hc in C. simpl in C. rewrite Hlen in C. exact C. }
  assert (He : length e = 97%nat).
  { pose proof (copy_length (entry h) p (Z.to_nat (entrySize h))) as C.
    rewrite Hc in C. simpl in C. lia. }
  destruct (drop n p) as [|x p'] eqn:Hd; [reflexivity|].
  assert (Hdl : length (x :: p') = (length p - n)%nat).
  { rewrite <- Hd. apply length_drop. }
  cbn [length] in Hdl.
  destruct (unmarshalBLAKE3ZCCParentNode e) as [node|]; [|reflexivity].
  destruct (AppendNode _ _) as [s|]; [|reflexivity].
  destruct (copy e 0 (drop (Z.to_nat blake3zccParentNodeSizeBytes) e)) as [e' k] eqn:Hc'.
  assert (He' : length e' = 97%nat).
  { pose proof (copy_length e (drop (Z.to_nat blake3zccParentNodeSizeBytes) e) 0) as C.
    rewrite Hc' in C. simpl in C. lia. }
  apply IH.
  - split; [exact He' | cbn [entrySize]; unfold blake3zccChunkNodeSizeBytes,
                          blake3zccParentNodeSizeBytes; lia].
  - cbn [entrySize length].
    change (blake3zccChunkNodeSizeBytes - blake3zccParentNodeSizeBytes =? 97) with false.
    cbv iota.
    destruct (entrySize h =? 97) eqn:E; [apply Z.eqb_eq in E|apply Z.eqb_neq in E]; lia.
  - destruct (entrySize h =? 97) eqn:E; [apply Z.eqb_eq in E|apply Z.eqb_neq in E]; lia.
  - cbn [entrySize length].
    change (blake3zccChunkNodeSizeBytes - blake3zccParentNodeSizeBytes =? 97) with false.
    cbv iota.
    destruct (entrySize h =? 97) eqn:E; [apply Z.eqb_eq in E|apply Z.eqb_neq in E]; lia.
  - destruct (entrySize h =? 97) eqn:E; [apply Z.eqb_eq in E|apply Z.eqb_neq in E]; lia.
Qed.

Lemma blake3zccManifestHasher_Write_loop_app f : forall h a b h1,
  entry_ok h -> blake3zccManifestHasher_Write_loop f h a = Some h1 ->
  blake3zccManifestHasher_Write_loop (f + S (length b)) h (a ++ b)
  = blake3zccManifestHasher_Write_loop (S (length b)) h1 b.
Proof.
  induction f as [|f IH]; intros h a b h1 [Hlen Hes] Ha; [discriminate|].
  rewrite blake3zccManifestHasher_Write_loop_S in Ha.
  change (S f + S (length b))%nat with (S (f + S (length b))).
  rewrite (blake3zccManifestHasher_Write_loop_S (f + S (length b))).
  destruct (copy (entry h) (Z.to_nat (entrySize h)) a) as [e n] eqn:Hc.
  assert (Hn : n = Nat.min (97 - Z.to_nat (entrySize h)) (length a)).
  { pose proof (copy_count (entry h) a (Z.to_nat (entrySize h))) as C.
    rewrite Hc in C. simpl in C. rewrite Hlen in C. exact C. }
  assert (He : length e = 97%nat).
  { pose proof (copy_length (entry h) a (Z.to_nat (entrySize h))) as C.
    rewrite Hc in C. simpl in C. lia. }
  destruct (drop n a) as [|x a'] eqn:Hd.
  - (* [a] fits into the buffer *)
    injection Ha as <-.
    assert (Hla : (length a <= n)%nat).
    { apply (f_equal length) in Hd. rewrite length_drop in Hd. simpl in Hd. lia. }
    assert (Hna : n = length a) by lia.
    rewrite (blake3zccManifestHasher_Write_loop_S (length b)).
    cbn [entry entrySize mh_chainingValueStack mh_outputSizeBytes].
    pose proof (copy_copy (entry h) a b (Z.to_nat (entrySize h)) ltac:(lia)) as Hcc.
    rewrite Hc in Hcc. cbn [fst] in Hcc.
    replace (Z.to_nat (entrySize h + Z.of_nat n))
      with (Z.to_nat (entrySize h) + length a)%nat by lia.
    rewrite Hcc.
    destruct (copy (entry h) (Z.to_nat (entrySize h)) (a ++ b)) as [e' n'] eqn:Hc'.
    cbn [fst snd].
    assert (Hn' : n' = Nat.min (97 - Z.to_nat (entrySize h)) (length a + length b)).
    { pose proof (copy_count (entry h) (a ++ b) (Z.to_nat (entrySize h))) as C.
      rewrite Hc' in C. simpl in C. rewrite Hlen, length_app in C. exact C. }
    assert (He' : length e' = 97%nat).
    { pose proof (copy_length (entry h) (a ++ b) (Z.to_nat (entrySize h))) as C.
      rewrite Hc' in C. simpl in C. lia. }
    replace (drop n' (a ++ b)) with (drop (n' - length a) b)
      by (rewrite drop_app_ge by lia; reflexivity).
    replace (entrySize h + Z.of_nat n + Z.of_nat (n' - length a))
      with (entrySize h + Z.of_nat n') by lia.
    destruct (drop (n' - length a) b) as [|y b'] eqn:Hd'; [reflexivity|].
    assert (Hdl : length (y :: b') = (length b - (n' - length a))%nat).
    { rewrite <- Hd'. apply length_drop. }
    cbn [length] in Hdl.
    destruct (unmarshalBLAKE3ZCCParentNode e') as [node|]; [|reflexivity].
    destruct (AppendNode _ _) as [s|]; [|reflexivity].
    destruct (copy e' 0 (drop (Z.to_nat blake3zccParentNodeSizeBytes) e')) as [e'' k] eqn:Hc''.
    assert (He'' : length e'' = 97%nat).
    { pose proof (copy_length e' (drop (Z.to_nat blake3zccParentNodeSizeBytes) e') 0) as C.
      rewrite Hc'' in C. simpl in C. lia. }
    apply blake3zccManifestHasher_Write_loop_fuel.
    + split; [exact He'' | cbn [entrySize]; unfold blake3zccChunkNodeSizeBytes,
                             blake3zccParentNodeSizeBytes; lia].
    + cbn [entrySize length].
      change (blake3zccChunkNodeSizeBytes - blake3zccParentNodeSizeBytes =? 97) with false.
      cbv iota. lia.
    + lia.
    + cbn [entrySize length].
      change (blake3zccChunkNodeSizeBytes - blake3zccParentNodeSizeBytes =? 97) with false.
      cbv iota. lia.
    + lia.
  - (* the buffer is filled by [a], with more to come *)
    assert (Hla : (n < length a)%nat).
    { apply (f_equal length) in Hd. rewrite length_drop in Hd. simpl in Hd. lia. }
    rewrite copy_app_l by lia. rewrite Hc.
    rewrite drop_app_le by lia. rewrite Hd. cbn [app].
    destruct (unmarshalBLAKE3ZCCParentNode e) as [node|]; [|discriminate].
    destruct (AppendNode _ _) as [s|]; [|discriminate].
    destruct (copy e 0 (drop (Z.to_nat blake3zccParentNodeSizeBytes) e)) as [e' k] eqn:Hc'.
    assert (He' : length e' = 97%nat).
    { pose proof (copy_length e (drop (Z.to_nat blake3zccParentNodeSizeBytes) e) 0) as C.
      rewrite Hc' in C. simpl in C. lia. }
    apply (IH _ (x :: a') b h1); [|exact Ha].
    split; [exact He' | cbn [entrySize]; unfold blake3zccChunkNodeSizeBytes,
                          blake3zccParentNodeSizeBytes; lia].
Qed.

Lemma hasher_ok_entry_ok h : hasher_ok h -> entry_ok h.
Proof. intros (H1 & H2 & _). split; assumption. Qed.

Lemma blake3zccManifestHasher_Write_app h a b :
  hasher_ok h ->
  exists h1, blake3zccManifestHasher_Write h a = Some h1 /\ hasher_ok h1
             /\ blake3zccManifestHasher_Write h (a ++ b) = blake3zccManifestHasher_Write h1 b.
Proof.
  intros Hok. destruct (blake3zccManifestHasher_Write_total h a Hok) as (h1 & Ha & Hok1 & _).
  exists h1. split; [exact Ha|]. split; [exact Hok1|].
  unfold blake3zccManifestHasher_Write in *.
  rewrite <- (blake3zccManifestHasher_Write_loop_app _ h a b h1 (hasher_ok_entry_ok _ Hok) Ha).
  apply blake3zccManifestHasher_Write_loop_fuel.
  - apply hasher_ok_entry_ok, Hok.
  - rewrite length_app. destruct (entrySize h =? 97); lia.
  - lia.
  - rewrite length_app. destruct (entrySize h =? 97); lia.
  - lia.
Qed.

Lemma blake3zccManifestHasher_Write_nil h :
  hasher_ok h -> blake3zccManifestHasher_Write h [] = Some h.
Proof.
  intros (Hlen & Hes & _). unfold blake3zccManifestHasher_Write.
  rewrite blake3zccManifestHasher_Write_loop_S.
  unfold copy. cbn [length drop take app Nat.min].
  rewrite Nat.min_0_r. cbn [take app drop]. rewrite Nat.add_0_r.
  rewrite take_drop. change (Z.of_nat 0) with 0. rewrite Z.add_0_r.
  destruct h; reflexivity.
Qed.

(** The hasher of manifests does not see how the manifest is cut into
    pieces either: a sequence of [Write] calls leaves it in the state of
    a single [Write] of the whole manifest. *)
Theorem blake3zccManifestHasher_pieces (outputSizeBytes : Z) (ps : list (list byte)) :
  exists h,
    blake3zccManifestHasher_Writes (newBLAKE3ZCCManifestHasher outputSizeBytes) ps = Some h
    /\ blake3zccManifestHasher_Write (newBLAKE3ZCCManifestHasher outputSizeBytes) (concat ps)
       = Some h.
Proof.
  assert (Hgen : forall ps h, hasher_ok h ->
            exists h', blake3zccManifestHasher_Writes h ps = Some h'
                       /\ blake3zccManifestHasher_Write h (concat ps) = Some h').
  { clear ps. induction ps as [|a ps IH]; intros h Hok.
    - exists h. split; [reflexivity | apply blake3zccManifestHasher_Write_nil, Hok].
    - cbn [blake3zccManifestHasher_Writes concat].
      destruct (blake3zccManifestHasher_Write_app h a (concat ps) Hok)
        as (h1 & Ha & Hok1 & Happ).
      rewrite Ha. destruct (IH h1 Hok1) as (h' & Hws & Hw).
      exists h'. split; [exact Hws|]. rewrite Happ. exact Hw. }
  apply Hgen. apply newBLAKE3ZCCManifestHasher_ok.
Qed.

(** A manifest of any other size than 64*n (n >= 1) or 64*n + 97
    (n >= 0) bytes, written in any pieces, makes [Sum] panic with
    "Manifest has invalid size"; the empty manifest is among them. *)
Theorem manifest_hasher_invalid_size (ps : list (list byte)) (outputSizeBytes : Z)
    (b : list byte) :
  (forall n, 1 <= n -> Z.of_nat (length (concat ps)) <> 64 * n) ->
  (forall n, 0 <= n -> Z.of_nat (length (concat ps)) <> 64 * n + 97) ->
  exists h,
    blake3zccManifestHasher_Writes (newBLAKE3ZCCManifestHasher outputSizeBytes) ps = Some h
    /\ blake3zccManifestHasher_Sum h b = None.
Proof.
  intros Hparent Hchunk.
  destruct (blake3zccManifestHasher_Writes_spec ps (newBLAKE3ZCCManifestHasher outputSizeBytes) 0)
    as (h & Hh & Hok & Ho & Hes).
  { apply newBLAKE3ZCCManifestHasher_ok. }
  { lia. }
  { reflexivity. }
  exists h. split; [exact Hh|].
  rewrite Z.add_0_l in Hes. set (t := Z.of_nat (length (concat ps))) in *.
  assert (Hr : entrySize h <> 64 /\ entrySize h <> 97).
  { rewrite Hes. unfold residual, entrySize_after. rewrite !Z.add_0_l.
    destruct (t <=? 97) eqn:E.
    - apply Z.leb_le in E. split; intros ->.
      + apply (Hparent 1); lia.
      + apply (Hchunk 0); lia.
    - apply Z.leb_gt in E.
      pose proof (Z.div_mod (t - 34) 64 ltac:(lia)) as Hdm.
      pose proof (Z.mod_pos_bound (t - 34) 64 ltac:(lia)) as Hb.
      assert (0 <= (t - 34) / 64) by (apply Z.div_pos; lia).
      split; intros Heq.
      + apply (Hparent ((t - 34) / 64 + 1)); lia.
      + apply (Hchunk ((t - 34) / 64)); lia. }
  unfold blake3zccManifestHasher_Sum.
  unfold blake3zccChunkNodeSizeBytes, blake3zccParentNodeSizeBytes.
  destruct (entrySize h =? 97) eqn:E97; [apply Z.eqb_eq in E97; tauto|].
  destruct (entrySize h =? 64) eqn:E64; [apply Z.eqb_eq in E64; tauto|].
  reflexivity.
Qed.

Lemma manifest_hasher_invalid_size_witness :
  exists h,
    blake3zccManifestHasher_Writes (newBLAKE3ZCCManifestHasher 32) [] = Some h
    /\ blake3zccManifestHasher_Sum h [] = None.
Proof.
  apply (manifest_hasher_invalid_size [] 32 []); intros n Hn; cbn [concat length]; lia.
Defined.

End WritingInPieces.
